(** * The has-one association of lib/associations/has-one.js

    A shallow embedding of the class [HasOne]: the declaration-time part
    (the constructor's key resolution and the referential-action defaults
    of [_injectAttributes]) as pure functions over records, and the
    run-time part ([get], [set], [create]) over a store of JavaScript
    objects, with the persistence engine as a parameter and a log of the
    calls made to it.

    Conventions of the embedding.
    - An object used as a dictionary is the list of its own properties in
      enumeration order. A read of [rawAttributes[name]] at declaration
      time also sees the members of [Object.prototype]; the objects of a
      run (options, values, filters) are read by their own properties.
    - Numbers are the integers (key columns); a reference used as a
      property name prints as [[object Object]].
    - [Utils], [Helpers], the base class [Association] and [Model] live in
      other files of the library; what [HasOne] uses of them is a section
      variable or a small definition marked as such. *)

From Stdlib Require Import ZArith String Ascii.
From stdpp Require Import base option list strings pretty.

Local Open Scope string_scope.
Local Open Scope list_scope.

(** ** JavaScript values *)

Abbreviation loc := nat.

Inductive value :=
| VUndef
| VNull
| VBool (b : bool)
| VNum (n : Z)
| VStr (s : string)
| VRef (l : loc).

#[global] Instance value_eq_dec : EqDecision value.
Proof. solve_decision. Defined.

(** ToBoolean. *)
Definition truthy (v : value) : bool :=
  match v with
  | VUndef | VNull => false
  | VBool b => b
  | VNum n => negb (n =? 0)%Z
  | VStr s => negb (String.eqb s "")
  | VRef _ => true
  end.

(** [===] on the values of the embedding: primitives by value, objects by
    identity. *)
Definition strict_eq (a b : value) : bool := bool_decide (a = b).

(** ToString of a value used as a property name. *)
Definition to_key (v : value) : string :=
  match v with
  | VUndef => "undefined"
  | VNull => "null"
  | VBool true => "true"
  | VBool false => "false"
  | VNum n => pretty n
  | VStr s => s
  | VRef _ => "[object Object]"
  end.

(** An optional string option or property: [None] is [undefined]. *)
Definition str_truthy (o : option string) : bool :=
  match o with
  | Some s => negb (String.eqb s "")
  | None => false
  end.

Definition str_or (a b : option string) : option string :=
  if str_truthy a then a else b.

(** [a || b] where [b] is a string. *)
Definition str_or_else (a : option string) (b : string) : string :=
  match a with
  | Some s => if String.eqb s "" then b else s
  | None => b
  end.

Definition quote : string := String (ascii_of_nat 34) EmptyString.

(** Dictionaries: own properties in enumeration order. *)
Section Dict.
Context {K A : Type} `{EqDecision K}.

Fixpoint dict_get (d : list (K * A)) (k : K) : option A :=
  match d with
  | [] => None
  | (k', v) :: d' => if decide (k' = k) then Some v else dict_get d' k
  end.

(** [d[k] = v]: an existing property keeps its place, a new one goes last. *)
Fixpoint dict_set (d : list (K * A)) (k : K) (v : A) : list (K * A) :=
  match d with
  | [] => [(k, v)]
  | (k', v') :: d' =>
      if decide (k' = k) then (k, v) :: d' else (k', v') :: dict_set d' k v
  end.

Definition has_own (d : list (K * A)) (k : K) : bool :=
  bool_decide (is_Some (dict_get d k)).
End Dict.

Abbreviation dict A := (list (string * A)).

(** ** Declaration time: schemas and options *)

(** A data type of the library ([DataTypes.INTEGER], ...): an object, named
    here by its key. *)
Inductive dtype := DataType (key : string).

#[global] Instance dtype_eq_dec : EqDecision dtype.
Proof. solve_decision. Defined.

(** An attribute description, as given to [Model.init] or as the
    [foreignKey] option: the properties [HasOne] reads or writes, with
    [None] for an absent one, and the others carried along in [attr_more]. *)
Record attribute := {
  attr_name : option string;
  attr_fieldName : option string;
  attr_field : option string;
  attr_type : option dtype;
  attr_allowNull : option bool;
  attr_more : dict value
}.

Definition empty_attribute : attribute :=
  {| attr_name := None; attr_fieldName := None; attr_field := None;
     attr_type := None; attr_allowNull := None; attr_more := [] |}.

Record model_name := {
  singular : string;
  plural : option string
}.

(** What [HasOne] reads of a model. [primaryKeyAttribute] is [undefined]
    for a model without primary key. *)
Record model := {
  name : string;
  primaryKeyAttribute : option string;
  primaryKeyAttributes : list string;
  rawAttributes : dict attribute;
  options_name : model_name
}.

(** The [foreignKey] option: absent, a string, or an attribute description. *)
Inductive foreignKey_option :=
| FKNone
| FKName (s : string)
| FKAttr (a : attribute).

Record assoc_options := {
  opt_as : option string;
  opt_foreignKey : foreignKey_option;
  opt_sourceKey : option string;
  opt_keyType : option dtype;
  opt_constraints : value;
  opt_onDelete : option string;
  opt_onUpdate : option string;
  opt_useHooks : value;
  opt_scope : option (dict value);
  opt_name : option model_name
}.

Inductive error :=
| Error (message : string)            (* [throw new Error(message)] *)
| TypeError                           (* raised by the language *)
| Rejected (reason : value)           (* a rejection by the engine *)
| NotModelled (what : string).        (* a use the embedding gives no meaning to *)

(** Errors in pure code. *)
Definition sum_bind {A B} (r : error + A) (k : A → error + B) : error + B :=
  match r with
  | inl e => inl e
  | inr a => k a
  end.

Notation "x <-? r ;; k" := (sum_bind r (fun x => k))
  (at level 100, r at next level, right associativity).

Record accessor_names := {
  acc_get : string;
  acc_set : string;
  acc_create : string
}.

(** The fields of [this]. *)
Record HasOne := {
  source : model;
  target : model;
  options : assoc_options;
  scope : option (dict value);
  associationType : string;
  isSingleAssociation : bool;
  foreignKeyAttribute : attribute;
  as_ : string;
  isAliased : bool;
  foreignKey : string;
  sourceKey : string;
  sourceKeyAttribute : string;
  sourceKeyField : string;
  sourceKeyIsPrimary : bool;
  associationAccessor : string;
  identifierField : option string;
  accessors : accessor_names
}.

(** [[a, b].join('_')], where an [undefined] element prints as nothing. *)
Definition join_ (a : string) (b : option string) : string :=
  a +:+ "_" +:+ default "" b.

Definition set_options_name (o : assoc_options) (n : model_name) : assoc_options :=
  {| opt_as := opt_as o; opt_foreignKey := opt_foreignKey o;
     opt_sourceKey := opt_sourceKey o; opt_keyType := opt_keyType o;
     opt_constraints := opt_constraints o; opt_onDelete := opt_onDelete o;
     opt_onUpdate := opt_onUpdate o; opt_useHooks := opt_useHooks o;
     opt_scope := opt_scope o; opt_name := Some n |}.

Definition set_options_actions (o : assoc_options) (d u : option string) : assoc_options :=
  {| opt_as := opt_as o; opt_foreignKey := opt_foreignKey o;
     opt_sourceKey := opt_sourceKey o; opt_keyType := opt_keyType o;
     opt_constraints := opt_constraints o; opt_onDelete := d;
     opt_onUpdate := u; opt_useHooks := opt_useHooks o;
     opt_scope := opt_scope o; opt_name := opt_name o |}.

(** [rawAttributes] is a plain object: [rawAttributes[k]] reads an own
    property or, failing that, the member of [Object.prototype] of that
    name. *)
Definition object_prototype : list string :=
  ["constructor"; "hasOwnProperty"; "isPrototypeOf"; "propertyIsEnumerable";
   "toLocaleString"; "toString"; "valueOf"; "__proto__";
   "__defineGetter__"; "__defineSetter__"; "__lookupGetter__";
   "__lookupSetter__"].

Inductive member :=
| Own (a : attribute)
| Inherited.

Definition raw_attribute (d : dict attribute) (k : string) : option member :=
  match dict_get d k with
  | Some a => Some (Own a)
  | None => if bool_decide (k ∈ object_prototype) then Some Inherited else None
  end.

Definition allowNull_truthy (a : attribute) : bool :=
  match attr_allowNull a with Some b => b | None => false end.

(** What [HasOne] reads of the value of [rawAttributes[k]]; the members
    of [Object.prototype] have no [field], [type] or [allowNull]. *)
Definition member_field (m : member) : option string :=
  match m with Own a => attr_field a | Inherited => None end.

Definition member_type (m : member) : option dtype :=
  match m with Own a => attr_type a | Inherited => None end.

Definition member_allowNull (m : member) : bool :=
  match m with Own a => allowNull_truthy a | Inherited => false end.

Section Declaration.

(** [Utils.camelize] and [Utils.singularize] (lib/utils.js), and lodash's
    [_.upperFirst]; [camelize] throws on some strings. *)
Variable camelize : string → error + string.
Variable singularize : string → string.
Variable upperFirst : string → string.

(** Lines 35-49: the name of the foreign key. The first two branches may
    leave [this.foreignKey] unset or empty; the derived name then fills
    it in. *)
Definition explicit_foreignKey (o : assoc_options) : option string :=
  match opt_foreignKey o with
  | FKAttr a => str_or (attr_name a) (attr_fieldName a)
  | FKName s => if str_truthy (Some s) then Some s else None
  | FKNone => None
  end.

Definition derived_foreignKey (o : assoc_options) (src : model) : error + string :=
  camelize
    (join_ (singularize (str_or_else (opt_as o) (name src)))
           (primaryKeyAttribute src)).

Definition resolve_foreignKey (o : assoc_options) (src : model) : error + string :=
  let fk := explicit_foreignKey o in
  if negb (str_truthy fk) then derived_foreignKey o src
  else inr (default "" fk).

Definition unknown_sourceKey (k : string) (src : model) : error :=
  Error ("Unknown attribute " +:+ quote +:+ k +:+ quote
         +:+ " passed as sourceKey, define this attribute on model "
         +:+ quote +:+ name src +:+ quote +:+ " first").

(** The constructor, after [super(source, target, options)] has stored
    [source], [target] and [options] and copied [options.as] and
    [options.scope] to [this.as] and [this.scope]. The statements run in
    the order of the source: the foreign key name (lines 35-49), the
    test of the [sourceKey] option (51-56), the source key (58-60), the
    identifier field (65-67), the accessors (70-76). *)
Definition constructor (src tgt : model) (o : assoc_options) : error + HasOne :=
  let aliased := str_truthy (opt_as o) in
  let as' := str_or_else (opt_as o) (singular (options_name tgt)) in
  let oname :=
    if aliased then {| singular := as'; plural := None |} else options_name tgt in
  let fkattr := match opt_foreignKey o with FKAttr a => a | _ => empty_attribute end in
  fk <-? resolve_foreignKey o src ;;
  if (str_truthy (opt_sourceKey o)
      && negb (bool_decide
                 (is_Some (raw_attribute (rawAttributes src)
                             (default "" (opt_sourceKey o))))))%bool
  then inl (unknown_sourceKey (default "" (opt_sourceKey o)) src)
  else
    match str_or (opt_sourceKey o) (primaryKeyAttribute src) with
    | None =>
        (* [this.sourceKey] is [undefined], and line 59 reads
           [rawAttributes[undefined].field] *)
        match raw_attribute (rawAttributes src) "undefined" with
        | None => inl TypeError
        | Some _ => inl (NotModelled "a source key that is undefined")
        end
    | Some sk =>
        match raw_attribute (rawAttributes src) sk with
        | None => inl TypeError
        | Some m =>
            let singular' := upperFirst (singular oname) in
            inr {| source := src; target := tgt;
                   options := set_options_name o oname;
                   scope := opt_scope o;
                   associationType := "HasOne";
                   isSingleAssociation := true;
                   foreignKeyAttribute := fkattr;
                   as_ := as';
                   isAliased := aliased;
                   foreignKey := fk;
                   sourceKey := sk;
                   sourceKeyAttribute := sk;
                   sourceKeyField := str_or_else (member_field m) sk;
                   sourceKeyIsPrimary :=
                     bool_decide (Some sk = primaryKeyAttribute src);
                   associationAccessor := as';
                   identifierField :=
                     match raw_attribute (rawAttributes tgt) fk with
                     | Some t => Some (str_or_else (member_field t) fk)
                     | None => None
                     end;
                   accessors := {| acc_get := "get" +:+ singular';
                                   acc_set := "set" +:+ singular';
                                   acc_create := "create" +:+ singular' |} |}
        end
    end.

End Declaration.

(** *** _injectAttributes (lines 80-105) *)

(** Lines 83-86: [_.defaults({}, this.foreignKeyAttribute, {type: ty,
    allowNull: true})]. *)
Definition new_foreignKey_attribute (this : HasOne) (ty : option dtype) : attribute :=
  let a := foreignKeyAttribute this in
  {| attr_name := attr_name a; attr_fieldName := attr_fieldName a;
     attr_field := attr_field a;
     attr_type := match attr_type a with Some t => Some t | None => ty end;
     attr_allowNull :=
       match attr_allowNull a with Some b => Some b | None => Some true end;
     attr_more := attr_more a |}.

(** Line 84: [this.options.keyType ||
    this.source.rawAttributes[this.sourceKey].type]. *)
Definition key_type (this : HasOne) : error + option dtype :=
  match opt_keyType (options this) with
  | Some t => inr (Some t)
  | None =>
      match raw_attribute (rawAttributes (source this)) (sourceKey this) with
      | Some m => inr (member_type m)
      | None => inl TypeError
      end
  end.

(** Lines 88-92: [this.options] once the referential actions are set;
    [new] is [newAttributes[this.foreignKey]]. *)
Definition referential_actions (this : HasOne) (new : attribute) : assoc_options :=
  let o := options this in
  if negb (strict_eq (opt_constraints o) (VBool false)) then
    let allowNull :=
      match raw_attribute (rawAttributes (target this)) (foreignKey this) with
      | Some target => member_allowNull target
      | None => allowNull_truthy new
      end in
    set_options_actions o
      (Some (str_or_else (opt_onDelete o)
               (if allowNull then "SET NULL" else "CASCADE")))
      (Some (str_or_else (opt_onUpdate o) "CASCADE"))
  else o.

Definition with_rawAttributes (m : model) (d : dict attribute) : model :=
  {| name := name m; primaryKeyAttribute := primaryKeyAttribute m;
     primaryKeyAttributes := primaryKeyAttributes m; rawAttributes := d;
     options_name := options_name m |}.

(** [this] when [_injectAttributes] returns it: the options [o], the
    target [tgt] as merged and refreshed, and line 100 on the member [m]
    read from it. A model is identified by its name: in a
    self-association the source is the target. *)
Definition injected (this : HasOne) (o : assoc_options) (tgt : model) (m : member)
  : HasOne :=
  {| source := if bool_decide (name (source this) = name (target this))
               then tgt else source this;
     target := tgt; options := o;
     scope := scope this; associationType := associationType this;
     isSingleAssociation := isSingleAssociation this;
     foreignKeyAttribute := foreignKeyAttribute this; as_ := as_ this;
     isAliased := isAliased this; foreignKey := foreignKey this;
     sourceKey := sourceKey this; sourceKeyAttribute := sourceKeyAttribute this;
     sourceKeyField := sourceKeyField this;
     sourceKeyIsPrimary := sourceKeyIsPrimary this;
     associationAccessor := associationAccessor this;
     identifierField := Some (str_or_else (member_field m) (foreignKey this));
     accessors := accessors this |}.

Section Injection.

(** [Helpers.addForeignKeyConstraints] and [Helpers.checkNamingCollision]
    (lib/associations/helpers.js), lodash's [_.merge] and
    [Model.refreshAttributes] (lib/model.js). [addForeignKeyConstraints]
    gets the new attribute, the source, the target, [this.options] and
    [this.sourceKeyField], and leaves the attribute as the value it
    returns here. *)
Variable addForeignKeyConstraints :
  attribute → model → model → assoc_options → string → error + attribute.
Variable merge : dict attribute → dict attribute → dict attribute.
Variable refreshAttributes : model → error + model.
Variable checkNamingCollision : HasOne → error + unit.

Definition _injectAttributes (this : HasOne) : error + HasOne :=
  ty <-? key_type this ;;
  let new := new_foreignKey_attribute this ty in
  let o := referential_actions this new in
  new <-? addForeignKeyConstraints new (source this) (target this) o
            (sourceKeyField this) ;;
  tgt <-? refreshAttributes
            (with_rawAttributes (target this)
               (merge (rawAttributes (target this)) [(foreignKey this, new)])) ;;
  match raw_attribute (rawAttributes tgt) (foreignKey this) with
  | None => inl TypeError
  | Some m =>
      let this' := injected this o tgt m in
      _ <-? checkNamingCollision this' ;;
      inr this'
  end.

End Injection.

(** ** Run time: the store of objects *)

(** The operator symbols of lib/operators.js that [HasOne] uses. *)
Inductive op := OpIn | OpAnd.

#[global] Instance op_eq_dec : EqDecision op.
Proof. solve_decision. Defined.

Inductive pkey :=
| KStr (s : string)
| KSym (o : op).

#[global] Instance pkey_eq_dec : EqDecision pkey.
Proof. solve_decision. Defined.

Coercion KStr : string >-> pkey.

Abbreviation props := (list (pkey * value)).

(** A cell of the store: a plain object, an array, or a record (an
    instance of the model named [m], with its [dataValues]). *)
Inductive cell :=
| CObj (ps : props)
| CArr (vs : list value)
| CInst (m : string) (dataValues : dict value).

Abbreviation heap := (list cell).

Definition alloc (h : heap) (c : cell) : heap * value := (h ++ [c], VRef (length h)).

Definition deref (h : heap) (v : value) : option cell :=
  match v with
  | VRef l => h !! l
  | _ => None
  end.

(** The string-keyed own properties, as [_.assign] and [Object.keys] see
    them. *)
Fixpoint string_props (ps : props) : dict value :=
  match ps with
  | [] => []
  | (KStr k, v) :: ps' => (k, v) :: string_props ps'
  | (KSym _, _) :: ps' => string_props ps'
  end.

(** [_.assign(dst, src)] on the properties of [dst]: for every name of
    [src], in order, [dst[name] = src[name]]. *)
Fixpoint assign_keys (dst : props) (src : dict value) (keys : list string) : props :=
  match keys with
  | [] => dst
  | k :: keys' =>
      assign_keys (dict_set dst (KStr k) (default VUndef (dict_get src k))) src keys'
  end.

Definition assign_props (dst : props) (src : dict value) : props :=
  assign_keys dst src src.*1.

(** The same on the [dataValues] of a record. *)
Fixpoint assign_values (dst src : dict value) (keys : list string) : dict value :=
  match keys with
  | [] => dst
  | k :: keys' =>
      assign_values (dict_set dst k (default VUndef (dict_get src k))) src keys'
  end.

Definition assign_dict (dst src : dict value) : dict value :=
  assign_values dst src src.*1.

(** Modelled from the spec: [Utils.cloneDeep] (lib/utils.js), the deep
    clone of an options object. Plain objects and arrays are copied into
    new cells, level by level; records are shared. [fuel] bounds the
    depth, and a structure deeper than that (a cyclic one) keeps its
    remaining references. *)
Fixpoint clone_list (f : heap → value → heap * value) (h : heap) (vs : list value)
  : heap * list value :=
  match vs with
  | [] => (h, [])
  | v :: vs' =>
      let '(h1, v') := f h v in
      let '(h2, vs'') := clone_list f h1 vs' in
      (h2, v' :: vs'')
  end.

Fixpoint clone_props (f : heap → value → heap * value) (h : heap) (ps : props)
  : heap * props :=
  match ps with
  | [] => (h, [])
  | (k, v) :: ps' =>
      let '(h1, v') := f h v in
      let '(h2, ps'') := clone_props f h1 ps' in
      (h2, (k, v') :: ps'')
  end.

Fixpoint clone_value (fuel : nat) (h : heap) (v : value) : heap * value :=
  match fuel with
  | O => (h, v)
  | S n =>
      match deref h v with
      | Some (CObj ps) =>
          let '(h1, ps') := clone_props (clone_value n) h ps in
          alloc h1 (CObj ps')
      | Some (CArr vs) =>
          let '(h1, vs') := clone_list (clone_value n) h vs in
          alloc h1 (CArr vs')
      | _ => (h, v)
      end
  end.

(** [obj = obj || {}] and then the clone. *)
Definition cloneDeep (h : heap) (v : value) : heap * value :=
  let '(h0, v0) := if truthy v then (h, v) else alloc h (CObj []) in
  clone_value (S (length h0)) h0 v0.

(** ** Run time: the engine and the calls made to it *)

(** The model a query is sent to: [this.target], or what [unscoped],
    [scope] and [schema] return for it. *)
Inductive query_target :=
| Target
| Unscoped (t : query_target)
| Scoped (t : query_target) (scope : value)
| Schema (t : query_target) (schema delimiter : value).

Inductive call :=
| FindAll (t : query_target) (options : value)
| FindOne (t : query_target) (options : value)
| Save (record : value) (options : value)
| Create (values : value) (options : value).

(** A call, with the store as it is when the call is made. *)
Record event := {
  ev_call : call;
  ev_heap : heap
}.

Definition is_find (e : event) : bool :=
  match ev_call e with FindAll _ _ | FindOne _ _ => true | _ => false end.

Definition is_save (e : event) : bool :=
  match ev_call e with Save _ _ => true | _ => false end.

Definition is_create (e : event) : bool :=
  match ev_call e with Create _ _ => true | _ => false end.

(** At most [n] calls, each of the kind [P]. *)
Definition at_most (n : nat) (P : event → bool) (l : list event) : Prop :=
  (length l ≤ n)%nat ∧ Forall (λ e, P e = true) l.

(** ** The state of a run and its monad *)

Section Monad.
(** The state of the persistence engine. *)
Context {db : Type}.

Record world := {
  w_heap : heap;
  w_db : db;
  w_log : list event
}.

Definition M (A : Type) : Type := world → (error + A) * world.

Definition ret {A} (a : A) : M A := λ w, (inr a, w).
Definition throw {A} (e : error) : M A := λ w, (inl e, w).
Definition bind {A B} (m : M A) (k : A → M B) : M B :=
  λ w, match m w with
       | (inr a, w') => k a w'
       | (inl e, w') => (inl e, w')
       end.
Definition lift {A} (r : error + A) : M A := λ w, (r, w).

Definition the_heap : M heap := λ w, (inr (w_heap w), w).
Definition put_heap (h : heap) : M unit :=
  λ w, (inr tt, {| w_heap := h; w_db := w_db w; w_log := w_log w |}).

Definition new (c : cell) : M value :=
  λ w, let '(h, v) := alloc (w_heap w) c in
       (inr v, {| w_heap := h; w_db := w_db w; w_log := w_log w |}).

(** A step that only touches the store. *)
Definition with_heap (w : world) (h : heap) : world :=
  {| w_heap := h; w_db := w_db w; w_log := w_log w |}.

(** A computation only adds to the log. *)
Definition extends_log {A} (m : M A) : Prop :=
  ∀ w, w_log w `prefix_of` w_log (m w).2.

(** The calls a computation adds to the log, whatever its outcome, are a
    list for which [L] holds. *)
Definition calls {A} (L : list event → Prop) (m : M A) : Prop :=
  ∀ w, ∃ l, w_log (m w).2 = w_log w ++ l ∧ L l.
End Monad.

Arguments world : clear implicits.
Arguments M : clear implicits.

Notation "x <- m ;; k" := (bind m (fun x => k))
  (at level 100, m at next level, right associativity).

(** Reading and writing a property. *)
Definition prop (ps : props) (k : pkey) : value := default VUndef (dict_get ps k).

Definition get_prop (h : heap) (v : value) (k : pkey) : error + value :=
  match v with
  | VRef _ =>
      match deref h v with
      | Some (CObj ps) => inr (prop ps k)
      | _ => inl (NotModelled "a property of a value that is no plain object")
      end
  | VUndef | VNull => inl TypeError
  | _ => inr VUndef
  end.

(** [v[k] = x] in strict mode. *)
Definition set_prop (h : heap) (v : value) (k : pkey) (x : value) : error + heap :=
  match v with
  | VRef l =>
      match h !! l with
      | Some (CObj ps) => inr (<[l := CObj (dict_set ps k x)]> h)
      | _ => inl (NotModelled "a property of a value that is no plain object")
      end
  | _ => inl TypeError
  end.

(** [_.assign({}, v)] and [_.extend({}, v)]: the own string-keyed
    properties of [v]; none for [undefined], [null], a boolean or a
    number. *)
Definition own_string_props (h : heap) (v : value) : error + dict value :=
  match v with
  | VRef _ =>
      match deref h v with
      | Some (CObj ps) => inr (string_props ps)
      | _ => inl (NotModelled "the properties of a value that is no plain object")
      end
  | VStr _ => inl (NotModelled "the properties of a string")
  | _ => inr []
  end.

Definition is_instance_of (h : heap) (v : value) (m : string) : bool :=
  match deref h v with
  | Some (CInst m' _) => bool_decide (m' = m)
  | _ => false
  end.

(** ** Run time: what the statements speak of *)

Definition is_ref (v : value) : bool :=
  match v with VRef _ => true | _ => false end.

(** The options as the caller gives them: a plain object with the
    properties [ps], or no object at all, which stands for [{}]. *)
Definition options_given (h : heap) (options : value) (ps : props) : Prop :=
  if truthy options then deref h options = Some (CObj ps) else ps = [].

(** [v'] is what some run of the clone gives for [v]. *)
Definition clone_of (v v' : value) : Prop :=
  ∃ fuel h h', clone_value fuel h v = (h', v').

(** The properties [ps'] are, name by name, clones of the properties
    [ps]. *)
Definition props_cloned (ps ps' : props) : Prop :=
  ∀ k, match dict_get ps k, dict_get ps' k with
       | Some v, Some v' => clone_of v v'
       | None, None => True
       | _, _ => False
       end.

(** No explicit name is usable: the option is absent, an empty string,
    or a description with neither [name] nor [fieldName]. *)
Definition no_explicit_name (o : assoc_options) : Prop :=
  match opt_foreignKey o with
  | FKAttr a =>
      str_truthy (attr_name a) = false ∧ str_truthy (attr_fieldName a) = false
  | FKName s => s = ""
  | FKNone => True
  end.

Definition is_record (h : heap) (v : value) : Prop :=
  ∃ m dv, deref h v = Some (CInst m dv).

(** A value of the store that is no record: a primitive, or a reference
    to a plain object or an array. *)
Definition no_record (h : heap) (v : value) : Prop :=
  is_ref v = false ∨ ∃ c, deref h v = Some c ∧ ∀ m dv, c ≠ CInst m dv.

(** Lines 162-164 on the store [h]: the caller's filter [cw], when there
    is one, is joined to the object [where] (the cell [n]) under
    [Op.and]. *)
Definition join_where (h : heap) (n : nat) (cw : value) : heap * value :=
  if truthy cw
  then (h ++ [CArr [VRef n; cw]; CObj [(KSym OpAnd, VRef (length h))]],
        VRef (S (length h)))
  else (h, VRef n).

(** In the store [h], the options carry as [where] the object of the
    cell [n], joined under [Op.and] with [cw] when [cw] is truthy. *)
Definition filter_sent (h : heap) (options : value) (n : loc) (cw : value) : Prop :=
  ∃ ps, deref h options = Some (CObj ps)
        ∧ if truthy cw
          then ∃ a b, dict_get ps (KStr "where") = Some (VRef b)
                      ∧ h !! b = Some (CObj [(KSym OpAnd, VRef a)])
                      ∧ h !! a = Some (CArr [VRef n; cw])
          else dict_get ps (KStr "where") = Some (VRef n).

(** The query works on the clone of the caller's options. In the store
    [hq] of the query, the options [o] are the object [cloneDeep] has
    made of the caller's options in the store [h] of the call (to which
    the object [where] was added first), [cw] is the [where] of that
    clone, and the cells of the clone are as [cloneDeep] left them. A
    filter that is no object is the caller's own value; a filter that is
    an object of primitives is a new object with the same entries. *)
Definition filter_cloned (h : heap) (options : value) (ps : props)
    (hq : heap) (o cw : value) : Prop :=
  (∃ h1 ps1,
     cloneDeep (h ++ [CObj []]) options = (h1 ++ [CObj ps1], VRef (length h1))
     ∧ o = VRef (length h1)
     ∧ cw = prop ps1 "where"
     ∧ ∀ l, l < length h1 → l ≠ length h → hq !! l = h1 !! l)
  ∧ (is_ref (prop ps "where") = false → cw = prop ps "where")
  ∧ (∀ lw wps, prop ps "where" = VRef lw →
               h !! lw = Some (CObj wps) →
               Forall (λ p, is_ref p.2 = false) wps →
               ∃ lc, cw = VRef lc ∧ length h < lc ∧ hq !! lc = Some (CObj wps)).

(** The read of [set] is not scoped. *)
Definition scope_disabled (T : query_target) : Prop :=
  T = Unscoped Target ∨ ∃ s d, T = Schema (Unscoped Target) s d.


(** The store after the names [names] are pushed on the array
    [options.fields], when the options [ops] have one. *)
Definition push (h : heap) (ops : props) (names : list string) : heap :=
  match prop ops "fields" with
  | VRef lf =>
      match h !! lf with
      | Some (CArr fs) => <[lf := CArr (fs ++ (VStr <$> names))]> h
      | _ => h
      end
  | _ => h
  end.

(** The options have no field list, or an array as field list. *)
Definition fields_ok (h : heap) (ops : props) : Prop :=
  truthy (prop ops "fields") = false
  ∨ ∃ lf fs, prop ops "fields" = VRef lf ∧ h !! lf = Some (CArr fs).

(** Lines 246-247: the store and the two objects [create] works on. *)
Definition create_args (h : heap) (values options : value) : heap * value * value :=
  let '(h1, values) := if truthy values then (h, values) else alloc h (CObj []) in
  let '(h2, options) := if truthy options then (h1, options) else alloc h1 (CObj []) in
  (h2, values, options).

Section Runtime.

(** Modelled from the spec: [Model#get] (lib/model.js). A raw read gives
    the stored value; a read that is not raw goes through the getter the
    model [m] defines for the attribute, if it defines one. *)
Variable customGetters : string → string → option (dict value → value).

(** The persistence engine: its state, and its answer to a call, which
    may be a rejection and may change the store. *)
Variable db : Type.
Variable engine : call → heap → db → (error + value) * heap * db.

Variable this : HasOne.

Definition instance_get (raw : bool) (h : heap) (v : value) (attr : string)
  : error + value :=
  match deref h v with
  | Some (CInst m dv) =>
      match (if raw then None else customGetters m attr) with
      | Some g => inr (g dv)
      | None => inr (default VUndef (dict_get dv attr))
      end
  | _ => inl TypeError
  end.

(** Modelled from the spec: [Model#set] and the attribute setters
    (lib/model.js): the value is stored in [dataValues]. *)
Definition instance_set (h : heap) (v : value) (attr : string) (x : value)
  : error + heap :=
  match v with
  | VRef l =>
      match h !! l with
      | Some (CInst m dv) => inr (<[l := CInst m (dict_set dv attr x)]> h)
      | _ => inl TypeError
      end
  | _ => inl TypeError
  end.

(** [_.assign(record, scope)]: every name of the scope is an attribute
    of the target, and the assignment goes through its setter. *)
Definition instance_assign (h : heap) (v : value) (sc : option (dict value))
  : error + heap :=
  match sc with
  | None => inr h
  | Some d =>
      match v with
      | VRef l =>
          match h !! l with
          | Some (CInst m dv) => inr (<[l := CInst m (assign_dict dv d)]> h)
          | _ => inl (NotModelled "assign to a value that is no record")
          end
      | _ => inl (NotModelled "assign to a value that is no record")
      end
  end.

(** A call to the engine: logged with the store it sees, answered by the
    engine. *)
Definition perform (c : call) : M db value :=
  λ w, let '(r, h, d) := engine c (w_heap w) (w_db w) in
       (r, {| w_heap := h; w_db := d;
              w_log := w_log w ++ [{| ev_call := c; ev_heap := w_heap w |}] |}).

Definition store_prop (v : value) (k : pkey) (x : value) : M db unit :=
  h <- the_heap ;;
  h' <- lift (set_prop h v k x) ;;
  put_heap h'.

(** *** get (lines 125-182) *)

(** Lines 128-143: the model the query goes to. *)
Definition find_target (ps : props) : query_target :=
  let t :=
    match dict_get ps (KStr "scope") with
    | Some s => if truthy s then Scoped Target s else Unscoped Target
    | None => Target
    end in
  match dict_get ps (KStr "schema") with
  | Some sc => Schema t sc (prop ps "schemaDelimiter")
  | None => t
  end.

(** [instances.map(instance => instance.get(attr, {raw}))] *)
Fixpoint map_get (raw : bool) (h : heap) (vs : list value) (attr : string)
  : error + list value :=
  match vs with
  | [] => inr []
  | v :: vs' =>
      x <-? instance_get raw h v attr ;;
      xs <-? map_get raw h vs' attr ;;
      inr (x :: xs)
  end.

(** Lines 169-171. *)
Fixpoint index_sources (h : heap) (instances : list value) (result : props)
  : error + props :=
  match instances with
  | [] => inr result
  | instance :: rest =>
      k <-? instance_get true h instance (sourceKey this) ;;
      index_sources h rest (dict_set result (KStr (to_key k)) VNull)
  end.

(** Lines 173-175. *)
Fixpoint index_targets (h : heap) (results : list value) (result : props)
  : error + props :=
  match results with
  | [] => inr result
  | instance :: rest =>
      k <-? instance_get true h instance (foreignKey this) ;;
      index_targets h rest (dict_set result (KStr (to_key k)) instance)
  end.

(** Lines 167-178: the continuation of [findAll]. *)
Definition index_results (instances results : value) : M db value :=
  h <- the_heap ;;
  match deref h results, deref h instances with
  | Some (CArr rs), Some (CArr vs) =>
      r0 <- lift (index_sources h vs []) ;;
      r1 <- lift (index_targets h rs r0) ;;
      new (CObj r1)
  | _, _ => throw (NotModelled "an answer of findAll that is no array")
  end.

Definition assign_scope (v : value) : M db unit :=
  match scope this with
  | Some sc =>
      h <- the_heap ;;
      match v with
      | VRef l =>
          match h !! l with
          | Some (CObj ps) => put_heap (<[l := CObj (assign_props ps sc)]> h)
          | _ => throw TypeError
          end
      | _ => throw TypeError
      end
  | None => ret tt
  end.

(** Lines 126-164: the model and the options of the query; the flag
    tells whether [instances] is an array. *)
Definition get_query (instances options : value)
  : M db (query_target * value * bool) :=
  where_ <- new (CObj []) ;;
  h <- the_heap ;;
  let '(h1, options) := cloneDeep h options in
  _ <- put_heap h1 ;;
  match deref h1 options with
  | Some (CObj ps) =>
      let Target' := find_target ps in
      let many :=
        match deref h1 instances with Some (CArr vs) => Some vs | _ => None end in
      fk <- match many with
            | Some vs =>
                keys <- lift (map_get false h1 vs (sourceKey this)) ;;
                arr <- new (CArr keys) ;;
                new (CObj [(KSym OpIn, arr)])
            | None => lift (instance_get false h1 instances (sourceKey this))
            end ;;
      _ <- store_prop where_ (foreignKey this) fk ;;
      _ <- assign_scope where_ ;;
      w <- (if truthy (prop ps "where") then
              arr <- new (CArr [where_; prop ps "where"]) ;;
              new (CObj [(KSym OpAnd, arr)])
            else ret where_) ;;
      _ <- store_prop options "where" w ;;
      ret (Target', options, bool_decide (is_Some many))
  | Some _ => throw (NotModelled "options that are no plain object")
  | None => throw TypeError
  end.

(** Lines 166-181. *)
Definition get (instances options : value) : M db value :=
  q <- get_query instances options ;;
  let '(Target', options, many) := q in
  if many : bool then
    results <- perform (FindAll Target' options) ;;
    index_results instances results
  else perform (FindOne Target' options).

(** *** set (lines 193-232) *)

(** The right-hand side of line 203. *)
Definition candidate_key (h : heap) (associatedInstance : value) (attr : string)
  : error + value :=
  match deref h associatedInstance with
  | Some (CInst _ dv) => inr (default VUndef (dict_get dv attr))
  | Some (CObj ps) =>
      if truthy (prop ps "get") then inl TypeError else inr associatedInstance
  | _ => inr associatedInstance
  end.

(** [_.every(this.target.primaryKeyAttributes, ...)] of lines 202-204. *)
Fixpoint every_key (h : heap) (oldInstance associatedInstance : value)
    (attrs : list string) : error + bool :=
  match attrs with
  | [] => inr true
  | attribute :: rest =>
      a <-? instance_get true h oldInstance attribute ;;
      b <-? candidate_key h associatedInstance attribute ;;
      if strict_eq a b then every_key h oldInstance associatedInstance rest
      else inr false
  end.

(** Modelled from the spec: [Model.build(values, {isNewRecord: false})]
    (lib/model.js) wraps a bare key value as a record of the target,
    keyed by the target's primary key. *)
Definition build (pk : string) (key : value) : M db value :=
  new (CInst (name (target this)) [(pk, key)]).

(** Lines 202-204. *)
Definition already_associated (h : heap) (oldInstance associatedInstance : value)
  : error + bool :=
  if (truthy oldInstance && truthy associatedInstance)%bool
  then every_key h oldInstance associatedInstance
         (primaryKeyAttributes (target this))
  else inr false.

(** Lines 208-212, the properties of the options of the save. *)
Definition detach_options (given : dict value) (fields allowNull : value) : props :=
  assign_props (assign_props [] given)
    [("fields", fields); ("allowNull", allowNull); ("association", VBool true)].

(** Lines 207-212: the old record loses its foreign key and is saved. *)
Definition detach (oldInstance options : value) : M db value :=
  h <- the_heap ;;
  h <- lift (instance_set h oldInstance (foreignKey this) VNull) ;;
  _ <- put_heap h ;;
  given <- lift (own_string_props h options) ;;
  fields <- new (CArr [VStr (foreignKey this)]) ;;
  allowNull <- new (CArr [VStr (foreignKey this)]) ;;
  saveOptions <- new (CObj (detach_options given fields allowNull)) ;;
  perform (Save oldInstance saveOptions).

(** Lines 216-227: the candidate, built from the bare key when it is no
    record of the target, gets the scope and the foreign key and is
    saved. *)
Definition attach (sourceInstance associatedInstance options : value) : M db value :=
  h <- the_heap ;;
  associatedInstance <-
    (if negb (is_instance_of h associatedInstance (name (target this))) then
       let pk := default "undefined" (primaryKeyAttribute (target this)) in
       _ <- new (CObj [(KStr pk, associatedInstance)]) ;;
       build pk associatedInstance
     else ret associatedInstance) ;;
  h <- the_heap ;;
  h <- lift (instance_assign h associatedInstance (scope this)) ;;
  key <- lift (instance_get false h sourceInstance (sourceKeyAttribute this)) ;;
  h <- lift (instance_set h associatedInstance (foreignKey this) key) ;;
  _ <- put_heap h ;;
  perform (Save associatedInstance options).

(** Lines 201-231: the two callbacks, given the record [get] found.
    The second runs when the promise of the first, the save of [detach]
    included, has resolved. *)
Definition relink (sourceInstance associatedInstance options oldInstance : value)
  : M db value :=
  h <- the_heap ;;
  alreadyAssociated <- lift (already_associated h oldInstance associatedInstance) ;;
  _ <- (if (truthy oldInstance && negb alreadyAssociated)%bool
        then detach oldInstance options
        else ret VUndef) ;;
  if (truthy associatedInstance && negb alreadyAssociated)%bool
  then attach sourceInstance associatedInstance options
  else ret VNull.

(** Lines 196-198, the properties of the options [set] works with. *)
Definition set_options (given : dict value) : props :=
  assign_props (assign_props [] given) [("scope", VBool false)].

(** [sourceInstance[this.accessors.get](options)] is [get], bound to the
    association by [Helpers.mixinMethods]. *)
Definition set (sourceInstance associatedInstance options : value) : M db value :=
  h <- the_heap ;;
  given <- lift (own_string_props h options) ;;
  options <- new (CObj (set_options given)) ;;
  oldInstance <- get sourceInstance options ;;
  relink sourceInstance associatedInstance options oldInstance.

(** *** create (lines 245-264) *)

(** [if (options.fields) options.fields.push(x)] *)
Definition push_field (options : value) (x : string) : M db unit :=
  h <- the_heap ;;
  fields <- lift (get_prop h options "fields") ;;
  if truthy fields then
    match fields with
    | VRef l =>
        match h !! l with
        | Some (CArr vs) => put_heap (<[l := CArr (vs ++ [VStr x])]> h)
        | _ => throw TypeError
        end
    | _ => throw TypeError
    end
  else ret tt.

(** Lines 250-255, over [Object.keys(this.scope)]. *)
Fixpoint create_scope (sc : dict value) (keys : list string) (values options : value)
  : M db unit :=
  match keys with
  | [] => ret tt
  | attribute :: rest =>
      _ <- store_prop values attribute (default VUndef (dict_get sc attribute)) ;;
      _ <- push_field options attribute ;;
      create_scope sc rest values options
  end.

Definition create (sourceInstance values options : value) : M db value :=
  values <- (if truthy values then ret values else new (CObj [])) ;;
  options <- (if truthy options then ret options else new (CObj [])) ;;
  _ <- match scope this with
       | Some sc => create_scope sc sc.*1 values options
       | None => ret tt
       end ;;
  h <- the_heap ;;
  key <- lift (instance_get false h sourceInstance (sourceKeyAttribute this)) ;;
  _ <- store_prop values (foreignKey this) key ;;
  _ <- push_field options (foreignKey this) ;;
  perform (Create values options).

(** *** The stores and the worlds of the runs *)

(** The properties of the object [where] once the foreign key and the
    scope are in. *)
Definition where_props (fk : value) : props :=
  match scope this with
  | Some sc => assign_props [(KStr (foreignKey this), fk)] sc
  | None => [(KStr (foreignKey this), fk)]
  end.

(** The store a query of [get] sees: [h1] is the store after the clone
    of the options, whose last cell [o] holds the clone [ps1]; [n] is
    the cell of the object [where]; [extra] are the cells made for the
    value [fk] of the foreign key entry. *)
Definition query_heap (h1 : heap) (n o : nat) (ps1 : props) (extra : list cell) (fk : value)
  : heap :=
  let '(h2, wv) :=
    join_where (<[n := CObj (where_props fk)]> (h1 ++ extra)) n (prop ps1 "where") in
  <[o := CObj (dict_set ps1 (KStr "where") wv)]> h2.

(** The world after a call: the engine's store and state, and the call
    added to the log. *)
Definition after_call (w : world db) (c : call) : world db :=
  {| w_heap := (engine c (w_heap w) (w_db w)).1.2;
     w_db := (engine c (w_heap w) (w_db w)).2;
     w_log := w_log w ++ [{| ev_call := c; ev_heap := w_heap w |}] |}.

(** The name a record gets from its raw value of [attr]. *)
Definition raw_key (h : heap) (attr : string) (v : value) : string :=
  match instance_get true h v attr with
  | inr x => to_key x
  | inl _ => EmptyString
  end.

Definition fill_null (h : heap) (vs : list value) (acc : props) : props :=
  foldl (λ a v, dict_set a (KStr (raw_key h (sourceKey this) v)) VNull) acc vs.

Definition fill_targets (h : heap) (rs : list value) (acc : props) : props :=
  foldl (λ a r, dict_set a (KStr (raw_key h (foreignKey this) r)) r) acc rs.

(** The store of the save of [detach]: the old record without its
    foreign key, and three new cells for the options of the save. *)
Definition detach_heap (h : heap) (lo : loc) (m : string) (dv given : dict value) : heap :=
  <[lo := CInst m (dict_set dv (foreignKey this) VNull)]> h
  ++ [CArr [VStr (foreignKey this)]; CArr [VStr (foreignKey this)];
      CObj (detach_options given (VRef (length h)) (VRef (S (length h))))].

(** The candidate as [attach] saves it, and the store before the scope
    and the foreign key are put in. *)
Definition attach_candidate (h : heap) (associatedInstance : value) : heap * value :=
  if is_instance_of h associatedInstance (name (target this))
  then (h, associatedInstance)
  else
    let pk := default "undefined" (primaryKeyAttribute (target this)) in
    (h ++ [CObj [(KStr pk, associatedInstance)];
           CInst (name (target this)) [(pk, associatedInstance)]],
     VRef (S (length h))).

Definition scoped_values (vps : props) : props :=
  match scope this with
  | Some sc => assign_props vps sc
  | None => vps
  end.

Definition scope_names : list string :=
  match scope this with
  | Some sc => sc.*1
  | None => []
  end.

(** The store [target.create] sees. *)
Definition create_heap (h : heap) (lv : loc) (vps ops : props) (key : value) : heap :=
  push (<[lv := CObj (dict_set (scoped_values vps) (KStr (foreignKey this)) key)]> h)
    ops (scope_names ++ [foreignKey this]).
End Runtime.

(** ** The rules as the specification words them *)

(** The foreign key name by the three rules of the specification, read in
    order: the description's [name] (or [fieldName]), else the string,
    else the derived name. [None] stands for no name at all. *)
Definition spec_foreignKey (camelize : string → error + string)
    (singularize : string → string) (o : assoc_options) (src : model)
  : option string :=
  match opt_foreignKey o with
  | FKAttr a =>
      match attr_name a with
      | Some n => Some n
      | None => attr_fieldName a
      end
  | FKName s => Some s
  | FKNone =>
      match camelize (join_ (singularize (str_or_else (opt_as o) (name src)))
                            (primaryKeyAttribute src)) with
      | inr n => Some n
      | inl _ => None
      end
  end.

Definition foreignKey_as_specified (camelize : string → error + string)
    (singularize upperFirst : string → string)
    (src tgt : model) (o : assoc_options) : Prop :=
  ∀ h, constructor camelize singularize upperFirst src tgt o = inr h →
       spec_foreignKey camelize singularize o src = Some (foreignKey h).

(** C3 as the specification words it: a [sourceKey] option that names
    no attribute of the source schema makes the declaration throw; and
    without the option no error is raised, and the source key is the
    primary key attribute of the source. *)
Definition sourceKey_as_specified (camelize : string → error + string)
    (singularize upperFirst : string → string)
    (src tgt : model) (o : assoc_options) : Prop :=
  (∀ k, opt_sourceKey o = Some k →
        dict_get (rawAttributes src) k = None →
        ∃ e, constructor camelize singularize upperFirst src tgt o = inl e)
  ∧ (opt_sourceKey o = None →
     ∃ h, constructor camelize singularize upperFirst src tgt o = inr h
          ∧ Some (sourceKey h) = primaryKeyAttribute src).



(** C5 as the specification words it, for one source record: the filter
    of the query constrains the foreign key to the source record's
    source-key value, and holds the entries of the relationship scope. *)
Definition filter_as_specified (customGetters : string → string → option (dict value → value))
    (db : Type) (engine : call → heap → db → (error + value) * heap * db)
    (this : HasOne) (w : world db) (instance options : value) : Prop :=
  ∀ key,
    instance_get customGetters false (w_heap w) instance (sourceKey this) = inr key →
    ∃ e T o W,
      w_log (get customGetters db engine this instance options w).2 = w_log w ++ [e]
      ∧ ev_call e = FindOne T o
      ∧ ev_heap e !! length (w_heap w) = Some (CObj W)
      ∧ dict_get W (KStr (foreignKey this)) = Some key
      ∧ ∀ sc k v, scope this = Some sc → dict_get sc k = Some v →
                  dict_get W (KStr k) = Some v.

(** C9 as the specification words it: the values of the call hold every
    entry of the relationship scope, the foreign key set to the source
    record's source-key value, and the caller's entries the scope does
    not override. *)
Definition created_values_as_specified
    (customGetters : string → string → option (dict value → value))
    (db : Type) (engine : call → heap → db → (error + value) * heap * db)
    (this : HasOne) (w : world db) (sourceInstance values options : value) : Prop :=
  ∀ key sc vps,
    instance_get customGetters false (w_heap w) sourceInstance (sourceKeyAttribute this)
    = inr key →
    scope this = Some sc →
    deref (w_heap w) values = Some (CObj vps) →
    ∃ lv lo hc vps',
      w_log (create customGetters db engine this sourceInstance values options w).2
      = w_log w ++ [{| ev_call := Create (VRef lv) (VRef lo); ev_heap := hc |}]
      ∧ hc !! lv = Some (CObj vps')
      ∧ (∀ a v, dict_get sc a = Some v → dict_get vps' (KStr a) = Some v)
      ∧ dict_get vps' (KStr (foreignKey this)) = Some key
      ∧ (∀ a v, dict_get vps (KStr a) = Some v → dict_get sc a = None →
                dict_get vps' (KStr a) = Some v).

(** C10 as the specification words it, for [create]: at the call the
    caller's very objects are handed over, and the caller's values hold
    the foreign key entry and every entry of the relationship scope. *)
Definition arguments_as_specified
    (customGetters : string → string → option (dict value → value))
    (db : Type) (engine : call → heap → db → (error + value) * heap * db)
    (this : HasOne) (w : world db) (sourceInstance : value) (lv lo : loc) : Prop :=
  ∀ key sc,
    instance_get customGetters false (w_heap w) sourceInstance (sourceKeyAttribute this)
    = inr key →
    scope this = Some sc →
    ∃ hc vps',
      w_log (create customGetters db engine this sourceInstance (VRef lv) (VRef lo) w).2
      = w_log w ++ [{| ev_call := Create (VRef lv) (VRef lo); ev_heap := hc |}]
      ∧ hc !! lv = Some (CObj vps')
      ∧ dict_get vps' (KStr (foreignKey this)) = Some key
      ∧ (∀ a v, dict_get sc a = Some v → dict_get vps' (KStr a) = Some v).

(** ** Examples *)

Module Examples.

Definition INTEGER : dtype := DataType "INTEGER".

Definition column (t : dtype) (allowNull : option bool) : attribute :=
  {| attr_name := None; attr_fieldName := None; attr_field := None;
     attr_type := Some t; attr_allowNull := allowNull; attr_more := [] |}.

(** [_.upperFirst] for the examples, whose names are ASCII. *)
Definition upper_ascii (c : ascii) : ascii :=
  let n := nat_of_ascii c in
  if ((97 <=? n)%nat && (n <=? 122)%nat)%bool then ascii_of_nat (n - 32) else c.

Definition upperFirst (s : string) : string :=
  match s with
  | EmptyString => EmptyString
  | String c r => String (upper_ascii c) r
  end.

(** Modelled from the spec: [Utils.camelize] (lib/utils.js),
    [str.trim().replace(/[-_\s]+(.)?/g, (match, c) => c.toUpperCase())],
    on ASCII strings. A run of separators is dropped and the character
    after it is put in upper case; when the run ends the string there is
    no such character, and [c.toUpperCase()] throws a TypeError. *)
Definition is_space (c : ascii) : bool :=
  let n := nat_of_ascii c in
  ((n =? 32)%nat || ((9 <=? n)%nat && (n <=? 13)%nat))%bool.

Definition is_separator (c : ascii) : bool :=
  let n := nat_of_ascii c in
  ((n =? 95)%nat || (n =? 45)%nat || is_space c)%bool.

Fixpoint drop_spaces (l : list ascii) : list ascii :=
  match l with
  | c :: l' => if is_space c then drop_spaces l' else l
  | [] => []
  end.

Definition trim (s : string) : string :=
  string_of_list_ascii
    (rev (drop_spaces (rev (drop_spaces (list_ascii_of_string s))))).

Fixpoint camel (up : bool) (s : string) : error + string :=
  match s with
  | EmptyString => if up then inl TypeError else inr EmptyString
  | String c r =>
      if is_separator c then camel true r
      else
        r' <-? camel false r ;;
        inr (String (if up then upper_ascii c else c) r')
  end.

Definition camelize (s : string) : error + string := camel false (trim s).

(** The example names are singular already. *)
Definition singularize (s : string) : string := s.

Definition User : model :=
  {| name := "User";
     primaryKeyAttribute := Some "id";
     primaryKeyAttributes := ["id"];
     rawAttributes := [("id", column INTEGER (Some false))];
     options_name := {| singular := "User"; plural := Some "Users" |} |}.

Definition Profile : model :=
  {| name := "Profile";
     primaryKeyAttribute := Some "id";
     primaryKeyAttributes := ["id"];
     rawAttributes := [("id", column INTEGER (Some false))];
     options_name := {| singular := "Profile"; plural := Some "Profiles" |} |}.

(** A target that declares the foreign key column itself, not nullable. *)
Definition Account : model :=
  {| name := "Account";
     primaryKeyAttribute := Some "id";
     primaryKeyAttributes := ["id"];
     rawAttributes := [("id", column INTEGER (Some false));
                       ("UserId", column INTEGER (Some false))];
     options_name := {| singular := "Account"; plural := Some "Accounts" |} |}.

Definition no_options : assoc_options :=
  {| opt_as := None; opt_foreignKey := FKNone; opt_sourceKey := None;
     opt_keyType := None; opt_constraints := VUndef; opt_onDelete := None;
     opt_onUpdate := None; opt_useHooks := VUndef; opt_scope := None;
     opt_name := None |}.

Definition with_foreignKey (fk : foreignKey_option) : assoc_options :=
  {| opt_as := None; opt_foreignKey := fk; opt_sourceKey := None;
     opt_keyType := None; opt_constraints := VUndef; opt_onDelete := None;
     opt_onUpdate := None; opt_useHooks := VUndef; opt_scope := None;
     opt_name := None |}.

Definition with_sourceKey (k : string) : assoc_options :=
  {| opt_as := None; opt_foreignKey := FKNone; opt_sourceKey := Some k;
     opt_keyType := None; opt_constraints := VUndef; opt_onDelete := None;
     opt_onUpdate := None; opt_useHooks := VUndef; opt_scope := None;
     opt_name := None |}.

Definition with_scope (sc : dict value) : assoc_options :=
  {| opt_as := None; opt_foreignKey := FKNone; opt_sourceKey := None;
     opt_keyType := None; opt_constraints := VUndef; opt_onDelete := None;
     opt_onUpdate := None; opt_useHooks := VUndef; opt_scope := Some sc;
     opt_name := None |}.

(** [foreignKey: {allowNull: false}] *)
Definition not_null : attribute :=
  {| attr_name := None; attr_fieldName := None; attr_field := None;
     attr_type := None; attr_allowNull := Some false; attr_more := [] |}.

(** [User.hasOne(target, o)]; the association of a declaration that
    fails has empty names. *)
Definition hasOne (tgt : model) (o : assoc_options) : HasOne :=
  match constructor camelize singularize upperFirst User tgt o with
  | inr h => h
  | inl _ =>
      {| source := User; target := tgt; options := o; scope := None;
         associationType := EmptyString; isSingleAssociation := true;
         foreignKeyAttribute := empty_attribute; as_ := EmptyString;
         isAliased := false; foreignKey := EmptyString;
         sourceKey := EmptyString; sourceKeyAttribute := EmptyString;
         sourceKeyField := EmptyString; sourceKeyIsPrimary := false;
         associationAccessor := EmptyString; identifierField := None;
         accessors := {| acc_get := EmptyString; acc_set := EmptyString;
                         acc_create := EmptyString |} |}
  end.

(** An engine for the examples: it answers the calls it gets with the
    answers of a list, in order, and leaves the store alone. *)
Definition scripted (c : call) (h : heap) (answers : list (error + value))
  : (error + value) * heap * list (error + value) :=
  match answers with
  | a :: answers' => (a, h, answers')
  | [] => (inr VNull, h, [])
  end.

(** Models without getters of their own. *)
Definition no_getters (m attr : string) : option (dict value → value) := None.

Definition start (h : heap) (answers : list (error + value))
  : world (list (error + value)) :=
  {| w_heap := h; w_db := answers; w_log := [] |}.

(** Two users, the array of both, and the answer of the engine to a
    find-all: the profile of the first user. *)
Definition two_users : heap :=
  [CInst "User" [("id", VNum 1)];
   CInst "User" [("id", VNum 2)];
   CArr [VRef 0; VRef 1];
   CArr [VRef 4];
   CInst "Profile" [("id", VNum 7); ("UserId", VNum 1)]].

(** A user, and options with a filter of the caller's. *)
Definition user_and_options : heap :=
  [CInst "User" [("id", VNum 1)];
   CObj [(KStr "where", VRef 2)];
   CObj [(KStr "active", VBool true)]].

(** The relationship of the scenario of the specification: the scope
    [{kind: "primary"}]. *)
Definition primary : assoc_options := with_scope [("kind", VStr "primary")].

(** A scope with an entry under the name of the foreign key. *)
Definition fixed_user : assoc_options := with_scope [("UserId", VNum 5)].

(** A user whose linked profile has the primary key 0. *)
Definition linked_zero : heap :=
  [CInst "User" [("id", VNum 1)];
   CInst "Profile" [("id", VNum 0); ("UserId", VNum 1)]].

(** A user, the profile linked to it, and another profile. *)
Definition linked_and_other : heap :=
  [CInst "User" [("id", VNum 1)];
   CInst "Profile" [("id", VNum 7); ("UserId", VNum 1)];
   CInst "Profile" [("id", VNum 8); ("UserId", VNull)]].

(** A user, and options that ask for a scope of the target. *)
Definition user_and_scope : heap :=
  [CInst "User" [("id", VNum 1)];
   CObj [(KStr "scope", VStr "admins")]].

(** A user, values [{city: "X"}] and options [{fields: ["city"]}]. *)
Definition user_and_values : heap :=
  [CInst "User" [("id", VNum 1)];
   CObj [(KStr "city", VStr "X")];
   CObj [(KStr "fields", VRef 3)];
   CArr [VStr "city"]].


(** [as: a] *)
Definition with_alias (a : string) : assoc_options :=
  {| opt_as := Some a; opt_foreignKey := FKNone; opt_sourceKey := None;
     opt_keyType := None; opt_constraints := VUndef; opt_onDelete := None;
     opt_onUpdate := None; opt_useHooks := VUndef; opt_scope := None;
     opt_name := None |}.

(** [onDelete: d] *)
Definition with_onDelete (d : string) : assoc_options :=
  {| opt_as := None; opt_foreignKey := FKNone; opt_sourceKey := None;
     opt_keyType := None; opt_constraints := VUndef; opt_onDelete := Some d;
     opt_onUpdate := None; opt_useHooks := VUndef; opt_scope := None;
     opt_name := None |}.

(** A model whose primary key was removed. *)
Definition Log : model :=
  {| name := "Log";
     primaryKeyAttribute := None;
     primaryKeyAttributes := [];
     rawAttributes := [("text", column (DataType "STRING") None)];
     options_name := {| singular := "Log"; plural := Some "Logs" |} |}.

(** A user, the array of it, and an answer of the engine with two
    profiles of that user. *)
Definition one_user_two_profiles : heap :=
  [CInst "User" [("id", VNum 1)];
   CArr [VRef 0];
   CArr [VRef 3; VRef 4];
   CInst "Profile" [("id", VNum 7); ("UserId", VNum 1)];
   CInst "Profile" [("id", VNum 8); ("UserId", VNum 1)]].

(** No source record: an empty array, and an empty answer. *)
Definition no_users : heap := [CArr []; CArr []].

(** A user, empty values, and options whose field list is a string. *)
Definition user_and_field_name : heap :=
  [CInst "User" [("id", VNum 1)];
   CObj [];
   CObj [(KStr "fields", VStr "city")]].

(** For the examples, the helpers [_injectAttributes] calls, modelled
    from the spec on what [HasOne] hands them:
    [Helpers.addForeignKeyConstraints] copies the referential actions
    onto the attribute; [_.merge] puts the defined properties of the new
    attribute over those of the attribute the target has, if it has
    one; [Model.refreshAttributes] gives every attribute its name as
    [fieldName] and as [field] when it has none;
    [Helpers.checkNamingCollision] throws when the source has an
    attribute named like the association. *)
Definition action (a : option string) : value :=
  match a with Some s => VStr s | None => VUndef end.

Definition addForeignKeyConstraints (new : attribute) (src tgt : model)
    (o : assoc_options) (key : string) : error + attribute :=
  if (str_truthy (opt_onDelete o) || str_truthy (opt_onUpdate o))%bool then
    inr {| attr_name := attr_name new; attr_fieldName := attr_fieldName new;
           attr_field := attr_field new; attr_type := attr_type new;
           attr_allowNull := attr_allowNull new;
           attr_more := dict_set (dict_set (attr_more new) "onDelete"
                                    (action (opt_onDelete o)))
                          "onUpdate" (action (opt_onUpdate o)) |}
  else inr new.

Definition over {A} (new old : option A) : option A :=
  match new with Some x => Some x | None => old end.

Definition merge_attribute (old new : attribute) : attribute :=
  {| attr_name := over (attr_name new) (attr_name old);
     attr_fieldName := over (attr_fieldName new) (attr_fieldName old);
     attr_field := over (attr_field new) (attr_field old);
     attr_type := over (attr_type new) (attr_type old);
     attr_allowNull := over (attr_allowNull new) (attr_allowNull old);
     attr_more := assign_dict (attr_more old) (attr_more new) |}.

Definition merge (d new : dict attribute) : dict attribute :=
  foldl (λ acc p, dict_set acc p.1
                    (match dict_get acc p.1 with
                     | Some old => merge_attribute old p.2
                     | None => p.2
                     end)) d new.

Definition refreshed (n : string) (a : attribute) : attribute :=
  {| attr_name := attr_name a; attr_fieldName := Some n;
     attr_field := Some (default n (attr_field a)); attr_type := attr_type a;
     attr_allowNull := attr_allowNull a; attr_more := attr_more a |}.

Definition refreshAttributes (m : model) : error + model :=
  inr (with_rawAttributes m ((λ p, (p.1, refreshed p.1 p.2)) <$> rawAttributes m)).

Definition checkNamingCollision (a : HasOne) : error + unit :=
  if has_own (rawAttributes (source a)) (as_ a)
  then inl (Error ("Naming collision between attribute '" +:+ as_ a
                   +:+ "' and association '" +:+ as_ a +:+ "' on model "
                   +:+ name (source a)))
  else inr tt.

Definition inject : HasOne → error + HasOne :=
  _injectAttributes addForeignKeyConstraints merge refreshAttributes
    checkNamingCollision.

Example hasOne_Profile :
  constructor camelize singularize upperFirst User Profile no_options
  = inr (hasOne Profile no_options)
  ∧ foreignKey (hasOne Profile no_options) = "UserId"
  ∧ sourceKey (hasOne Profile no_options) = "id"
  ∧ acc_get (accessors (hasOne Profile no_options)) = "getProfile".
Proof. repeat split. Qed.

End Examples.

(** ** Declaration time: key resolution *)

Lemma str_truthy_Some s : str_truthy (Some s) = true ↔ s ≠ "".
Proof.
  unfold str_truthy. destruct (String.eqb_spec s "") as [->|Hs]; simpl.
  - split; [discriminate | congruence].
  - split; [done | done].
Qed.

Lemma str_truthy_false o : str_truthy o = false ↔ o = None ∨ o = Some "".
Proof.
  destruct o as [s|]; simpl.
  - destruct (String.eqb_spec s "") as [->|Hs]; simpl.
    + split; [by right | done].
    + split; [discriminate | intros [?|?]; congruence].
  - split; [by left | done].
Qed.

Lemma str_or_else_falsy o b : str_truthy o = false → str_or_else o b = b.
Proof.
  intros [->| ->]%str_truthy_false; reflexivity.
Qed.

Lemma str_or_else_truthy s b : str_truthy (Some s) = true → str_or_else (Some s) b = s.
Proof. simpl. by destruct (String.eqb s ""). Qed.

Lemma str_or_else_set o b :
  str_truthy (Some (str_or_else o b)) = true ∨ (str_truthy o = false ∧ b = "").
Proof.
  destruct o as [s|]; simpl.
  - destruct (String.eqb_spec s "") as [->|Hs]; simpl.
    + destruct (String.eqb_spec b "") as [->|Hb]; [by right | by left].
    + left. by destruct (String.eqb_spec s "").
  - destruct (String.eqb_spec b "") as [->|Hb]; [by right | by left].
Qed.




Section DeclarationFacts.

Variable camelize : string → error + string.
Variable singularize : string → string.
Variable upperFirst : string → string.

Local Abbreviation constructor := (constructor camelize singularize upperFirst).
Local Abbreviation resolve_foreignKey := (resolve_foreignKey camelize singularize).

(** What a successful declaration has read. *)
Lemma constructor_inr src tgt o h :
  constructor src tgt o = inr h →
  ∃ sk m,
    resolve_foreignKey o src = inr (foreignKey h)
    ∧ str_or (opt_sourceKey o) (primaryKeyAttribute src) = Some sk
    ∧ raw_attribute (rawAttributes src) sk = Some m
    ∧ sourceKey h = sk ∧ sourceKeyAttribute h = sk
    ∧ sourceKeyIsPrimary h = bool_decide (Some sk = primaryKeyAttribute src)
    ∧ sourceKeyField h = str_or_else (member_field m) sk
    ∧ source h = src ∧ target h = tgt
    ∧ opt_keyType (options h) = opt_keyType o
    ∧ foreignKeyAttribute h
      = match opt_foreignKey o with FKAttr d => d | _ => empty_attribute end.
Proof.
  unfold constructor. intros H.
  destruct (resolve_foreignKey o src) as [e|fk]; [discriminate|]. simpl in H.
  destruct (_ && _)%bool; [discriminate|].
  destruct (str_or _ _) as [sk|].
  - destruct (raw_attribute _ sk) as [m|] eqn:Em; [|discriminate].
    injection H as <-. by exists sk, m.
  - by destruct (raw_attribute _ "undefined").
Qed.

(** A declaration whose foreign key name resolves and whose source key
    is readable in the source schema succeeds. *)
Lemma constructor_ok src tgt o fk sk m :
  resolve_foreignKey o src = inr fk →
  str_or (opt_sourceKey o) (primaryKeyAttribute src) = Some sk →
  raw_attribute (rawAttributes src) sk = Some m →
  ∃ h, constructor src tgt o = inr h
       ∧ foreignKey h = fk ∧ sourceKey h = sk ∧ sourceKeyAttribute h = sk
       ∧ sourceKeyIsPrimary h = bool_decide (Some sk = primaryKeyAttribute src).
Proof.
  intros Hfk Hsk Hm. unfold constructor. rewrite Hfk. simpl.
  assert ((str_truthy (opt_sourceKey o)
           && negb (bool_decide
                      (is_Some (raw_attribute (rawAttributes src)
                                  (default "" (opt_sourceKey o))))))%bool
          = false) as ->.
  { unfold str_or in Hsk. destruct (str_truthy (opt_sourceKey o)); [|done].
    rewrite Hsk. simpl. rewrite bool_decide_eq_true_2; [done | by rewrite Hm]. }
  rewrite Hsk, Hm. by eexists.
Qed.

(** C2, as amended. The foreign key name is the description's [name]
    when the description has a non-empty one, else its non-empty
    [fieldName]; else the non-empty string given as the option; in
    every other case, a description without a name included, it is
    camelize(singularize(alias or source name) + "_" + source primary
    key). *)
Theorem foreignKey_rules src tgt o h :
  constructor src tgt o = inr h →
  (∀ a n, opt_foreignKey o = FKAttr a → attr_name a = Some n → n ≠ "" →
          foreignKey h = n)
  ∧ (∀ a f, opt_foreignKey o = FKAttr a → str_truthy (attr_name a) = false →
            attr_fieldName a = Some f → f ≠ "" → foreignKey h = f)
  ∧ (∀ s, opt_foreignKey o = FKName s → s ≠ "" → foreignKey h = s)
  ∧ (no_explicit_name o →
     camelize (singularize (str_or_else (opt_as o) (name src))
               +:+ "_" +:+ default "" (primaryKeyAttribute src))
     = inr (foreignKey h)).
Proof.
  intros H. destruct (constructor_inr _ _ _ _ H) as (sk & m & Hfk & _).
  revert Hfk.
  unfold resolve_foreignKey, explicit_foreignKey, no_explicit_name, derived_foreignKey.
  intros Hfk. repeat split.
  - intros a n Ha Hn Hne. rewrite Ha in Hfk. unfold str_or in Hfk. rewrite Hn in Hfk.
    apply str_truthy_Some in Hne. rewrite !Hne in Hfk. simpl in Hfk. congruence.
  - intros a f Ha Hn Hf Hne. rewrite Ha in Hfk. unfold str_or in Hfk.
    rewrite Hn, Hf in Hfk.
    apply str_truthy_Some in Hne. rewrite !Hne in Hfk. simpl in Hfk. congruence.
  - intros s Hs Hne. rewrite Hs in Hfk.
    apply str_truthy_Some in Hne. rewrite !Hne in Hfk. simpl in Hfk. congruence.
  - destruct (opt_foreignKey o) as [|s|a].
    + done.
    + by intros ->.
    + intros [Hn Hf]. unfold str_or in Hfk. by rewrite Hn, Hf in Hfk.
Qed.


(** X1. The three accessor names are [get], [set] and [create] followed
    by [_.upperFirst] of the association's name, and that name is the
    alias when one is given and the singular name of the target
    otherwise; with an alias the association is marked aliased and its
    [options.name] holds the alias alone, without it [options.name] is
    the target's. *)
Theorem accessors_follow_alias src tgt o h :
  constructor src tgt o = inr h →
  as_ h = str_or_else (opt_as o) (singular (options_name tgt))
  ∧ associationAccessor h = as_ h
  ∧ (str_truthy (opt_as o) = true →
     isAliased h = true
     ∧ opt_name (options h) = Some {| singular := as_ h; plural := None |})
  ∧ (str_truthy (opt_as o) = false →
     opt_name (options h) = Some (options_name tgt))
  ∧ accessors h = {| acc_get := "get" +:+ upperFirst (as_ h);
                     acc_set := "set" +:+ upperFirst (as_ h);
                     acc_create := "create" +:+ upperFirst (as_ h) |}.
Proof.
  unfold constructor. intros H.
  destruct (resolve_foreignKey o src) as [e|fk]; [discriminate|]. simpl in H.
  destruct (_ && _)%bool; [discriminate|].
  destruct (str_or _ _) as [sk|]; [|by destruct (raw_attribute _ "undefined")].
  destruct (raw_attribute _ sk) as [m|]; [|discriminate].
  injection H as <-. cbn.
  split; [done|]. split; [done|].
  destruct (str_truthy (opt_as o)) eqn:Ea; cbn.
  - by repeat split.
  - rewrite (str_or_else_falsy _ _ Ea). by repeat split.
Qed.

(** X2. The declaration succeeds exactly when the foreign key name
    resolves - it is given, or [camelize] returns the derived one - and
    [rawAttributes] of the source gives a value for the source key, the
    [sourceKey] option when it is a non-empty string and the primary key
    attribute of the source otherwise. What [camelize] throws at line 43
    is what the declaration throws. With the foreign key name resolved
    and no usable [sourceKey], a source whose primary key attribute is
    missing from [rawAttributes], or which has none, makes line 59 throw
    a TypeError; and when the declaration succeeds the source key is
    the primary key attribute. *)
Theorem declaration_succeeds_iff src tgt o :
  ((∃ h, constructor src tgt o = inr h)
   ↔ (∃ fk, resolve_foreignKey o src = inr fk)
     ∧ ∃ sk, str_or (opt_sourceKey o) (primaryKeyAttribute src) = Some sk
             ∧ is_Some (raw_attribute (rawAttributes src) sk))
  ∧ (∀ e, resolve_foreignKey o src = inl e → constructor src tgt o = inl e)
  ∧ (∀ fk, resolve_foreignKey o src = inr fk →
           str_truthy (opt_sourceKey o) = false →
           match primaryKeyAttribute src with
           | Some pk => raw_attribute (rawAttributes src) pk = None
           | None => raw_attribute (rawAttributes src) "undefined" = None
           end →
           constructor src tgt o = inl TypeError)
  ∧ (∀ h, constructor src tgt o = inr h →
          str_truthy (opt_sourceKey o) = false →
          primaryKeyAttribute src = Some (sourceKey h)
          ∧ sourceKeyIsPrimary h = true).
Proof.
  split; [split|split; [|split]].
  - intros [h H]. apply constructor_inr in H as (sk & m & Hfk & Hsk & Hm & _).
    split; [by eexists|]. exists sk. split; [done | by exists m].
  - intros [[fk Hfk] (sk & Hsk & [m Hm])].
    destruct (constructor_ok src tgt o fk sk m Hfk Hsk Hm) as (h & Hh & _).
    by exists h.
  - intros e He. unfold constructor. by rewrite He.
  - intros fk Hfk Hs Hpk. unfold constructor, str_or. rewrite Hfk, Hs. simpl.
    destruct (primaryKeyAttribute src) as [pk|]; by rewrite Hpk.
  - intros h H Hs. apply constructor_inr in H as (sk & m & _ & Hsk & _ & <- & _ & -> & _).
    unfold str_or in Hsk. rewrite Hs in Hsk. split; [done|].
    by apply bool_decide_eq_true_2.
Qed.

(** X3. On an association the constructor has returned, line 84 of
    [_injectAttributes] does not throw: the source key is readable in
    the source schema. The attribute handed to the helpers has the type
    of the [foreignKey] description when that has one, else the
    [keyType] option, else the type of the source key attribute. And
    whenever the helpers return and the refreshed target has the
    foreign key attribute, injection returns the association with that
    target, with [identifierField] the [field] of that attribute or,
    when it has none, the foreign key name. *)
Theorem injection_after_declaration src tgt o h :
  constructor src tgt o = inr h →
  ∃ ty m,
    raw_attribute (rawAttributes src) (sourceKey h) = Some m
    ∧ key_type h = inr ty
    ∧ ty = match opt_keyType o with Some t => Some t | None => member_type m end
    ∧ attr_type (new_foreignKey_attribute h ty)
      = match attr_type (foreignKeyAttribute h) with
        | Some t => Some t
        | None => ty
        end
    ∧ ∀ addForeignKeyConstraints merge refreshAttributes checkNamingCollision
        new' tgt' m',
        let new := new_foreignKey_attribute h ty in
        let o' := referential_actions h new in
        addForeignKeyConstraints new src tgt o' (sourceKeyField h) = inr new' →
        refreshAttributes
          (with_rawAttributes tgt (merge (rawAttributes tgt) [(foreignKey h, new')]))
        = inr tgt' →
        raw_attribute (rawAttributes tgt') (foreignKey h) = Some m' →
        checkNamingCollision (injected h o' tgt' m') = inr tt →
        ∃ h',
          _injectAttributes addForeignKeyConstraints merge refreshAttributes
            checkNamingCollision h = inr h'
          ∧ target h' = tgt'
          ∧ identifierField h' = Some (str_or_else (member_field m') (foreignKey h))
          ∧ foreignKey h' = foreignKey h
          ∧ sourceKey h' = sourceKey h.
Proof.
  intros H.
  destruct (constructor_inr _ _ _ _ H)
    as (sk & m & _ & _ & Hm & Hs & _ & _ & _ & Hsrc & Htgt & Hkt & _).
  exists (match opt_keyType o with Some t => Some t | None => member_type m end), m.
  split; [by rewrite Hs|]. split.
  { unfold key_type. rewrite Hkt, Hsrc, Hs, Hm. by destruct (opt_keyType o). }
  split; [done|]. split; [done|].
  intros addFK merge refresh check new' tgt' m' new o' Hadd Href Hm' Hcheck.
  exists (injected h o' tgt' m'). split; [|by repeat split].
  subst new o' src tgt.
  unfold _injectAttributes, key_type. rewrite Hkt, Hs, Hm.
  assert (match opt_keyType o with
          | Some t => inr (Some t)
          | None => inr (member_type m)
          end
          = (inr (match opt_keyType o with
                  | Some t => Some t
                  | None => member_type m
                  end) : error + option dtype)) as ->
    by by destruct (opt_keyType o).
  simpl. rewrite Hadd. simpl. rewrite Href. simpl. rewrite Hm'. by rewrite Hcheck.
Qed.

End DeclarationFacts.

(** ** Declaration time: attribute injection *)


(** Once both actions are set, lines 88-92 leave the options as they
    are, whatever the association they are the options of. *)
Lemma referential_actions_stable this new that new' :
  opt_constraints (options this) ≠ VBool false →
  options that = referential_actions this new →
  referential_actions that new' = options that.
Proof.
  intros Hc Ho.
  assert (referential_actions this new
          = set_options_actions (options this)
              (Some (str_or_else (opt_onDelete (options this))
                       (if match raw_attribute (rawAttributes (target this))
                                   (foreignKey this) with
                           | Some target => member_allowNull target
                           | None => allowNull_truthy new
                           end
                        then "SET NULL" else "CASCADE")))
              (Some (str_or_else (opt_onUpdate (options this)) "CASCADE")))
    as Hra.
  { unfold referential_actions, strict_eq. by rewrite bool_decide_eq_false_2. }
  rewrite Hra in Ho. unfold referential_actions. rewrite Ho. cbn.
  unfold strict_eq. rewrite bool_decide_eq_false_2 by done. cbn.
  unfold set_options_actions. cbn. f_equal.
  - f_equal. apply str_or_else_truthy.
    destruct (str_or_else_set (opt_onDelete (options this))
                (if match raw_attribute (rawAttributes (target this))
                            (foreignKey this) with
                    | Some target => member_allowNull target
                    | None => allowNull_truthy new
                    end
                 then "SET NULL" else "CASCADE")) as [Ht|[_ Hb]]; [done|].
    by destruct (match raw_attribute _ _ with Some _ => _ | None => _ end).
  - f_equal. apply str_or_else_truthy.
    by destruct (str_or_else_set (opt_onUpdate (options this)) "CASCADE")
      as [Ht|[_ Hb]].
Qed.

Section InjectionFacts.

Variable addForeignKeyConstraints :
  attribute → model → model → assoc_options → string → error + attribute.
Variable merge : dict attribute → dict attribute → dict attribute.
Variable refreshAttributes : model → error + model.
Variable checkNamingCollision : HasOne → error + unit.

Local Abbreviation _injectAttributes :=
  (_injectAttributes addForeignKeyConstraints merge refreshAttributes
     checkNamingCollision).

(** What a returned injection has gone through. *)
Lemma injectAttributes_inr this this' :
  _injectAttributes this = inr this' →
  ∃ ty new' tgt' m,
    let new := new_foreignKey_attribute this ty in
    let o' := referential_actions this new in
    key_type this = inr ty
    ∧ addForeignKeyConstraints new (source this) (target this) o'
        (sourceKeyField this) = inr new'
    ∧ refreshAttributes
        (with_rawAttributes (target this)
           (merge (rawAttributes (target this)) [(foreignKey this, new')]))
      = inr tgt'
    ∧ raw_attribute (rawAttributes tgt') (foreignKey this) = Some m
    ∧ checkNamingCollision (injected this o' tgt' m) = inr tt
    ∧ this' = injected this o' tgt' m.
Proof.
  unfold _injectAttributes. intros H.
  destruct (key_type this) as [e|ty]; [discriminate|]. simpl in H.
  destruct (addForeignKeyConstraints _ _ _ _ _) as [e|new'] eqn:Ea; [discriminate|].
  simpl in H.
  destruct (refreshAttributes _) as [e|tgt'] eqn:Er; [discriminate|]. simpl in H.
  destruct (raw_attribute _ _) as [m|] eqn:Em; [|discriminate].
  destruct (checkNamingCollision _) as [e|[]] eqn:Ec; [discriminate|].
  injection H as <-. by exists ty, new', tgt', m.
Qed.


(** X4. Injection never replaces a referential action the options
    already carry, and with [constraints: false] it leaves the options
    as they are. With constraints enabled both actions are set when it
    returns, so that an injection into an association with these
    options, whatever its target has become, returns with the same
    options. The names of the keys are not changed. *)
Theorem injection_keeps_actions this this' :
  _injectAttributes this = inr this' →
  (∀ d, opt_onDelete (options this) = Some d → d ≠ "" →
        opt_onDelete (options this') = Some d)
  ∧ (∀ u, opt_onUpdate (options this) = Some u → u ≠ "" →
          opt_onUpdate (options this') = Some u)
  ∧ (opt_constraints (options this) = VBool false → options this' = options this)
  ∧ (opt_constraints (options this) ≠ VBool false →
     str_truthy (opt_onDelete (options this')) = true
     ∧ str_truthy (opt_onUpdate (options this')) = true)
  ∧ (∀ that that', options that = options this' →
                   _injectAttributes that = inr that' →
                   options that' = options this')
  ∧ foreignKey this' = foreignKey this
  ∧ sourceKey this' = sourceKey this.
Proof.
  intros H. apply injectAttributes_inr in H
    as (ty & new' & tgt' & m & _ & _ & _ & _ & _ & ->). cbn.
  set (new := new_foreignKey_attribute this ty).
  destruct (decide (opt_constraints (options this) = VBool false)) as [Hc|Hc].
  - assert (referential_actions this new = options this) as Ho.
    { unfold referential_actions, strict_eq.
      by rewrite bool_decide_eq_true_2. }
    rewrite Ho. split; [done|]. split; [done|]. split; [done|].
    split; [done|]. split; [|done].
    intros that that' Hto Hthat. apply injectAttributes_inr in Hthat
      as (ty2 & _ & tgt2 & m2 & _ & _ & _ & _ & _ & ->). cbn.
    unfold referential_actions, strict_eq. rewrite Hto, Hc.
    by rewrite bool_decide_eq_true_2.
  - assert (opt_onDelete (referential_actions this new)
            = Some (str_or_else (opt_onDelete (options this))
                      (if match raw_attribute (rawAttributes (target this))
                                  (foreignKey this) with
                          | Some target => member_allowNull target
                          | None => allowNull_truthy new
                          end
                       then "SET NULL" else "CASCADE"))
            ∧ opt_onUpdate (referential_actions this new)
              = Some (str_or_else (opt_onUpdate (options this)) "CASCADE"))
      as [Hd Hu].
    { unfold referential_actions, strict_eq.
      by rewrite bool_decide_eq_false_2. }
    rewrite Hd, Hu.
    split; [|split; [|split; [|split; [|split]]]]; try done.
    + intros d -> Hne. f_equal. apply str_or_else_truthy. by apply str_truthy_Some.
    + intros u -> Hne. f_equal. apply str_or_else_truthy. by apply str_truthy_Some.
    + intros _. split.
      * destruct (str_or_else_set (opt_onDelete (options this))
                    (if match raw_attribute (rawAttributes (target this))
                                (foreignKey this) with
                        | Some target => member_allowNull target
                        | None => allowNull_truthy new
                        end
                     then "SET NULL" else "CASCADE")) as [Ht|[_ Hb]]; [done|].
        by destruct (match raw_attribute _ _ with Some _ => _ | None => _ end).
      * by destruct (str_or_else_set (opt_onUpdate (options this)) "CASCADE")
          as [Ht|[_ Hb]].
    + intros that that' Hto Hthat. apply injectAttributes_inr in Hthat
        as (ty2 & _ & tgt2 & m2 & _ & _ & _ & _ & _ & ->). cbn.
      rewrite (referential_actions_stable this new that _ Hc Hto). done.
Qed.

End InjectionFacts.

(** ** Declaration time: concrete declarations *)

Section DeclarationExamples.
Import Examples.

Local Abbreviation constructor := (constructor camelize singularize upperFirst).

(** [User.hasOne(Profile, {foreignKey: {allowNull: false}})]: the
    description has no name, and the derived name is used. *)
Lemma foreignKey_rules_witness :
  constructor User Profile (with_foreignKey (FKAttr not_null))
  = inr (hasOne Profile (with_foreignKey (FKAttr not_null)))
  ∧ no_explicit_name (with_foreignKey (FKAttr not_null))
  ∧ foreignKey (hasOne Profile (with_foreignKey (FKAttr not_null))) = "UserId".
Proof.
  split; [reflexivity|]. split; [by split|].
  destruct (foreignKey_rules camelize singularize upperFirst User Profile
              (with_foreignKey (FKAttr not_null))
              (hasOne Profile (with_foreignKey (FKAttr not_null))) eq_refl)
    as (_ & _ & _ & H).
  assert (no_explicit_name (with_foreignKey (FKAttr not_null))) as Hn by by split.
  specialize (H Hn).
  enough (inr (foreignKey (hasOne Profile (with_foreignKey (FKAttr not_null))))
          = (inr "UserId" : error + string)) as Heq
    by exact (f_equal (λ r, match r with inr x => x | inl _ => EmptyString end) Heq).
  rewrite <-H. reflexivity.
Defined.

(** C2 fails as stated: for a description without a name the first rule
    of the specification gives no name, and the code derives one. *)
Lemma foreignKey_description_without_name :
  ¬ foreignKey_as_specified camelize singularize upperFirst User Profile
      (with_foreignKey (FKAttr not_null)).
Proof.
  intros H.
  specialize (H (hasOne Profile (with_foreignKey (FKAttr not_null))) eq_refl).
  discriminate H.
Qed.



(** The second half of C3 fails as well: [Log] has no primary key
    attribute, and [Log.hasOne(Profile, {foreignKey: 'logId'})],
    declared without a [sourceKey], throws at line 59. *)
Example sourceKey_without_primary_key :
  ¬ sourceKey_as_specified camelize singularize upperFirst Log Profile
      (with_foreignKey (FKName "logId")).
Proof.
  intros [_ H]. destruct (H eq_refl) as (h & Hh & _). discriminate Hh.
Qed.

(** [Log.hasOne(Profile)]: the derived name would be
    [camelize('Log_')], which throws. *)
Example camelize_trailing_separator :
  camelize "Log_" = inl TypeError
  ∧ constructor Log Profile no_options = inl TypeError
  ∧ constructor Log Profile (with_sourceKey "text") = inl TypeError.
Proof. by repeat split. Qed.



(** [User.hasOne(Profile, {as: 'bio'})]: [getBio], [setBio],
    [createBio]. *)
Lemma accessors_follow_alias_witness :
  constructor User Profile (with_alias "bio")
  = inr (hasOne Profile (with_alias "bio"))
  ∧ accessors (hasOne Profile (with_alias "bio"))
    = {| acc_get := "getBio"; acc_set := "setBio"; acc_create := "createBio" |}
  ∧ isAliased (hasOne Profile (with_alias "bio")) = true.
Proof.
  split; [reflexivity|].
  destruct (accessors_follow_alias camelize singularize upperFirst User Profile
              (with_alias "bio") (hasOne Profile (with_alias "bio")) eq_refl)
    as (Has & _ & Hal & _ & Hacc).
  split; [by rewrite Hacc, Has | by apply Hal].
Defined.

(** [User.hasOne(Profile)]: the column added to [Profile] has the type
    of [User.id], and the identifier field is [UserId]. *)
Lemma injection_after_declaration_witness :
  ∃ h',
    inject (hasOne Profile no_options) = inr h'
    ∧ identifierField h' = Some "UserId"
    ∧ attr_type (new_foreignKey_attribute (hasOne Profile no_options) (Some INTEGER))
      = Some INTEGER.
Proof.
  destruct (injection_after_declaration camelize singularize upperFirst
              User Profile no_options (hasOne Profile no_options) eq_refl)
    as (ty & m & Hm & Hty & -> & Hnew & H).
  vm_compute in Hm. injection Hm as <-.
  destruct (H addForeignKeyConstraints merge refreshAttributes
              checkNamingCollision _ _ _ eq_refl eq_refl eq_refl eq_refl)
    as (h' & Hh & _ & Hid & _).
  exists h'. split; [exact Hh|]. split; [exact Hid | exact Hnew].
Defined.

(** [User.hasOne(Account, {onDelete: 'RESTRICT'})]: the action given
    is kept, though [Account.UserId] has [allowNull: false]. *)
Lemma injection_keeps_actions_witness :
  ∃ this',
    inject (hasOne Account (with_onDelete "RESTRICT")) = inr this'
    ∧ opt_onDelete (options this') = Some "RESTRICT"
    ∧ str_truthy (opt_onUpdate (options this')) = true
    ∧ ∃ that', inject this' = inr that' ∧ options that' = options this'.
Proof.
  eexists. split; [reflexivity|].
  destruct (injection_keeps_actions addForeignKeyConstraints merge
              refreshAttributes checkNamingCollision
              (hasOne Account (with_onDelete "RESTRICT")) _ eq_refl)
    as (Hd & _ & _ & Ht & Hre & _).
  split; [by apply Hd|]. split; [by apply Ht|].
  eexists. split; [reflexivity|]. by apply (Hre _ _ eq_refl eq_refl).
Defined.

End DeclarationExamples.

(** ** The store: dictionaries and allocation *)

Section DictFacts.
Context {K A : Type} `{EqDecision K}.
Implicit Types (d : list (K * A)) (k : K) (v : A).

Lemma dict_get_None d k : dict_get d k = None ↔ k ∉ d.*1.
Proof.
  induction d as [|[k' v'] d IH]; simpl.
  - split; [intros _; apply not_elem_of_nil | done].
  - rewrite not_elem_of_cons. destruct (decide (k' = k)) as [->|Hne].
    + split; [done | intros [? _]; done].
    + rewrite IH. split; [intros ?; split; [congruence | done] | by intros [_ ?]].
Qed.

Lemma dict_get_set_eq d k v : dict_get (dict_set d k v) k = Some v.
Proof.
  induction d as [|[k' v'] d IH]; simpl.
  - by rewrite decide_True.
  - destruct (decide (k' = k)) as [->|Hne]; simpl.
    + by rewrite decide_True.
    + by rewrite decide_False.
Qed.

Lemma dict_get_set_ne d k k' v : k ≠ k' → dict_get (dict_set d k v) k' = dict_get d k'.
Proof.
  intros Hne. induction d as [|[k0 v0] d IH]; simpl.
  - by rewrite decide_False.
  - destruct (decide (k0 = k)) as [->|Hne0]; simpl.
    + by rewrite !decide_False.
    + destruct (decide (k0 = k')); [done | apply IH].
Qed.

Lemma dict_get_set d k k' v :
  dict_get (dict_set d k v) k' = if decide (k = k') then Some v else dict_get d k'.
Proof.
  destruct (decide (k = k')) as [->|Hne];
    [apply dict_get_set_eq | by apply dict_get_set_ne].
Qed.


End DictFacts.

Lemma deref_app_l h ext v c : deref h v = Some c → deref (h ++ ext) v = Some c.
Proof.
  destruct v; simpl; try discriminate. apply lookup_app_l_Some.
Qed.

Lemma deref_prefix h h' v c : h `prefix_of` h' → deref h v = Some c → deref h' v = Some c.
Proof. intros [ext ->]. apply deref_app_l. Qed.

Lemma deref_not_ref h v : is_ref v = false → deref h v = None.
Proof. by destruct v. Qed.

Lemma deref_new h c ext : deref (h ++ c :: ext) (VRef (length h)) = Some c.
Proof. by apply list_lookup_middle. Qed.

(** ** The deep clone *)

Section CloneFacts.
Variable f : heap → value → heap * value.
Hypothesis f_grows : ∀ h v h' v', f h v = (h', v') → h `prefix_of` h'.

Lemma clone_props_grows ps : ∀ h h' ps',
  clone_props f h ps = (h', ps') → h `prefix_of` h'.
Proof.
  induction ps as [|[k v] ps IH]; simpl; intros h h' ps' H.
  - by injection H as <- _.
  - destruct (f h v) as [h1 v1] eqn:E1.
    destruct (clone_props f h1 ps) as [h2 ps2] eqn:E2.
    injection H as <- _. etrans; [by eapply f_grows | by eapply IH].
Qed.

Lemma clone_list_grows vs : ∀ h h' vs',
  clone_list f h vs = (h', vs') → h `prefix_of` h'.
Proof.
  induction vs as [|v vs IH]; simpl; intros h h' vs' H.
  - by injection H as <- _.
  - destruct (f h v) as [h1 v1] eqn:E1.
    destruct (clone_list f h1 vs) as [h2 vs2] eqn:E2.
    injection H as <- _. etrans; [by eapply f_grows | by eapply IH].
Qed.

End CloneFacts.

Lemma alloc_grows h c h' v : alloc h c = (h', v) → h `prefix_of` h'.
Proof. unfold alloc. intros [= <- _]. by apply prefix_app_r. Qed.

Lemma clone_value_scalar fuel h v : is_ref v = false → clone_value fuel h v = (h, v).
Proof.
  intros Hv. destruct fuel; simpl; [done|]. by rewrite deref_not_ref.
Qed.

Lemma clone_value_grows fuel : ∀ h v h' v',
  clone_value fuel h v = (h', v') → h `prefix_of` h'.
Proof.
  induction fuel as [|n IH]; simpl; intros h v h' v' H.
  - by injection H as <- _.
  - destruct (deref h v) as [[ps|vs|m dv]|].
    + destruct (clone_props (clone_value n) h ps) as [h1 ps1] eqn:E.
      apply clone_props_grows in E; [|done].
      etrans; [exact E | by eapply alloc_grows].
    + destruct (clone_list (clone_value n) h vs) as [h1 vs1] eqn:E.
      apply clone_list_grows in E; [|done].
      etrans; [exact E | by eapply alloc_grows].
    + by injection H as <- _.
    + by injection H as <- _.
Qed.

Lemma clone_of_scalar v v' : is_ref v = false → clone_of v v' → v' = v.
Proof.
  intros Hv (fuel & h & h' & H). rewrite clone_value_scalar in H by done.
  by injection H as _ <-.
Qed.

Lemma clone_of_refl v : clone_of v v.
Proof. by exists 0, [], []. Qed.

Lemma clone_of_is_ref v v' : clone_of v v' → is_ref v' = is_ref v.
Proof.
  intros (fuel & h & h' & H). destruct fuel; simpl in H.
  - by injection H as _ <-.
  - destruct v; simpl in H; try (by injection H as _ <-).
    destruct (h !! l) as [[ps|vs|m dv]|]; try (by injection H as _ <-).
    + destruct (clone_props _ _ _). by injection H as _ <-.
    + destruct (clone_list _ _ _). by injection H as _ <-.
Qed.

Lemma clone_of_truthy v v' : clone_of v v' → truthy v' = truthy v.
Proof.
  intros H. destruct (is_ref v) eqn:E.
  - pose proof (clone_of_is_ref _ _ H) as E'. rewrite E in E'.
    by destruct v, v'.
  - by rewrite (clone_of_scalar _ _ E H).
Qed.

Lemma props_cloned_prop ps ps' k : props_cloned ps ps' → clone_of (prop ps k) (prop ps' k).
Proof.
  intros H. specialize (H k). unfold prop.
  destruct (dict_get ps k), (dict_get ps' k); try done. apply clone_of_refl.
Qed.

Lemma props_cloned_nil : props_cloned [] [].
Proof. by intros k. Qed.

Lemma clone_props_cloned fuel ps : ∀ h h' ps',
  clone_props (clone_value fuel) h ps = (h', ps') → props_cloned ps ps'.
Proof.
  induction ps as [|[k0 v0] ps IH]; simpl; intros h h' ps' H.
  - injection H as _ <-. apply props_cloned_nil.
  - destruct (clone_value fuel h v0) as [h1 v1] eqn:E1.
    destruct (clone_props (clone_value fuel) h1 ps) as [h2 ps2] eqn:E2.
    injection H as _ <-. intros k. simpl.
    destruct (decide (k0 = k)); [by exists fuel, h, h1 | by apply (IH _ _ _ E2)].
Qed.

Lemma cloneDeep_options_cloned h options ps :
  options_given h options ps →
  ∃ h1 ps1,
    cloneDeep h options = (h1 ++ [CObj ps1], VRef (length h1))
    ∧ h `prefix_of` h1
    ∧ props_cloned ps ps1.
Proof.
  unfold options_given, cloneDeep. destruct (truthy options) eqn:Ht.
  - intros Hd. simpl. rewrite Hd.
    destruct (clone_props (clone_value (length h)) h ps) as [h1 ps1] eqn:E.
    exists h1, ps1. split; [done|].
    split; [eapply clone_props_grows, E; apply clone_value_grows|].
    by eapply clone_props_cloned.
  - intros ->. unfold alloc. cbn [clone_value]. rewrite deref_new.
    cbn [clone_props alloc].
    exists (h ++ [CObj []]), []. split; [done|].
    split; [by apply prefix_app_r | apply props_cloned_nil].
Qed.

Lemma clone_props_flat f h ps :
  (∀ h v, is_ref v = false → f h v = (h, v)) →
  Forall (λ p, is_ref p.2 = false) ps →
  clone_props f h ps = (h, ps).
Proof.
  intros Hf. induction 1 as [|[k v] ps Hv _ IH]; simpl; [done|].
  by rewrite (Hf _ _ Hv), IH.
Qed.

(** The clone of an entry that is an object of primitives. *)
Lemma clone_props_entry n k lw wps h0 ps : ∀ h h' ps',
  clone_props (clone_value (S n)) h ps = (h', ps') →
  h0 `prefix_of` h →
  dict_get ps k = Some (VRef lw) →
  h0 !! lw = Some (CObj wps) →
  Forall (λ p, is_ref p.2 = false) wps →
  ∃ lc, dict_get ps' k = Some (VRef lc)
        ∧ (length h ≤ lc)%nat ∧ h' !! lc = Some (CObj wps).
Proof.
  induction ps as [|[k0 v0] ps IH]; intros h h' ps' H Hp Hk Hlw Hflat; [done|].
  cbn [clone_props] in H.
  destruct (clone_value (S n) h v0) as [h1 v0'] eqn:E1.
  destruct (clone_props (clone_value (S n)) h1 ps) as [h2 ps2] eqn:E2.
  injection H as <- <-.
  assert (h `prefix_of` h1) as Hp1 by by eapply clone_value_grows.
  assert (h1 `prefix_of` h2) as Hp2
    by (eapply clone_props_grows, E2; apply clone_value_grows).
  cbn [dict_get] in *. destruct (decide (k0 = k)) as [->|Hne].
  - injection Hk as ->. cbn [clone_value deref] in E1.
    rewrite (prefix_lookup_Some _ _ _ _ Hlw Hp) in E1.
    rewrite (clone_props_flat _ _ _ (clone_value_scalar n) Hflat) in E1.
    injection E1 as <- <-. exists (length h). split; [done|]. split; [done|].
    eapply prefix_lookup_Some; [|exact Hp2]. by apply list_lookup_middle.
  - destruct (IH h1 h2 ps2 E2) as (lc & Hget & Hlen & Hlc); try done.
    { by etrans. }
    exists lc. split; [done|]. split; [|done].
    apply prefix_length in Hp1. lia.
Qed.

Lemma cloneDeep_where h options ps h1 ps1 lw wps :
  options_given h options ps →
  0 < length h →
  cloneDeep h options = (h1 ++ [CObj ps1], VRef (length h1)) →
  prop ps "where" = VRef lw →
  h !! lw = Some (CObj wps) →
  Forall (λ p, is_ref p.2 = false) wps →
  ∃ lc, prop ps1 "where" = VRef lc
        ∧ (length h ≤ lc)%nat ∧ h1 !! lc = Some (CObj wps).
Proof.
  unfold options_given, cloneDeep. destruct (truthy options) eqn:Ht.
  - intros Hd Hlen. cbn [clone_value]. rewrite Hd.
    destruct (clone_props (clone_value (length h)) h ps) as [h1' ps1'] eqn:E.
    unfold alloc. intros Heq Hw Hlw Hflat.
    injection Heq as Heq _. apply app_inj_tail in Heq as [-> Heq].
    injection Heq as ->.
    destruct (length h) as [|n] eqn:En; [lia|].
    assert (dict_get ps (KStr "where") = Some (VRef lw)) as Hk.
    { unfold prop in Hw.
      destruct (dict_get ps (KStr "where")) as [v|]; simpl in Hw;
        [by subst | discriminate]. }
    destruct (clone_props_entry n (KStr "where") lw wps h ps h h1 ps1 E)
      as (lc & Hget & Hle & Hlc); try done.
    exists lc. unfold prop. rewrite Hget. rewrite En in Hle. by repeat split.
  - by intros -> _ _ Hw.
Qed.

(** ** Assignment of a dictionary over an object *)

Lemma assign_keys_get dst src keys k :
  dict_get (assign_keys dst src keys) (KStr k)
  = if decide (k ∈ keys) then Some (default VUndef (dict_get src k))
    else dict_get dst (KStr k).
Proof.
  revert dst. induction keys as [|k0 keys IH]; intros dst; cbn [assign_keys].
  - rewrite decide_False; [done | apply not_elem_of_nil].
  - rewrite IH. destruct (decide (k ∈ keys)) as [Hin|Hnin].
    + rewrite decide_True; [done | by apply list_elem_of_further].
    + rewrite dict_get_set. destruct (decide (k0 = k)) as [->|Hne].
      * rewrite decide_True by done. rewrite decide_True; [done | apply list_elem_of_here].
      * rewrite decide_False by congruence.
        rewrite decide_False; [done|]. rewrite elem_of_cons. intros [?|?]; congruence.
Qed.

Lemma assign_keys_get_sym dst src keys o :
  dict_get (assign_keys dst src keys) (KSym o) = dict_get dst (KSym o).
Proof.
  revert dst. induction keys as [|k0 keys IH]; intros dst; simpl; [done|].
  rewrite IH. by apply dict_get_set_ne.
Qed.

(** After [_.assign(dst, src)], an entry of [src] is in [dst], and the
    other entries of [dst] are as before. *)
Lemma assign_props_get dst src k :
  dict_get (assign_props dst src) (KStr k)
  = match dict_get src k with
    | Some v => Some v
    | None => dict_get dst (KStr k)
    end.
Proof.
  unfold assign_props. rewrite assign_keys_get.
  destruct (dict_get src k) as [v|] eqn:E.
  - rewrite decide_True; [done|]. apply dec_stable. intros Hn.
    apply dict_get_None in Hn. congruence.
  - rewrite decide_False; [done|]. by apply dict_get_None.
Qed.

(** ** Run time: how the steps of a run compose *)

Section RunFacts.
Context {db : Type}.
Implicit Types (w : world db) (h : heap).

Lemma bind_ok {A B} (m : M db A) (k : A → M db B) w a w' :
  m w = (inr a, w') → bind m k w = k a w'.
Proof. unfold bind. by intros ->. Qed.

Lemma new_run w c :
  new c w = (inr (VRef (length (w_heap w))), with_heap w (w_heap w ++ [c])).
Proof. done. Qed.

Lemma put_heap_run w h : put_heap h w = (inr tt, with_heap w h).
Proof. done. Qed.

Lemma the_heap_run w : the_heap w = (inr (w_heap w), w).
Proof. done. Qed.

Lemma ret_run {A} (a : A) w : ret a w = (inr a, w).
Proof. done. Qed.

Lemma lift_run {A} (r : error + A) w : lift r w = (r, w).
Proof. done. Qed.

Lemma extends_log_bind {A B} (m : M db A) (k : A → M db B) :
  extends_log m → (∀ a, extends_log (k a)) → extends_log (bind m k).
Proof.
  intros Hm Hk w. unfold bind. specialize (Hm w).
  destruct (m w) as [[e|a] w']; [done|].
  etrans; [exact Hm | apply Hk].
Qed.

Lemma extends_log_ret {A} (a : A) : extends_log (ret a : M db A).
Proof. by intros w. Qed.

Lemma extends_log_throw {A} e : extends_log (@throw db A e).
Proof. by intros w. Qed.

Lemma extends_log_lift {A} (r : error + A) : extends_log (lift r : M db A).
Proof. by intros w. Qed.

Lemma extends_log_the_heap : extends_log (@the_heap db).
Proof. by intros w. Qed.

Lemma extends_log_put_heap h : extends_log (put_heap h : M db unit).
Proof. by intros w. Qed.

Lemma extends_log_new c : extends_log (new c : M db value).
Proof. by intros w. Qed.
End RunFacts.

Create HintDb runs.

#[global] Hint Resolve extends_log_ret extends_log_throw extends_log_lift
  extends_log_the_heap extends_log_put_heap extends_log_new : runs.

(** One step of a run: the first computation of a [bind] is replaced by
    its outcome, given by the lemma [lem]. *)
Tactic Notation "step" uconstr(lem) :=
  erewrite bind_ok; [|apply lem; try done];
  cbn [with_heap w_heap w_db w_log].

Section RuntimeFacts.

Variable customGetters : string → string → option (dict value → value).
Variable db : Type.
Variable engine : call → heap → db → (error + value) * heap * db.
Variable this : HasOne.

Implicit Types (w : world db) (h : heap).

Local Abbreviation instance_get := (instance_get customGetters).
Local Abbreviation map_get := (map_get customGetters).
Local Abbreviation get_query := (get_query customGetters db this).
Local Abbreviation get := (get customGetters db engine this).
Local Abbreviation set := (set customGetters db engine this).
Local Abbreviation create := (create customGetters db engine this).
Local Abbreviation perform := (perform db engine).
Local Abbreviation already_associated := (already_associated customGetters this).
Local Abbreviation where_props := (where_props this).
Local Abbreviation query_heap := (query_heap this).
Local Abbreviation after_call := (after_call db engine).
Local Abbreviation raw_key := (raw_key customGetters).
Local Abbreviation fill_null := (fill_null customGetters this).
Local Abbreviation fill_targets := (fill_targets customGetters this).
Local Abbreviation detach_heap := (detach_heap this).
Local Abbreviation attach_candidate := (attach_candidate this).
Local Abbreviation scoped_values := (scoped_values this).
Local Abbreviation scope_names := (scope_names this).
Local Abbreviation create_heap := (create_heap this).

Lemma store_prop_run w h l ps k x :
  h !! l = Some (CObj ps) →
  store_prop db (VRef l) k x (with_heap w h)
  = (inr tt, with_heap w (<[l := CObj (dict_set ps k x)]> h)).
Proof.
  intros Hl. unfold store_prop, bind, the_heap, lift, set_prop. simpl.
  by rewrite Hl.
Qed.

Lemma assign_scope_run w h l ps :
  h !! l = Some (CObj ps) →
  assign_scope db this (VRef l) (with_heap w h)
  = (inr tt,
     with_heap w (<[l := CObj (match scope this with
                               | Some sc => assign_props ps sc
                               | None => ps
                               end)]> h)).
Proof.
  intros Hl. unfold assign_scope. destruct (scope this) as [sc|].
  - unfold bind, the_heap. simpl. by rewrite Hl.
  - unfold ret. by rewrite list_insert_id.
Qed.

Lemma instance_get_prefix raw h h' v attr x :
  h `prefix_of` h' →
  instance_get raw h v attr = inr x → instance_get raw h' v attr = inr x.
Proof.
  intros Hp. unfold instance_get.
  destruct (deref h v) as [c|] eqn:E; [|discriminate].
  by rewrite (deref_prefix _ _ _ _ Hp E).
Qed.

Lemma map_get_prefix raw h h' vs attr xs :
  h `prefix_of` h' →
  map_get raw h vs attr = inr xs → map_get raw h' vs attr = inr xs.
Proof.
  intros Hp. revert xs. induction vs as [|v vs IH]; simpl; intros xs H; [done|].
  destruct (instance_get raw h v attr) as [e|x] eqn:E; [discriminate|].
  rewrite (instance_get_prefix _ _ _ _ _ _ Hp E). simpl in *.
  destruct (map_get raw h vs attr) as [e|ys]; [discriminate|].
  by rewrite (IH _ eq_refl).
Qed.


(** *** The query of [get] *)

Lemma get_query_run w instances options h0 ps1 extra fk (many : bool) :
  let n := length (w_heap w) in
  cloneDeep (w_heap w ++ [CObj []]) options = (h0 ++ [CObj ps1], VRef (length h0)) →
  (w_heap w ++ [CObj []]) `prefix_of` h0 →
  match deref (h0 ++ [CObj ps1]) instances with
  | Some (CArr vs) =>
      ∃ keys, map_get false (h0 ++ [CObj ps1]) vs (sourceKey this) = inr keys
              ∧ extra = [CArr keys; CObj [(KSym OpIn, VRef (S (length h0)))]]
              ∧ fk = VRef (S (S (length h0))) ∧ many = true
  | _ => instance_get false (h0 ++ [CObj ps1]) instances (sourceKey this) = inr fk
         ∧ extra = [] ∧ many = false
  end →
  get_query instances options w
  = (inr (find_target ps1, VRef (length h0), many),
     with_heap w (query_heap (h0 ++ [CObj ps1]) n (length h0) ps1 extra fk)).
Proof.
  intros n Hclone Hpre Hinst. unfold get_query.
  step new_run. step the_heap_run. rewrite Hclone. step put_heap_run.
  rewrite deref_new.
  set (H1 := h0 ++ [CObj ps1]) in *.
  assert (H1 !! n = Some (CObj [])) as Hn.
  { unfold H1. apply lookup_app_l_Some. destruct Hpre as [ext ->].
    rewrite <-(assoc_L (++)). by apply list_lookup_middle. }
  assert (n < length h0) as Hlt.
  { destruct Hpre as [ext ->]. rewrite !length_app. simpl. lia. }
  assert (length H1 = S (length h0)) as HlenH1.
  { unfold H1. rewrite length_app. simpl. lia. }
  match goal with
  | |- bind ?m _ _ = _ =>
      assert (m (with_heap w H1) = (inr fk, with_heap w (H1 ++ extra))
              ∧ bool_decide (is_Some match deref H1 instances with
                                     | Some (CArr vs) => Some vs
                                     | _ => None
                                     end) = many) as [Hfk Hmany]
  end.
  { destruct (deref H1 instances) as [[ps|vs|m dv]|];
      try (destruct Hinst as (Hk & -> & ->); unfold lift; rewrite Hk;
           rewrite app_nil_r; split; [done|];
           apply bool_decide_eq_false_2; by intros [? ?]).
    destruct Hinst as (keys & Hk & -> & -> & ->). split.
    - rewrite Hk. step lift_run. step new_run. rewrite new_run.
      cbn [with_heap w_heap w_db w_log]. rewrite length_app, HlenH1. simpl.
      rewrite <-(assoc_L (++)). simpl. do 3 f_equal. lia.
    - by apply bool_decide_eq_true_2. }
  rewrite (bind_ok _ _ _ _ _ Hfk), Hmany. clear Hfk Hmany.
  assert ((H1 ++ extra) !! n = Some (CObj [])) as Hn'
    by by apply lookup_app_l_Some.
  assert (n < length (H1 ++ extra)) as Hlt' by (rewrite length_app; lia).
  step store_prop_run.
  step assign_scope_run; [|by apply list_lookup_insert_eq].
  rewrite list_insert_insert_eq.
  change (match scope this with
          | Some sc => assign_props (dict_set [] (KStr (foreignKey this)) fk) sc
          | None => dict_set [] (KStr (foreignKey this)) fk
          end) with (where_props fk).
  set (H2 := <[n := CObj (where_props fk)]> (H1 ++ extra)).
  assert (H2 !! length h0 = Some (CObj ps1)) as Ho.
  { unfold H2. rewrite list_lookup_insert_ne by lia.
    apply lookup_app_l_Some. unfold H1. by apply list_lookup_middle. }
  unfold query_heap, join_where. fold H2.
  destruct (truthy (prop ps1 "where")).
  - erewrite bind_ok; [|step new_run; apply new_run].
    cbn [with_heap w_heap w_db w_log].
    step store_prop_run; [|by do 2 apply lookup_app_l_Some].
    rewrite ret_run, length_app. simpl.
    by rewrite Nat.add_1_r, <-(assoc_L (++)).
  - step ret_run. step store_prop_run. by rewrite ret_run.
Qed.


(** What the store of a query holds. [h] is the store at the call of
    [get], a prefix of [h1] that ends before the cell [n] of [where]. *)
Section QueryHeap.
Variables (h h0 : heap) (ps1 : props) (extra : list cell) (fk : value).
Hypothesis Hpre : (h ++ [CObj []]) `prefix_of` h0.

Let n := length h.
Let o := length h0.
Let H1 := h0 ++ [CObj ps1].
Let hq := query_heap H1 n o ps1 extra fk.
Let cw := prop ps1 "where".

Lemma query_heap_bounds : n < o ∧ length H1 = S o.
Proof.
  clear hq. unfold n, o, H1. destruct Hpre as [ext ->].
  rewrite !length_app. simpl. lia.
Qed.

Lemma query_heap_eq :
  hq = <[o := CObj (dict_set ps1 (KStr "where") (join_where (<[n := CObj (where_props fk)]> (H1 ++ extra)) n cw).2)]>
         (join_where (<[n := CObj (where_props fk)]> (H1 ++ extra)) n cw).1.
Proof. unfold hq, query_heap. fold cw. by destruct (join_where _ _ _). Qed.

Lemma join_where_prefix g m v : g `prefix_of` (join_where g m v).1.
Proof.
  unfold join_where. destruct (truthy v); simpl; [by apply prefix_app_r | done].
Qed.

Lemma query_heap_lookup l :
  l ≠ n → l ≠ o → l < length (H1 ++ extra) → hq !! l = (H1 ++ extra) !! l.
Proof.
  intros Hn Ho Hl. rewrite query_heap_eq.
  rewrite list_lookup_insert_ne by done.
  destruct (join_where_prefix (<[n := CObj (where_props fk)]> (H1 ++ extra)) n cw)
    as [ext ->].
  rewrite lookup_app_l by (by rewrite length_insert).
  by rewrite list_lookup_insert_ne.
Qed.

(** The cells the store had at the call are as they were. *)
Lemma query_heap_frame l : l < n → hq !! l = h !! l.
Proof.
  intros Hl. destruct query_heap_bounds as [Hno HlenH1].
  rewrite query_heap_lookup; [|lia|lia|rewrite length_app; lia].
  unfold H1. destruct Hpre as [ext ->].
  rewrite <-!(assoc_L (++)). by rewrite lookup_app_l.
Qed.

Lemma query_heap_where : hq !! n = Some (CObj (where_props fk)).
Proof.
  destruct query_heap_bounds as [Hno HlenH1].
  rewrite query_heap_eq. rewrite list_lookup_insert_ne by lia.
  destruct (join_where_prefix (<[n := CObj (where_props fk)]> (H1 ++ extra)) n cw)
    as [ext ->].
  apply lookup_app_l_Some, list_lookup_insert_eq. rewrite length_app. lia.
Qed.

Lemma query_heap_options :
  hq !! o
  = Some (CObj (dict_set ps1 (KStr "where")
                  (if truthy cw then VRef (S (length (H1 ++ extra))) else VRef n))).
Proof.
  destruct query_heap_bounds as [Hno HlenH1].
  rewrite query_heap_eq. rewrite list_lookup_insert_eq.
  - unfold join_where. destruct (truthy cw); simpl; by rewrite ?length_insert.
  - destruct (join_where_prefix (<[n := CObj (where_props fk)]> (H1 ++ extra)) n cw)
      as [ext ->].
    rewrite length_app, length_insert, length_app. lia.
Qed.

Lemma query_heap_and :
  truthy cw = true →
  hq !! length (H1 ++ extra) = Some (CArr [VRef n; cw])
  ∧ hq !! S (length (H1 ++ extra))
    = Some (CObj [(KSym OpAnd, VRef (length (H1 ++ extra)))]).
Proof.
  intros Ht. destruct query_heap_bounds as [Hno HlenH1].
  rewrite query_heap_eq. unfold join_where. rewrite Ht. simpl.
  assert (length (H1 ++ extra) = S o + length extra) as Hlen
    by (rewrite length_app; lia).
  rewrite !list_lookup_insert_ne by lia.
  rewrite length_insert. split.
  - rewrite lookup_app_r by (rewrite length_insert; lia).
    by rewrite length_insert, Nat.sub_diag.
  - rewrite lookup_app_r by (rewrite length_insert; lia).
    rewrite length_insert.
    by replace (S (length (H1 ++ extra)) - length (H1 ++ extra)) with 1 by lia.
Qed.

End QueryHeap.

(** *** The runs of [get] *)

Lemma is_record_prefix h h' v : h `prefix_of` h' → is_record h v → is_record h' v.
Proof. intros Hp (m & dv & H). exists m, dv. by eapply deref_prefix. Qed.

Lemma instance_get_record raw h v attr :
  is_record h v → ∃ x, instance_get raw h v attr = inr x.
Proof.
  intros (m & dv & H). unfold instance_get. rewrite H.
  destruct (if raw then None else customGetters m attr); eauto.
Qed.

Lemma map_get_records raw h vs attr :
  Forall (is_record h) vs →
  ∃ xs, map_get raw h vs attr = inr xs ∧ length xs = length vs.
Proof.
  induction 1 as [|v vs Hv _ (xs & IH & Hlen)]; simpl; [by exists []|].
  destruct (instance_get_record raw h v attr Hv) as [x ->]. rewrite IH.
  exists (x :: xs). simpl. by rewrite Hlen.
Qed.

(** The query for one source record. *)
Lemma get_query_one w instance options ps :
  options_given (w_heap w) options ps →
  is_record (w_heap w) instance →
  ∃ h0 ps1 key,
    (w_heap w ++ [CObj []]) `prefix_of` h0
    ∧ props_cloned ps ps1
    ∧ instance_get false (w_heap w) instance (sourceKey this) = inr key
    ∧ get_query instance options w
      = (inr (find_target ps1, VRef (length h0), false),
         with_heap w (query_heap (h0 ++ [CObj ps1]) (length (w_heap w))
                        (length h0) ps1 [] key)).
Proof.
  intros Ho Hi.
  assert (options_given (w_heap w ++ [CObj []]) options ps) as Ho'.
  { unfold options_given in *. destruct (truthy options); [|done].
    by apply deref_app_l. }
  destruct (cloneDeep_options_cloned _ _ _ Ho') as (h0 & ps1 & Hc & Hp & Hps).
  destruct (instance_get_record false _ _ (sourceKey this) Hi) as [key Hkey].
  exists h0, ps1, key. repeat split; try done.
  assert (w_heap w `prefix_of` (h0 ++ [CObj ps1])) as Hp'.
  { etrans; [apply prefix_app_r; reflexivity|].
    etrans; [exact Hp | by apply prefix_app_r]. }
  apply get_query_run; [done | done |].
  destruct Hi as (m & dv & Hi).
  rewrite (deref_prefix _ _ _ _ Hp' Hi).
  split; [|done]. by eapply instance_get_prefix.
Qed.

(** The query for an array of source records. *)
Lemma get_query_many w instances options ps vs :
  options_given (w_heap w) options ps →
  deref (w_heap w) instances = Some (CArr vs) →
  Forall (is_record (w_heap w)) vs →
  ∃ h0 ps1 keys,
    (w_heap w ++ [CObj []]) `prefix_of` h0
    ∧ props_cloned ps ps1
    ∧ map_get false (w_heap w) vs (sourceKey this) = inr keys
    ∧ get_query instances options w
      = (inr (find_target ps1, VRef (length h0), true),
         with_heap w
           (query_heap (h0 ++ [CObj ps1]) (length (w_heap w)) (length h0) ps1
              [CArr keys; CObj [(KSym OpIn, VRef (S (length h0)))]]
              (VRef (S (S (length h0)))))).
Proof.
  intros Ho Hi Hvs.
  assert (options_given (w_heap w ++ [CObj []]) options ps) as Ho'.
  { unfold options_given in *. destruct (truthy options); [|done].
    by apply deref_app_l. }
  destruct (cloneDeep_options_cloned _ _ _ Ho') as (h0 & ps1 & Hc & Hp & Hps).
  destruct (map_get_records false _ _ (sourceKey this) Hvs) as (keys & Hkeys & _).
  exists h0, ps1, keys. repeat split; try done.
  assert (w_heap w `prefix_of` (h0 ++ [CObj ps1])) as Hp'.
  { etrans; [apply prefix_app_r; reflexivity|].
    etrans; [exact Hp | by apply prefix_app_r]. }
  apply get_query_run; [done | done |].
  rewrite (deref_prefix _ _ _ _ Hp' Hi).
  exists keys. split; [|done]. by eapply map_get_prefix.
Qed.

(** The same two queries, with the run of the clone. *)
Lemma get_query_one_clone w instance options ps :
  options_given (w_heap w) options ps →
  is_record (w_heap w) instance →
  ∃ h0 ps1 key,
    cloneDeep (w_heap w ++ [CObj []]) options
    = (h0 ++ [CObj ps1], VRef (length h0))
    ∧ (w_heap w ++ [CObj []]) `prefix_of` h0
    ∧ props_cloned ps ps1
    ∧ instance_get false (w_heap w) instance (sourceKey this) = inr key
    ∧ get_query instance options w
      = (inr (find_target ps1, VRef (length h0), false),
         with_heap w (query_heap (h0 ++ [CObj ps1]) (length (w_heap w))
                        (length h0) ps1 [] key)).
Proof.
  intros Ho Hi.
  assert (options_given (w_heap w ++ [CObj []]) options ps) as Ho'.
  { unfold options_given in *. destruct (truthy options); [|done].
    by apply deref_app_l. }
  destruct (cloneDeep_options_cloned _ _ _ Ho') as (h0 & ps1 & Hc & Hp & Hps).
  destruct (instance_get_record false _ _ (sourceKey this) Hi) as [key Hkey].
  exists h0, ps1, key. repeat split; try done.
  assert (w_heap w `prefix_of` (h0 ++ [CObj ps1])) as Hp'.
  { etrans; [apply prefix_app_r; reflexivity|].
    etrans; [exact Hp | by apply prefix_app_r]. }
  apply get_query_run; [done | done |].
  destruct Hi as (m & dv & Hi).
  rewrite (deref_prefix _ _ _ _ Hp' Hi).
  split; [|done]. by eapply instance_get_prefix.
Qed.

Lemma get_query_many_clone w instances options ps vs :
  options_given (w_heap w) options ps →
  deref (w_heap w) instances = Some (CArr vs) →
  Forall (is_record (w_heap w)) vs →
  ∃ h0 ps1 keys,
    cloneDeep (w_heap w ++ [CObj []]) options
    = (h0 ++ [CObj ps1], VRef (length h0))
    ∧ (w_heap w ++ [CObj []]) `prefix_of` h0
    ∧ props_cloned ps ps1
    ∧ map_get false (w_heap w) vs (sourceKey this) = inr keys
    ∧ get_query instances options w
      = (inr (find_target ps1, VRef (length h0), true),
         with_heap w
           (query_heap (h0 ++ [CObj ps1]) (length (w_heap w)) (length h0) ps1
              [CArr keys; CObj [(KSym OpIn, VRef (S (length h0)))]]
              (VRef (S (S (length h0)))))).
Proof.
  intros Ho Hi Hvs.
  assert (options_given (w_heap w ++ [CObj []]) options ps) as Ho'.
  { unfold options_given in *. destruct (truthy options); [|done].
    by apply deref_app_l. }
  destruct (cloneDeep_options_cloned _ _ _ Ho') as (h0 & ps1 & Hc & Hp & Hps).
  destruct (map_get_records false _ _ (sourceKey this) Hvs) as (keys & Hkeys & _).
  exists h0, ps1, keys. repeat split; try done.
  assert (w_heap w `prefix_of` (h0 ++ [CObj ps1])) as Hp'.
  { etrans; [apply prefix_app_r; reflexivity|].
    etrans; [exact Hp | by apply prefix_app_r]. }
  apply get_query_run; [done | done |].
  rewrite (deref_prefix _ _ _ _ Hp' Hi).
  exists keys. split; [|done]. by eapply map_get_prefix.
Qed.

Lemma perform_run w c : perform c w = ((engine c (w_heap w) (w_db w)).1.1, after_call w c).
Proof.
  unfold perform, after_call. by destruct (engine c (w_heap w) (w_db w)) as [[r h] d].
Qed.

Lemma get_run_one w instance options T o w1 :
  get_query instance options w = (inr (T, o, false), w1) →
  get instance options w = perform (FindOne T o) w1.
Proof. intros H. unfold get. by rewrite (bind_ok _ _ _ _ _ H). Qed.

Lemma get_run_many w instances options T o w1 :
  get_query instances options w = (inr (T, o, true), w1) →
  get instances options w
  = bind (perform (FindAll T o)) (index_results customGetters db this instances) w1.
Proof. intros H. unfold get. by rewrite (bind_ok _ _ _ _ _ H). Qed.

(** *** The filter of a query *)

(** The entries of the object [where]: those of the scope, and the
    foreign key entry when the scope has no entry of that name. *)
Lemma where_props_get fk k :
  dict_get (where_props fk) (KStr k)
  = match scope this ≫= (λ sc, dict_get sc k) with
    | Some v => Some v
    | None => if decide (k = foreignKey this) then Some fk else None
    end.
Proof.
  unfold where_props. destruct (scope this) as [sc|]; simpl.
  - rewrite assign_props_get. destruct (dict_get sc k); [done|]. simpl.
    destruct (decide (KStr (foreignKey this) = KStr k)) as [[= ->]|Hne].
    + by rewrite decide_True.
    + rewrite decide_False; [done | congruence].
  - destruct (decide (KStr (foreignKey this) = KStr k)) as [[= ->]|Hne].
    + by rewrite decide_True.
    + rewrite decide_False; [done | congruence].
Qed.

Lemma where_props_get_sym fk o : dict_get (where_props fk) (KSym o) = None.
Proof.
  unfold where_props. destruct (scope this) as [sc|]; simpl; [|done].
  unfold assign_props. by rewrite assign_keys_get_sym.
Qed.

Lemma query_heap_filter_sent h h0 ps1 extra fk :
  (h ++ [CObj []]) `prefix_of` h0 →
  filter_sent (query_heap (h0 ++ [CObj ps1]) (length h) (length h0) ps1 extra fk)
    (VRef (length h0)) (length h) (prop ps1 "where").
Proof.
  intros Hp. exists (dict_set ps1 (KStr "where")
               (if truthy (prop ps1 "where")
                then VRef (S (length ((h0 ++ [CObj ps1]) ++ extra)))
                else VRef (length h))).
  split; [by apply query_heap_options|].
  destruct (truthy (prop ps1 "where")) eqn:Ht.
  - exists (length ((h0 ++ [CObj ps1]) ++ extra)),
           (S (length ((h0 ++ [CObj ps1]) ++ extra))).
    split; [apply dict_get_set_eq|].
    destruct (query_heap_and h h0 ps1 extra fk Hp Ht) as [Ha Hb]. done.
  - apply dict_get_set_eq.
Qed.

Lemma index_results_log instances results w :
  w_log (index_results customGetters db this instances results w).2 = w_log w.
Proof.
  unfold index_results, bind, the_heap, throw, lift, new. simpl.
  destruct (deref (w_heap w) results) as [[?|rs|? ?]|]; try done.
  destruct (deref (w_heap w) instances) as [[?|vs|? ?]|]; try done.
  destruct (index_sources _ _ _ _ _) as [?|r0]; [done|].
  by destruct (index_targets _ _ _ _ _).
Qed.

Lemma query_heap_cloned h options ps h0 ps1 extra fk :
  options_given h options ps →
  cloneDeep (h ++ [CObj []]) options = (h0 ++ [CObj ps1], VRef (length h0)) →
  (h ++ [CObj []]) `prefix_of` h0 →
  props_cloned ps ps1 →
  filter_cloned h options ps
    (query_heap (h0 ++ [CObj ps1]) (length h) (length h0) ps1 extra fk)
    (VRef (length h0)) (prop ps1 "where").
Proof.
  intros Ho Hc Hp Hps.
  destruct (query_heap_bounds h h0 ps1 Hp) as [Hno HlenH1].
  assert (∀ l, l < length h0 → l ≠ length h →
               query_heap (h0 ++ [CObj ps1]) (length h) (length h0) ps1 extra fk !! l
               = h0 !! l) as Hcells.
  { intros l Hl Hne.
    rewrite query_heap_lookup;
      [|first [exact Hp | done | lia | rewrite !length_app; simpl; lia]..].
    by rewrite <-(assoc_L (++)), lookup_app_l. }
  split; [|split].
  - by exists h0, ps1.
  - intros Hw. pose proof (props_cloned_prop _ _ (KStr "where") Hps) as Hcl.
    by apply clone_of_scalar in Hcl.
  - intros lw wps Hw Hlw Hflat.
    assert (options_given (h ++ [CObj []]) options ps) as Ho'.
    { unfold options_given in *. destruct (truthy options); [|done].
      by apply deref_app_l. }
    destruct (cloneDeep_where (h ++ [CObj []]) options ps h0 ps1 lw wps Ho')
      as (lc & Hcw & Hle & Hlc); try done.
    { rewrite length_app. simpl. lia. }
    { by apply lookup_app_l_Some. }
    rewrite length_app in Hle. simpl in Hle.
    exists lc. split; [done|]. split; [lia|].
    rewrite Hcells; [done | by eapply lookup_lt_Some | lia].
Qed.

Lemma get_filter_one w instance options ps :
  options_given (w_heap w) options ps →
  is_record (w_heap w) instance →
  ∃ e T o W cw key,
    w_log (get instance options w).2 = w_log w ++ [e]
    ∧ ev_call e = FindOne T o
    ∧ instance_get false (w_heap w) instance (sourceKey this) = inr key
    ∧ ev_heap e !! length (w_heap w) = Some (CObj W)
    ∧ W = where_props key
    ∧ filter_sent (ev_heap e) o (length (w_heap w)) cw
    ∧ filter_cloned (w_heap w) options ps (ev_heap e) o cw.
Proof.
  intros Ho Hi.
  destruct (get_query_one_clone w instance options ps Ho Hi)
    as (h0 & ps1 & key & Hc & Hp & Hps & Hkey & Hq).
  rewrite (get_run_one _ _ _ _ _ _ Hq), perform_run. simpl.
  eexists _, _, _, _, _, key. split; [reflexivity|]. simpl.
  split; [reflexivity|]. split; [done|].
  split; [by apply query_heap_where|]. split; [reflexivity|].
  split; [by apply query_heap_filter_sent | by apply query_heap_cloned].
Qed.

Lemma get_filter_many w instances options ps vs :
  options_given (w_heap w) options ps →
  deref (w_heap w) instances = Some (CArr vs) →
  Forall (is_record (w_heap w)) vs →
  ∃ e T o W cw keys i a,
    w_log (get instances options w).2 = w_log w ++ [e]
    ∧ ev_call e = FindAll T o
    ∧ map_get false (w_heap w) vs (sourceKey this) = inr keys
    ∧ length keys = length vs
    ∧ ev_heap e !! length (w_heap w) = Some (CObj W)
    ∧ W = where_props (VRef i)
    ∧ ev_heap e !! i = Some (CObj [(KSym OpIn, VRef a)])
    ∧ ev_heap e !! a = Some (CArr keys)
    ∧ filter_sent (ev_heap e) o (length (w_heap w)) cw
    ∧ filter_cloned (w_heap w) options ps (ev_heap e) o cw.
Proof.
  intros Ho Hi Hvs.
  destruct (get_query_many_clone w instances options ps vs Ho Hi Hvs)
    as (h0 & ps1 & keys & Hc & Hp & Hps & Hkeys & Hq).
  rewrite (get_run_many _ _ _ _ _ _ Hq).
  assert (length keys = length vs) as Hlen.
  { destruct (map_get_records false _ _ (sourceKey this) Hvs) as (xs & Hxs & Hl).
    rewrite Hkeys in Hxs. by injection Hxs as ->. }
  eexists {| ev_call := _; ev_heap := _ |}, _, _, _, _, keys, _, _.
  split.
  { unfold bind at 1. rewrite perform_run.
    destruct (engine _ _ _).1.1; [reflexivity|].
    rewrite index_results_log. reflexivity. }
  simpl. split; [reflexivity|]. split; [done|]. split; [done|].
  split; [by apply query_heap_where|]. split; [reflexivity|].
  destruct (query_heap_bounds _ _ ps1 Hp) as [Hno HlenH1].
  split.
  { rewrite query_heap_lookup; [|lia|lia|rewrite length_app; simpl; lia].
    rewrite lookup_app_r by lia. rewrite HlenH1.
    by replace (S (S (length h0)) - S (length h0)) with 1 by lia. }
  split.
  { rewrite query_heap_lookup; [|lia|lia|rewrite length_app; simpl; lia].
    rewrite lookup_app_r by lia. by rewrite HlenH1, Nat.sub_diag. }
  split; [by apply query_heap_filter_sent | by apply query_heap_cloned].
Qed.

(** C5, as amended. The query of [get] carries the object [where],
    whose entries are those of the relationship scope and, under the
    foreign key name, the source record's source-key value (one record)
    or an [Op.in] list of the source-key values of all records, one per
    record and not deduplicated (an array of records) - unless the
    scope has an entry of that very name, which takes its place. When
    the [where] of the clone [get] makes of the caller's options is
    truthy, it is joined to that object under [Op.and]; this clone's
    filter is the caller's own value when that is a primitive, and a
    new object with the same entries when it is an object of
    primitives. *)
Theorem get_filter w instances options ps :
  options_given (w_heap w) options ps →
  (is_record (w_heap w) instances →
   ∃ e T o W cw key,
     w_log (get instances options w).2 = w_log w ++ [e]
     ∧ ev_call e = FindOne T o
     ∧ instance_get false (w_heap w) instances (sourceKey this) = inr key
     ∧ ev_heap e !! length (w_heap w) = Some (CObj W)
     ∧ (∀ k, dict_get W (KStr k)
             = match scope this ≫= (λ sc, dict_get sc k) with
               | Some v => Some v
               | None => if decide (k = foreignKey this) then Some key else None
               end)
     ∧ (∀ s, dict_get W (KSym s) = None)
     ∧ filter_sent (ev_heap e) o (length (w_heap w)) cw
     ∧ filter_cloned (w_heap w) options ps (ev_heap e) o cw)
  ∧ (∀ vs, deref (w_heap w) instances = Some (CArr vs) →
           Forall (is_record (w_heap w)) vs →
     ∃ e T o W cw keys i a,
       w_log (get instances options w).2 = w_log w ++ [e]
       ∧ ev_call e = FindAll T o
       ∧ map_get false (w_heap w) vs (sourceKey this) = inr keys
       ∧ length keys = length vs
       ∧ ev_heap e !! length (w_heap w) = Some (CObj W)
       ∧ (∀ k, dict_get W (KStr k)
               = match scope this ≫= (λ sc, dict_get sc k) with
                 | Some v => Some v
                 | None =>
                     if decide (k = foreignKey this) then Some (VRef i) else None
                 end)
       ∧ (∀ s, dict_get W (KSym s) = None)
       ∧ ev_heap e !! i = Some (CObj [(KSym OpIn, VRef a)])
       ∧ ev_heap e !! a = Some (CArr keys)
       ∧ filter_sent (ev_heap e) o (length (w_heap w)) cw
       ∧ filter_cloned (w_heap w) options ps (ev_heap e) o cw).
Proof.
  intros Ho. split.
  - intros Hi.
    destruct (get_filter_one w instances options ps Ho Hi)
      as (e & T & o & W & cw & key & Hlog & Hc & Hk & HW & -> & Hf & Hcw).
    exists e, T, o, (where_props key), cw, key.
    repeat split; try done;
      [apply where_props_get | apply where_props_get_sym | apply Hcw..].
  - intros vs Hi Hvs.
    destruct (get_filter_many w instances options ps vs Ho Hi Hvs)
      as (e & T & o & W & cw & keys & i & a
          & Hlog & Hc & Hk & Hl & HW & -> & Hi' & Ha & Hf & Hcw).
    exists e, T, o, (where_props (VRef i)), cw, keys, i, a.
    repeat split; try done;
      [apply where_props_get | apply where_props_get_sym | apply Hcw..].
Qed.

(** *** The mapping [get] returns for an array of records *)

Lemma index_sources_run h vs acc :
  Forall (is_record h) vs →
  index_sources customGetters this h vs acc = inr (fill_null h vs acc).
Proof.
  intros Hvs. revert acc. induction Hvs as [|v vs Hv _ IH]; intros acc; [done|].
  cbn [index_sources]. unfold fill_null. cbn [foldl]. unfold raw_key at 2.
  destruct (instance_get_record true h v (sourceKey this) Hv) as [x ->].
  apply IH.
Qed.

Lemma index_targets_run h rs acc :
  Forall (is_record h) rs →
  index_targets customGetters this h rs acc = inr (fill_targets h rs acc).
Proof.
  intros Hrs. revert acc. induction Hrs as [|v vs Hv _ IH]; intros acc; [done|].
  cbn [index_targets]. unfold fill_targets. cbn [foldl]. unfold raw_key at 2.
  destruct (instance_get_record true h v (foreignKey this) Hv) as [x ->].
  apply IH.
Qed.


Lemma fill_targets_keep h rs acc k :
  k ∉ (λ r, KStr (raw_key h (foreignKey this) r)) <$> rs →
  dict_get (fill_targets h rs acc) k = dict_get acc k.
Proof.
  unfold fill_targets. revert acc. induction rs as [|r rs IH]; intros acc Hk; [done|].
  cbn [foldl]. rewrite fmap_cons, not_elem_of_cons in Hk. destruct Hk as [Hne Hk].
  rewrite IH by done. by apply dict_get_set_ne.
Qed.








Lemma fill_targets_last h rs1 r rs2 acc :
  (∀ r', r' ∈ rs2 → raw_key h (foreignKey this) r' ≠ raw_key h (foreignKey this) r) →
  dict_get (fill_targets h (rs1 ++ r :: rs2) acc)
    (KStr (raw_key h (foreignKey this) r))
  = Some r.
Proof.
  intros Hno.
  replace (fill_targets h (rs1 ++ r :: rs2) acc)
    with (fill_targets h rs2
            (dict_set (fill_targets h rs1 acc)
               (KStr (raw_key h (foreignKey this) r)) r))
    by (unfold fill_targets; by rewrite foldl_app).
  rewrite fill_targets_keep; [apply dict_get_set_eq|].
  intros (r' & Heq & Hr')%list_elem_of_fmap. injection Heq as Heq.
  by apply (Hno r' Hr').
Qed.


Lemma index_results_run w instances results rs vs :
  deref (w_heap w) results = Some (CArr rs) →
  deref (w_heap w) instances = Some (CArr vs) →
  Forall (is_record (w_heap w)) rs →
  Forall (is_record (w_heap w)) vs →
  index_results customGetters db this instances results w
  = (inr (VRef (length (w_heap w))),
     with_heap w (w_heap w
                  ++ [CObj (fill_targets (w_heap w) rs (fill_null (w_heap w) vs []))])).
Proof.
  intros Hr Hi Hrs Hvs. unfold index_results.
  step the_heap_run. rewrite Hr, Hi.
  rewrite (index_sources_run _ _ _ Hvs). step lift_run.
  rewrite (index_targets_run _ _ _ Hrs). step lift_run.
  apply new_run.
Qed.


(** *** The runs of [set] *)

Lemma extends_log_perform c : extends_log (perform c).
Proof.
  intros w. rewrite perform_run. simpl. by apply prefix_app_r.
Qed.

Lemma extends_log_detach oldInstance options :
  extends_log (detach db engine this oldInstance options).
Proof.
  unfold detach.
  repeat (apply extends_log_bind; [auto with runs | intros ?]).
  apply extends_log_perform.
Qed.

Lemma extends_log_attach sourceInstance associatedInstance options :
  extends_log (attach customGetters db engine this sourceInstance
                 associatedInstance options).
Proof.
  unfold attach, build.
  apply extends_log_bind; [auto with runs | intros h].
  apply extends_log_bind.
  { destruct (negb _); [|auto with runs].
    apply extends_log_bind; [auto with runs | intros ?]. auto with runs. }
  intros ?.
  repeat (apply extends_log_bind; [auto with runs | intros ?]).
  apply extends_log_perform.
Qed.

Lemma extends_log_relink sourceInstance associatedInstance options oldInstance :
  extends_log (relink customGetters db engine this sourceInstance
                 associatedInstance options oldInstance).
Proof.
  unfold relink.
  apply extends_log_bind; [auto with runs | intros h].
  apply extends_log_bind; [auto with runs | intros already].
  apply extends_log_bind.
  { destruct (_ && _)%bool; [apply extends_log_detach | auto with runs]. }
  intros _. destruct (_ && _)%bool; [apply extends_log_attach | auto with runs].
Qed.

Lemma set_options_scope given :
  dict_get (set_options given) (KStr "scope") = Some (VBool false).
Proof. unfold set_options. by rewrite assign_props_get. Qed.

Lemma find_target_scope_disabled ps ps1 :
  dict_get ps (KStr "scope") = Some (VBool false) →
  props_cloned ps ps1 → scope_disabled (find_target ps1).
Proof.
  intros Hs Hc. pose proof (Hc (KStr "scope")) as H. rewrite Hs in H.
  unfold find_target.
  destruct (dict_get ps1 (KStr "scope")) as [v|]; [|done].
  apply clone_of_scalar in H; [|done]. subst v. simpl.
  destruct (dict_get ps1 (KStr "schema")); [right; eauto | by left].
Qed.

(** [set] up to its read: the options of [set] are a new object, the
    cell after the store of the call; the query is not scoped. *)
Lemma set_run_find w sourceInstance associatedInstance options given :
  own_string_props (w_heap w) options = inr given →
  is_record (w_heap w) sourceInstance →
  ∃ T o hq,
    get_query sourceInstance (VRef (length (w_heap w)))
      (with_heap w (w_heap w ++ [CObj (set_options given)]))
    = (inr (T, o, false), with_heap w hq)
    ∧ scope_disabled T
    ∧ hq !! length (w_heap w) = Some (CObj (set_options given))
    ∧ (∀ l, l < length (w_heap w) → hq !! l = w_heap w !! l)
    ∧ set sourceInstance associatedInstance options w
      = bind (perform (FindOne T o))
          (relink customGetters db engine this sourceInstance associatedInstance
             (VRef (length (w_heap w))))
          (with_heap w hq).
Proof.
  intros Hg Hi. unfold set.
  step the_heap_run. rewrite Hg. step lift_run. step new_run.
  set (w1 := with_heap w (w_heap w ++ [CObj (set_options given)])).
  assert (options_given (w_heap w1) (VRef (length (w_heap w))) (set_options given))
    as Ho by apply deref_new.
  assert (is_record (w_heap w1) sourceInstance) as Hi1.
  { eapply is_record_prefix; [|exact Hi]. by apply prefix_app_r. }
  destruct (get_query_one w1 sourceInstance _ _ Ho Hi1)
    as (h0 & ps1 & key & Hp & Hps & Hkey & Hq).
  exists (find_target ps1), (VRef (length h0)),
    (query_heap (h0 ++ [CObj ps1]) (length (w_heap w1)) (length h0) ps1 [] key).
  split; [exact Hq|]. split; [|split; [|split]].
  - eapply find_target_scope_disabled; [apply set_options_scope | exact Hps].
  - rewrite query_heap_frame; [apply (deref_new _ _ [])|exact Hp|].
    simpl. rewrite length_app. simpl. lia.
  - intros l Hl. rewrite query_heap_frame; [|exact Hp|].
    + simpl. by rewrite lookup_app_l.
    + simpl. rewrite length_app. simpl. lia.
  - change (with_heap w (w_heap w ++ [CObj (set_options given)])) with w1.
    unfold bind at 1. rewrite (get_run_one _ _ _ _ _ _ Hq).
    unfold bind. by destruct (perform _ _) as [[?|?] ?].
Qed.

Lemma own_string_props_insert h l m dv dv' v :
  h !! l = Some (CInst m dv) →
  own_string_props (<[l := CInst m dv']> h) v = own_string_props h v.
Proof.
  intros Hl. destruct v as [| | | | |l']; try done. simpl.
  destruct (decide (l = l')) as [<-|Hne].
  - rewrite Hl. rewrite list_lookup_insert_eq; [done|]. by eapply lookup_lt_Some.
  - by rewrite list_lookup_insert_ne.
Qed.

Lemma detach_run w h lo m dv options given :
  h !! lo = Some (CInst m dv) →
  own_string_props h options = inr given →
  detach db engine this (VRef lo) options (with_heap w h)
  = perform (Save (VRef lo) (VRef (S (S (length h)))))
      (with_heap w (detach_heap h lo m dv given)).
Proof.
  intros Hlo Hg. unfold detach. step the_heap_run.
  unfold instance_set. rewrite Hlo. step lift_run. step put_heap_run.
  rewrite (own_string_props_insert _ _ _ _ _ _ Hlo), Hg. step lift_run.
  step new_run. step new_run. step new_run.
  rewrite !length_app, length_insert. simpl.
  rewrite <-!(assoc_L (++)). simpl.
  by rewrite !Nat.add_1_r.
Qed.

Lemma detach_heap_old h lo m dv given :
  h !! lo = Some (CInst m dv) →
  detach_heap h lo m dv given !! lo
  = Some (CInst m (dict_set dv (foreignKey this) VNull)).
Proof.
  intros Hlo. unfold detach_heap. apply lookup_app_l_Some.
  apply list_lookup_insert_eq. by eapply lookup_lt_Some.
Qed.

Lemma detach_heap_options h lo m dv given :
  let hs := detach_heap h lo m dv given in
  hs !! length h = Some (CArr [VStr (foreignKey this)])
  ∧ hs !! S (length h) = Some (CArr [VStr (foreignKey this)])
  ∧ hs !! S (S (length h))
    = Some (CObj (detach_options given (VRef (length h)) (VRef (S (length h))))).
Proof.
  unfold detach_heap. repeat split.
  - rewrite lookup_app_r by (rewrite length_insert; lia).
    by rewrite length_insert, Nat.sub_diag.
  - rewrite lookup_app_r by (rewrite length_insert; lia).
    rewrite length_insert. by replace (S (length h) - length h) with 1 by lia.
  - rewrite lookup_app_r by (rewrite length_insert; lia).
    rewrite length_insert. by replace (S (S (length h)) - length h) with 2 by lia.
Qed.

Lemma detach_options_get given fields allowNull :
  dict_get (detach_options given fields allowNull) (KStr "fields") = Some fields
  ∧ dict_get (detach_options given fields allowNull) (KStr "allowNull")
    = Some allowNull
  ∧ dict_get (detach_options given fields allowNull) (KStr "association")
    = Some (VBool true).
Proof. unfold detach_options. by rewrite !assign_props_get. Qed.

Lemma attach_candidate_record h associatedInstance :
  ∃ lc, (attach_candidate h associatedInstance).2 = VRef lc
        ∧ ∃ dv, (attach_candidate h associatedInstance).1 !! lc
                = Some (CInst (name (target this)) dv).
Proof.
  unfold attach_candidate, is_instance_of.
  destruct associatedInstance as [| | | | |l]; simpl;
    try (eexists; split; [reflexivity|]; eexists;
         rewrite lookup_app_r by lia;
         by replace (S (length h) - length h) with 1 by lia).
  destruct (h !! l) as [[?|?|m dv]|] eqn:E; simpl;
    try (eexists; split; [reflexivity|]; eexists;
         rewrite lookup_app_r by lia;
         by replace (S (length h) - length h) with 1 by lia).
  destruct (bool_decide (m = name (target this))) eqn:Em; simpl.
  - apply bool_decide_eq_true in Em as ->. eauto.
  - eexists; split; [reflexivity|]; eexists.
    rewrite lookup_app_r by lia.
    by replace (S (length h) - length h) with 1 by lia.
Qed.

Lemma attach_candidate_prefix h associatedInstance :
  h `prefix_of` (attach_candidate h associatedInstance).1.
Proof.
  unfold attach_candidate. destruct (is_instance_of _ _ _); simpl;
    [done | by apply prefix_app_r].
Qed.

Lemma is_record_insert h l m dv dv' v :
  h !! l = Some (CInst m dv) →
  is_record h v → is_record (<[l := CInst m dv']> h) v.
Proof.
  intros Hl (m' & dv'' & Hv). destruct v as [| | | | |l']; try done. simpl in *.
  destruct (decide (l = l')) as [<-|Hne].
  - exists m, dv'. simpl. apply list_lookup_insert_eq. by eapply lookup_lt_Some.
  - exists m', dv''. simpl. by rewrite list_lookup_insert_ne.
Qed.

(** [attach] reaches its save whenever the source is a record: the
    record saved is the candidate or the record built on it, and it
    holds the key read from the source under the foreign key name. *)
Lemma attach_run w h sourceInstance associatedInstance options :
  is_record h sourceInstance →
  ∃ ha key m dv,
    attach customGetters db engine this sourceInstance associatedInstance options
      (with_heap w h)
    = perform (Save (attach_candidate h associatedInstance).2 options)
        (with_heap w ha)
    ∧ deref ha (attach_candidate h associatedInstance).2 = Some (CInst m dv)
    ∧ dict_get dv (foreignKey this) = Some key
    ∧ (sourceInstance ≠ (attach_candidate h associatedInstance).2 →
       instance_get false h sourceInstance (sourceKeyAttribute this) = inr key).
Proof.
  intros Hsrc.
  destruct (attach_candidate_record h associatedInstance) as (lc & Hc & dvc & Hlc).
  pose proof (attach_candidate_prefix h associatedInstance) as Hpre.
  set (h2 := (attach_candidate h associatedInstance).1) in *.
  set (dvs := match scope this with
              | Some sc => assign_dict dvc sc
              | None => dvc
              end).
  set (h3 := <[lc := CInst (name (target this)) dvs]> h2).
  assert (is_record h3 sourceInstance) as Hsrc3.
  { eapply is_record_insert; [exact Hlc|]. by eapply is_record_prefix. }
  destruct (instance_get_record false h3 sourceInstance
              (sourceKeyAttribute this) Hsrc3) as [key Hkey].
  exists (<[lc := CInst (name (target this)) (dict_set dvs (foreignKey this) key)]> h3),
    key, (name (target this)), (dict_set dvs (foreignKey this) key).
  assert (lc < length h2) as Hlt by by eapply lookup_lt_Some.
  split; [|split; [|split]].
  - unfold attach. step the_heap_run.
    assert ((if negb (is_instance_of h associatedInstance (name (target this)))
             then
               let pk := default "undefined" (primaryKeyAttribute (target this)) in
               _ <- new (CObj [(KStr pk, associatedInstance)]) ;;
               build db this pk associatedInstance
             else ret associatedInstance) (with_heap w h)
            = (inr (VRef lc), with_heap w h2)) as Hb.
    { rewrite <-Hc. unfold h2, attach_candidate.
      destruct (is_instance_of h associatedInstance (name (target this))); simpl;
        [done|].
      unfold build. step new_run. rewrite new_run. simpl.
      rewrite length_app, <-(assoc_L (++)). simpl.
      by rewrite !Nat.add_1_r. }
    rewrite (bind_ok _ _ _ _ _ Hb). step the_heap_run.
    assert (instance_assign h2 (VRef lc) (scope this) = inr h3) as Ha.
    { unfold instance_assign, h3, dvs. destruct (scope this); [by rewrite Hlc|].
      by rewrite list_insert_id. }
    rewrite Ha. step lift_run. rewrite Hkey. step lift_run.
    unfold instance_set. unfold h3 at 1.
    rewrite list_lookup_insert_eq by done. step lift_run. step put_heap_run.
    by rewrite Hc.
  - rewrite Hc. simpl. apply list_lookup_insert_eq. unfold h3.
    by rewrite length_insert.
  - apply dict_get_set_eq.
  - rewrite Hc. intros Hne.
    assert (instance_get false h2 sourceInstance (sourceKeyAttribute this)
            = inr key) as Hk2.
    { unfold instance_get in *. destruct sourceInstance as [| | | | |l]; try done.
      simpl in *. unfold h3 in Hkey.
      rewrite list_lookup_insert_ne in Hkey by congruence. done. }
    destruct Hsrc as (ms & dvs' & Hs). unfold instance_get in *.
    rewrite Hs. by rewrite (deref_prefix _ _ _ _ Hpre Hs) in Hk2.
Qed.

(** Nothing is saved when the candidate is the linked record, or when
    there is neither a linked record nor a candidate. *)
Lemma relink_nothing w sourceInstance associatedInstance options oldInstance :
  already_associated (w_heap w) oldInstance associatedInstance = inr true
  ∨ (truthy oldInstance = false ∧ truthy associatedInstance = false) →
  relink customGetters db engine this sourceInstance associatedInstance options
    oldInstance w
  = (inr VNull, w).
Proof.
  intros H. unfold relink. step the_heap_run.
  destruct H as [->|[Ho Ha]].
  - step lift_run. rewrite !andb_false_r. by step ret_run.
  - unfold already_associated. rewrite Ho, Ha. simpl. step lift_run.
    by step ret_run.
Qed.

(** A linked record that is not the candidate is detached first; what
    follows waits for its save. *)
Lemma relink_detach w h sourceInstance associatedInstance options lo m dv given :
  h !! lo = Some (CInst m dv) →
  own_string_props h options = inr given →
  already_associated h (VRef lo) associatedInstance = inr false →
  relink customGetters db engine this sourceInstance associatedInstance options
    (VRef lo) (with_heap w h)
  = bind (perform (Save (VRef lo) (VRef (S (S (length h))))))
      (λ _, if truthy associatedInstance
            then attach customGetters db engine this sourceInstance
                   associatedInstance options
            else ret VNull)
      (with_heap w (detach_heap h lo m dv given)).
Proof.
  intros Hlo Hg Ha. unfold relink. step the_heap_run. rewrite Ha. step lift_run.
  simpl. rewrite andb_true_r. unfold bind at 1.
  rewrite (detach_run _ _ _ _ _ _ _ Hlo Hg). unfold bind.
  by destruct (perform _ _) as [[?|?] ?].
Qed.

Lemma world_eta w : w = with_heap w (w_heap w).
Proof. by destruct w. Qed.

(** C8. [set] reads the linked record with a query on the target with
    its scope removed, whatever the caller's options say; and when that
    read finds no record and the candidate is null or absent, [set]
    resolves to null after this one call, without any save. *)
Theorem set_reads_unscoped w sourceInstance associatedInstance options given :
  own_string_props (w_heap w) options = inr given →
  is_record (w_heap w) sourceInstance →
  ∃ T o hq,
    get_query sourceInstance (VRef (length (w_heap w)))
      (with_heap w (w_heap w ++ [CObj (set_options given)]))
    = (inr (T, o, false), with_heap w hq)
    ∧ scope_disabled T
    ∧ (∃ rest,
         w_log (set sourceInstance associatedInstance options w).2
         = w_log w ++ {| ev_call := FindOne T o; ev_heap := hq |} :: rest)
    ∧ (truthy associatedInstance = false →
       ∀ oldInstance he d1,
         engine (FindOne T o) hq (w_db w) = (inr oldInstance, he, d1) →
         truthy oldInstance = false →
         set sourceInstance associatedInstance options w
         = (inr VNull,
            {| w_heap := he; w_db := d1;
               w_log := w_log w ++ [{| ev_call := FindOne T o; ev_heap := hq |}] |})).
Proof.
  intros Hg Hi.
  destruct (set_run_find w sourceInstance associatedInstance options given Hg Hi)
    as (T & o & hq & Hq & HT & _ & _ & Hset).
  exists T, o, hq. split; [exact Hq|]. split; [exact HT|].
  rewrite Hset. unfold bind. rewrite perform_run. unfold after_call. simpl.
  split.
  - destruct (engine (FindOne T o) hq (w_db w)) as [[[e|old] he] d1]; simpl.
    + by exists [].
    + match goal with
      | |- context [relink _ _ _ _ ?a ?b ?c ?d ?w'] =>
          destruct (extends_log_relink a b c d w') as [rest Hrest]
      end.
      exists rest. rewrite Hrest. simpl. by rewrite <-(assoc_L (++)).
  - intros Ha old he d1 He Ho. rewrite He. simpl.
    by rewrite relink_nothing by (right; done).
Qed.

(** When the record [set] finds is the candidate, a record or a truthy
    key, nothing is saved: the read is the only call. *)
Lemma set_same_candidate w sourceInstance associatedInstance options given :
  own_string_props (w_heap w) options = inr given →
  is_record (w_heap w) sourceInstance →
  ∃ T o hq,
    get_query sourceInstance (VRef (length (w_heap w)))
      (with_heap w (w_heap w ++ [CObj (set_options given)]))
    = (inr (T, o, false), with_heap w hq)
    ∧ ∀ oldInstance he d1,
        engine (FindOne T o) hq (w_db w) = (inr oldInstance, he, d1) →
        already_associated he oldInstance associatedInstance = inr true →
        set sourceInstance associatedInstance options w
        = (inr VNull,
           {| w_heap := he; w_db := d1;
              w_log := w_log w ++ [{| ev_call := FindOne T o; ev_heap := hq |}] |}).
Proof.
  intros Hg Hi.
  destruct (set_run_find w sourceInstance associatedInstance options given Hg Hi)
    as (T & o & hq & Hq & _ & _ & _ & Hset).
  exists T, o, hq. split; [exact Hq|].
  intros old he d1 He Ha. rewrite Hset. unfold bind.
  rewrite perform_run. unfold after_call. simpl. rewrite He. simpl.
  by rewrite relink_nothing by (left; done).
Qed.

(** C7. When [set] finds a linked record that is not the candidate, it
    first saves that record with its foreign key set to null, with
    options that name only that field, allow it to be null and mark the
    save as the association's own; the save of the candidate, with the
    foreign key set, is made only after this save has resolved, and not
    at all when it is rejected. *)
Theorem set_detach_before_attach w sourceInstance associatedInstance options given :
  own_string_props (w_heap w) options = inr given →
  is_record (w_heap w) sourceInstance →
  truthy associatedInstance = true →
  ∃ T o hq,
    get_query sourceInstance (VRef (length (w_heap w)))
      (with_heap w (w_heap w ++ [CObj (set_options given)]))
    = (inr (T, o, false), with_heap w hq)
    ∧ hq !! length (w_heap w) = Some (CObj (set_options given))
    ∧ (∀ l, l < length (w_heap w) → hq !! l = w_heap w !! l)
    ∧ ∀ lo he d1 m dv given1,
        engine (FindOne T o) hq (w_db w) = (inr (VRef lo), he, d1) →
        he !! lo = Some (CInst m dv) →
        own_string_props he (VRef (length (w_heap w))) = inr given1 →
        already_associated he (VRef lo) associatedInstance = inr false →
        let find := {| ev_call := FindOne T o; ev_heap := hq |} in
        let hs := detach_heap he lo m dv given1 in
        let so := S (S (length he)) in
        let detach := {| ev_call := Save (VRef lo) (VRef so); ev_heap := hs |} in
        instance_get true hs (VRef lo) (foreignKey this) = inr VNull
        ∧ (∃ psd,
             hs !! so = Some (CObj psd)
             ∧ dict_get psd (KStr "fields") = Some (VRef (length he))
             ∧ hs !! length he = Some (CArr [VStr (foreignKey this)])
             ∧ dict_get psd (KStr "allowNull") = Some (VRef (S (length he)))
             ∧ hs !! S (length he) = Some (CArr [VStr (foreignKey this)])
             ∧ dict_get psd (KStr "association") = Some (VBool true))
        ∧ (∀ e h2 d2,
             engine (Save (VRef lo) (VRef so)) hs d1 = (inl e, h2, d2) →
             set sourceInstance associatedInstance options w
             = (inl e, {| w_heap := h2; w_db := d2;
                          w_log := w_log w ++ [find; detach] |}))
        ∧ (∀ r h2 d2,
             engine (Save (VRef lo) (VRef so)) hs d1 = (inr r, h2, d2) →
             is_record h2 sourceInstance →
             ∃ ha key mc dvc,
               let saved := (attach_candidate h2 associatedInstance).2 in
               let attach :=
                 {| ev_call := Save saved (VRef (length (w_heap w)));
                    ev_heap := ha |} in
               set sourceInstance associatedInstance options w
               = ((engine (ev_call attach) ha d2).1.1,
                  {| w_heap := (engine (ev_call attach) ha d2).1.2;
                     w_db := (engine (ev_call attach) ha d2).2;
                     w_log := w_log w ++ [find; detach; attach] |})
               ∧ deref ha saved = Some (CInst mc dvc)
               ∧ dict_get dvc (foreignKey this) = Some key
               ∧ (sourceInstance ≠ saved →
                  instance_get false h2 sourceInstance (sourceKeyAttribute this)
                  = inr key)).
Proof.
  intros Hg Hi Hc.
  destruct (set_run_find w sourceInstance associatedInstance options given Hg Hi)
    as (T & o & hq & Hq & _ & Hopt & Hframe & Hset).
  exists T, o, hq. split; [exact Hq|]. split; [exact Hopt|]. split; [exact Hframe|].
  intros lo he d1 m dv given1 He Hlo Hg1 Ha find hs so detach.
  destruct (detach_heap_options he lo m dv given1) as (Hf & Hn & Hso).
  destruct (detach_options_get given1 (VRef (length he)) (VRef (S (length he))))
    as (Hgf & Hgn & Hga).
  split; [|split; [|split]].
  - unfold instance_get. simpl. unfold hs.
    rewrite (detach_heap_old _ _ _ _ _ Hlo). by rewrite dict_get_set_eq.
  - eexists. split; [exact Hso|]. done.
  - intros e h2 d2 Hs. rewrite Hset. unfold bind at 1.
    rewrite perform_run. unfold after_call. simpl. rewrite He. simpl.
    match goal with
    | |- relink _ _ _ _ _ _ _ _ ?w' = _ => rewrite (world_eta w')
    end. simpl.
    rewrite (relink_detach _ _ _ _ _ _ _ _ _ Hlo Hg1 Ha).
    unfold bind. rewrite perform_run. unfold after_call. simpl.
    fold hs so. rewrite Hs. simpl. by rewrite <-(assoc_L (++)).
  - intros r h2 d2 Hs Hi2. rewrite Hset. unfold bind at 1.
    rewrite perform_run. unfold after_call. simpl. rewrite He. simpl.
    match goal with
    | |- context [relink _ _ _ _ _ _ _ _ ?w'] => rewrite (world_eta w')
    end. simpl.
    rewrite (relink_detach _ _ _ _ _ _ _ _ _ Hlo Hg1 Ha).
    unfold bind. rewrite perform_run. unfold after_call. simpl.
    fold hs so. rewrite Hs, Hc. simpl.
    match goal with
    | |- context [attach _ _ _ _ _ _ _ ?w'] =>
        destruct (attach_run w' h2 sourceInstance associatedInstance
                    (VRef (length (w_heap w))) Hi2)
          as (ha & key & mc & dvc & Hatt & Hsaved & Hkey & Hsrc)
    end.
    exists ha, key, mc, dvc. unfold with_heap in Hatt. simpl in Hatt. simpl.
    split; [|done]. rewrite Hatt, perform_run. unfold after_call. simpl.
    by rewrite <-!(assoc_L (++)).
Qed.

(** *** The runs of [create] *)

Lemma push_field_run w h lo ops x :
  h !! lo = Some (CObj ops) →
  fields_ok h ops →
  push_field db (VRef lo) x (with_heap w h) = (inr tt, with_heap w (push h ops [x])).
Proof.
  intros Hlo Hf. unfold push_field. step the_heap_run.
  unfold get_prop. simpl. rewrite Hlo. step lift_run. unfold push.
  destruct Hf as [Hf|(lf & fs & Hf & Hlf)].
  - rewrite Hf. rewrite ret_run. by destruct (prop ops "fields").
  - rewrite Hf. simpl. rewrite Hlf. by rewrite put_heap_run.
Qed.

Lemma push_lookup h ops names l c :
  h !! l = Some (CObj c) ∨ (∃ m dv, h !! l = Some (CInst m dv)) →
  push h ops names !! l = h !! l.
Proof.
  intros Hl. unfold push. destruct (prop ops "fields") as [| | | | |lf]; try done.
  destruct (h !! lf) as [[?|fs|? ?]|] eqn:E; try done.
  rewrite list_lookup_insert_ne; [done|]. intros <-.
  destruct Hl as [Hl|(? & ? & Hl)]; congruence.
Qed.

Lemma push_insert h ops names l c c' :
  h !! l = Some (CObj c) →
  push (<[l := CObj c']> h) ops names = <[l := CObj c']> (push h ops names).
Proof.
  intros Hl. unfold push. destruct (prop ops "fields") as [| | | | |lf]; try done.
  destruct (decide (l = lf)) as [<-|Hne].
  - rewrite Hl. rewrite list_lookup_insert_eq; [done|]. by eapply lookup_lt_Some.
  - rewrite list_lookup_insert_ne by done.
    destruct (h !! lf) as [[?|fs|? ?]|]; try done.
    by rewrite list_insert_insert_ne.
Qed.

Lemma push_push h ops a b : push (push h ops a) ops b = push h ops (a ++ b).
Proof.
  unfold push. destruct (prop ops "fields") as [| | | | |lf]; try done.
  destruct (h !! lf) as [[?|fs|? ?]|] eqn:E; rewrite ?E; try done.
  rewrite list_lookup_insert_eq by by eapply lookup_lt_Some.
  by rewrite list_insert_insert_eq, fmap_app, (assoc_L (++)).
Qed.

Lemma fields_ok_push h ops names : fields_ok h ops → fields_ok (push h ops names) ops.
Proof.
  intros [Hf|(lf & fs & Hf & Hlf)]; [by left|]. right.
  exists lf, (fs ++ (VStr <$> names)). split; [done|].
  unfold push. rewrite Hf, Hlf. apply list_lookup_insert_eq.
  by eapply lookup_lt_Some.
Qed.

Lemma fields_ok_insert h ops l c c' :
  h !! l = Some (CObj c) → fields_ok h ops → fields_ok (<[l := CObj c']> h) ops.
Proof.
  intros Hl [Hf|(lf & fs & Hf & Hlf)]; [by left|]. right.
  exists lf, fs. split; [done|]. rewrite list_lookup_insert_ne; [done|].
  intros <-. congruence.
Qed.

Lemma push_nil h ops : push h ops [] = h.
Proof.
  unfold push. destruct (prop ops "fields") as [| | | | |lf]; try done.
  destruct (h !! lf) as [[?|fs|? ?]|] eqn:E; try done.
  simpl. rewrite app_nil_r. by apply list_insert_id.
Qed.

(** Lines 250-255: the loop over the names of the scope. *)
Lemma create_scope_run w sc keys : ∀ h lv lo vps ops,
  h !! lv = Some (CObj vps) →
  h !! lo = Some (CObj ops) →
  lv ≠ lo →
  fields_ok h ops →
  create_scope db sc keys (VRef lv) (VRef lo) (with_heap w h)
  = (inr tt,
     with_heap w (push (<[lv := CObj (assign_keys vps sc keys)]> h) ops keys)).
Proof.
  induction keys as [|k keys IH]; intros h lv lo vps ops Hlv Hlo Hne Hf.
  - simpl. rewrite ret_run, push_nil. by rewrite list_insert_id.
  - cbn [create_scope assign_keys]. step store_prop_run.
    set (x := default VUndef (dict_get sc k)).
    set (h1 := <[lv := CObj (dict_set vps (KStr k) x)]> h).
    assert (h1 !! lo = Some (CObj ops)) as Hlo1
      by by (unfold h1; rewrite list_lookup_insert_ne).
    assert (fields_ok h1 ops) as Hf1 by by eapply fields_ok_insert.
    step push_field_run.
    assert (h1 !! lv = Some (CObj (dict_set vps (KStr k) x))) as Hlv1.
    { unfold h1. apply list_lookup_insert_eq. by eapply lookup_lt_Some. }
    rewrite (IH (push h1 ops [k]) lv lo (dict_set vps (KStr k) x) ops).
    + do 2 f_equal.
      rewrite <-(push_insert h1 ops [k] lv (dict_set vps (KStr k) x)) by done.
      unfold h1. by rewrite list_insert_insert_eq, push_push.
    + by rewrite (push_lookup _ _ _ _ (dict_set vps (KStr k) x)) by (by left).
    + by rewrite (push_lookup _ _ _ _ ops) by (by left).
    + done.
    + by apply fields_ok_push.
Qed.

Lemma create_run w sourceInstance values options h2 lv lo vps ops :
  create_args (w_heap w) values options = (h2, VRef lv, VRef lo) →
  h2 !! lv = Some (CObj vps) →
  h2 !! lo = Some (CObj ops) →
  lv ≠ lo →
  fields_ok h2 ops →
  is_record h2 sourceInstance →
  ∃ key,
    instance_get false h2 sourceInstance (sourceKeyAttribute this) = inr key
    ∧ create sourceInstance values options w
      = perform (Create (VRef lv) (VRef lo))
          (with_heap w (create_heap h2 lv vps ops key)).
Proof.
  intros Hargs Hlv Hlo Hne Hf Hsrc.
  destruct (instance_get_record false h2 sourceInstance
              (sourceKeyAttribute this) Hsrc) as [key Hkey].
  exists key. split; [done|]. unfold create.
  assert ((if truthy values then ret values else new (CObj [])) w
          = (inr (VRef lv),
             with_heap w (if truthy values then w_heap w else w_heap w ++ [CObj []])))
    as Hv.
  { unfold create_args in Hargs. destruct (truthy values).
    - rewrite ret_run, <-world_eta. f_equal. f_equal.
      by destruct (truthy options); injection Hargs as _ -> _.
    - rewrite new_run. f_equal. f_equal.
      by destruct (truthy options); injection Hargs as _ <- _. }
  rewrite (bind_ok _ _ _ _ _ Hv). clear Hv.
  assert ((if truthy options then ret options else new (CObj []))
            (with_heap w (if truthy values then w_heap w else w_heap w ++ [CObj []]))
          = (inr (VRef lo), with_heap w h2)) as Ho.
  { unfold create_args in Hargs.
    destruct (truthy values), (truthy options); simpl in Hargs;
      injection Hargs as <- _ Ho; rewrite ?ret_run, ?new_run; simpl;
      by rewrite ?Ho. }
  rewrite (bind_ok _ _ _ _ _ Ho). clear Ho.
  set (names := scope_names).
  set (hA := push (<[lv := CObj (scoped_values vps)]> h2) ops names).
  assert (match scope this with
          | Some sc => create_scope db sc sc.*1 (VRef lv) (VRef lo)
          | None => ret tt
          end (with_heap w h2) = (inr tt, with_heap w hA)) as Hs.
  { unfold hA, names, scoped_values, scope_names.
    destruct (scope this) as [sc|].
    - by apply create_scope_run.
    - rewrite ret_run, push_nil. by rewrite list_insert_id. }
  rewrite (bind_ok _ _ _ _ _ Hs). clear Hs. step the_heap_run.
  assert (lv < length h2) as Hlt by by eapply lookup_lt_Some.
  assert (hA !! lv = Some (CObj (scoped_values vps))) as HlvA.
  { unfold hA. rewrite (push_lookup _ _ _ _ (scoped_values vps)).
    - by apply list_lookup_insert_eq.
    - left. by apply list_lookup_insert_eq. }
  assert (hA !! lo = Some (CObj ops)) as HloA.
  { unfold hA. rewrite (push_lookup _ _ _ _ ops);
      rewrite list_lookup_insert_ne; by eauto. }
  assert (instance_get false hA sourceInstance (sourceKeyAttribute this)
          = inr key) as HkeyA.
  { destruct Hsrc as (m & dv & Hs). unfold instance_get in *.
    rewrite Hs in Hkey. destruct sourceInstance as [| | | | |ls]; try done.
    simpl in *. unfold hA. rewrite (push_lookup _ _ _ _ []).
    - rewrite list_lookup_insert_ne by congruence. by rewrite Hs.
    - right. exists m, dv. by rewrite list_lookup_insert_ne by congruence. }
  rewrite HkeyA. step lift_run. step store_prop_run.
  assert (fields_ok hA ops) as HfA.
  { unfold hA. by apply fields_ok_push, (fields_ok_insert _ _ _ vps). }
  step push_field_run.
  - unfold create_heap, hA.
    rewrite <-(push_insert _ _ _ _ (scoped_values vps))
      by by apply list_lookup_insert_eq.
    by rewrite list_insert_insert_eq, push_push.
  - rewrite list_lookup_insert_ne by done. exact HloA.
  - by eapply fields_ok_insert.
Qed.

Lemma scoped_values_get vps a :
  dict_get (scoped_values vps) (KStr a)
  = match scope this ≫= (λ sc, dict_get sc a) with
    | Some v => Some v
    | None => dict_get vps (KStr a)
    end.
Proof.
  unfold scoped_values. destruct (scope this) as [sc|]; simpl; [|done].
  apply assign_props_get.
Qed.

Lemma length_push h ops names : length (push h ops names) = length h.
Proof.
  unfold push. destruct (prop ops "fields") as [| | | | |lf]; try done.
  destruct (h !! lf) as [[?|fs|? ?]|]; try done. apply length_insert.
Qed.

Section CreateHeap.
Variables (h : heap) (lv lo : loc) (vps ops : props) (key : value).
Hypothesis Hlv : h !! lv = Some (CObj vps).
Hypothesis Hlo : h !! lo = Some (CObj ops).
Hypothesis Hne : lv ≠ lo.

Let hc := create_heap h lv vps ops key.

Lemma create_heap_length : length hc = length h.
Proof. unfold hc, create_heap. by rewrite length_push, length_insert. Qed.

Lemma create_heap_values :
  hc !! lv
  = Some (CObj (dict_set (scoped_values vps) (KStr (foreignKey this)) key)).
Proof.
  unfold hc, create_heap.
  assert (lv < length h) by by eapply lookup_lt_Some.
  rewrite (push_lookup _ _ _ _
             (dict_set (scoped_values vps) (KStr (foreignKey this)) key)).
  - by apply list_lookup_insert_eq.
  - left. by apply list_lookup_insert_eq.
Qed.

Lemma create_heap_options : hc !! lo = Some (CObj ops).
Proof.
  unfold hc, create_heap.
  rewrite (push_lookup _ _ _ _ ops); rewrite list_lookup_insert_ne; by eauto.
Qed.

Lemma create_heap_fields lf fs :
  prop ops "fields" = VRef lf →
  h !! lf = Some (CArr fs) →
  hc !! lf = Some (CArr (fs ++ (VStr <$> (scope_names ++ [foreignKey this])))).
Proof.
  intros Hf Hlf. unfold hc, create_heap, push. rewrite Hf.
  assert (lv ≠ lf) by congruence.
  rewrite list_lookup_insert_ne by done. rewrite Hlf.
  apply list_lookup_insert_eq. rewrite length_insert. by eapply lookup_lt_Some.
Qed.

Lemma create_heap_frame l :
  l ≠ lv → prop ops "fields" ≠ VRef l → hc !! l = h !! l.
Proof.
  intros Hl Hf. unfold hc, create_heap, push.
  destruct (prop ops "fields") as [| | | | |lf];
    try by rewrite list_lookup_insert_ne.
  destruct (_ !! lf) as [[?|fs|? ?]|]; try by rewrite list_lookup_insert_ne.
  rewrite list_lookup_insert_ne by congruence.
  by rewrite list_lookup_insert_ne.
Qed.
End CreateHeap.

(** The objects [create] works on are the caller's when the caller
    gives them, and new empty ones otherwise. *)
Lemma create_args_given h values options vps ops :
  options_given h values vps →
  options_given h options ops →
  (truthy values = true → values ≠ options) →
  ∃ h2 lv lo,
    create_args h values options = (h2, VRef lv, VRef lo)
    ∧ h `prefix_of` h2
    ∧ h2 !! lv = Some (CObj vps)
    ∧ h2 !! lo = Some (CObj ops)
    ∧ lv ≠ lo
    ∧ (truthy values = true → values = VRef lv)
    ∧ (truthy options = true → options = VRef lo)
    ∧ (truthy values = true → truthy options = true → h2 = h).
Proof.
  unfold options_given, create_args. intros Hv Ho Hne.
  destruct (truthy values) eqn:Etv, (truthy options) eqn:Eto; simpl.
  - destruct values as [| | | | |lv]; try done.
    destruct options as [| | | | |lo]; try done. simpl in *.
    exists h, lv, lo. repeat split; try done. intros ->. by apply Hne.
  - destruct values as [| | | | |lv]; try done. simpl in *. subst ops.
    exists (h ++ [CObj []]), lv, (length h).
    repeat split; try done.
    + by apply prefix_app_r.
    + by apply lookup_app_l_Some.
    + by apply list_lookup_middle.
    + apply lookup_lt_Some in Hv. lia.
  - destruct options as [| | | | |lo]; try done. simpl in *. subst vps.
    exists (h ++ [CObj []]), (length h), lo.
    repeat split; try done.
    + by apply prefix_app_r.
    + by apply list_lookup_middle.
    + by apply lookup_app_l_Some.
    + apply lookup_lt_Some in Ho. lia.
  - subst vps ops.
    exists ((h ++ [CObj []]) ++ [CObj []]), (length h), (length (h ++ [CObj []])).
    repeat split; try done.
    + rewrite <-(assoc_L (++)). by apply prefix_app_r.
    + rewrite <-(assoc_L (++)). by apply list_lookup_middle.
    + by apply list_lookup_middle.
    + rewrite length_app. simpl. lia.
Qed.

Lemma fields_ok_prefix h h' ops : h `prefix_of` h' → fields_ok h ops → fields_ok h' ops.
Proof.
  intros [ext ->] [Hf|(lf & fs & Hf & Hlf)]; [by left|]. right.
  exists lf, fs. split; [done | by apply lookup_app_l_Some].
Qed.

(** C9, as amended. [create] makes one call, the target's create, and
    its outcome, a record or a rejection, is that of the call. The
    values of the call hold the source record's source-key value under
    the foreign key name; under every other name they hold the entry
    of the relationship scope when the scope has one, and the caller's
    entry otherwise. An array given as [options.fields] has the names
    of the scope and then the foreign key name appended. *)
Theorem create_values w sourceInstance values options vps ops :
  is_record (w_heap w) sourceInstance →
  options_given (w_heap w) values vps →
  options_given (w_heap w) options ops →
  (truthy values = true → values ≠ options) →
  fields_ok (w_heap w) ops →
  ∃ lv lo hc key vps',
    instance_get false (w_heap w) sourceInstance (sourceKeyAttribute this) = inr key
    ∧ create sourceInstance values options w
      = ((engine (Create (VRef lv) (VRef lo)) hc (w_db w)).1.1,
         {| w_heap := (engine (Create (VRef lv) (VRef lo)) hc (w_db w)).1.2;
            w_db := (engine (Create (VRef lv) (VRef lo)) hc (w_db w)).2;
            w_log := w_log w ++ [{| ev_call := Create (VRef lv) (VRef lo);
                                    ev_heap := hc |}] |})
    ∧ hc !! lv = Some (CObj vps')
    ∧ dict_get vps' (KStr (foreignKey this)) = Some key
    ∧ (∀ a, a ≠ foreignKey this →
            dict_get vps' (KStr a)
            = match scope this ≫= (λ sc, dict_get sc a) with
              | Some v => Some v
              | None => dict_get vps (KStr a)
              end)
    ∧ hc !! lo = Some (CObj ops)
    ∧ (∀ lf fs, prop ops "fields" = VRef lf →
                w_heap w !! lf = Some (CArr fs) →
                hc !! lf
                = Some (CArr (fs ++ (VStr <$> (scope_names ++ [foreignKey this]))))).
Proof.
  intros Hsrc Hv Ho Hne Hf.
  destruct (create_args_given _ _ _ _ _ Hv Ho Hne)
    as (h2 & lv & lo & Hargs & Hpre & Hlv & Hlo & Hvo & _).
  destruct (create_run w sourceInstance values options h2 lv lo vps ops Hargs
              Hlv Hlo Hvo (fields_ok_prefix _ _ _ Hpre Hf)
              (is_record_prefix _ _ _ Hpre Hsrc)) as (key & Hkey & Hrun).
  exists lv, lo, (create_heap h2 lv vps ops key), key,
    (dict_set (scoped_values vps) (KStr (foreignKey this)) key).
  split.
  { destruct Hsrc as (m & dv & Hs). unfold instance_get in *.
    by rewrite (deref_prefix _ _ _ _ Hpre Hs) in Hkey; rewrite Hs. }
  split; [by rewrite Hrun, perform_run|].
  split; [by apply create_heap_values|].
  split; [apply dict_get_set_eq|].
  split.
  { intros a Ha. rewrite dict_get_set_ne by congruence. apply scoped_values_get. }
  split; [by apply create_heap_options|].
  intros lf fs Hff Hlf. eapply create_heap_fields; [done | done |].
  destruct Hpre as [ext ->]. by apply lookup_app_l_Some.
Qed.

(** *** What [create] and [get] do to the caller's objects *)

(** [get] works on a clone: the options of its query are a new cell,
    and every cell of the caller is as it was when the query is made. *)
Lemma get_leaves_store w instances options ps :
  options_given (w_heap w) options ps →
  is_record (w_heap w) instances
  ∨ (∃ vs, deref (w_heap w) instances = Some (CArr vs)
           ∧ Forall (is_record (w_heap w)) vs) →
  ∃ e T lo' ps1 wv,
    w_log (get instances options w).2 = w_log w ++ [e]
    ∧ (ev_call e = FindOne T (VRef lo') ∨ ev_call e = FindAll T (VRef lo'))
    ∧ length (w_heap w) < lo'
    ∧ (∀ l, l < length (w_heap w) → ev_heap e !! l = w_heap w !! l)
    ∧ ev_heap e !! lo' = Some (CObj (dict_set ps1 (KStr "where") wv))
    ∧ props_cloned ps ps1.
Proof.
  intros Ho [Hi|(vs & Hi & Hvs)].
  - destruct (get_query_one w instances options ps Ho Hi)
      as (h0 & ps1 & key & Hp & Hps & Hkey & Hq).
    rewrite (get_run_one _ _ _ _ _ _ Hq), perform_run. simpl.
    eexists _, _, (length h0), ps1, _. split; [reflexivity|]. simpl.
    split; [by left|].
    split; [by destruct (query_heap_bounds _ _ ps1 Hp)|].
    split; [intros l Hl; by apply query_heap_frame|].
    split; [by apply query_heap_options | done].
  - destruct (get_query_many w instances options ps vs Ho Hi Hvs)
      as (h0 & ps1 & keys & Hp & Hps & Hkeys & Hq).
    rewrite (get_run_many _ _ _ _ _ _ Hq).
    eexists {| ev_call := _; ev_heap := _ |}, _, (length h0), ps1, _.
    split.
    { unfold bind at 1. rewrite perform_run.
      destruct (engine _ _ _).1.1; [reflexivity|].
      rewrite index_results_log. reflexivity. }
    simpl. split; [by right|].
    split; [by destruct (query_heap_bounds _ _ ps1 Hp)|].
    split; [intros l Hl; by apply query_heap_frame|].
    split; [by apply query_heap_options | done].
Qed.

(** C10, as amended. [create], given a values object and an options
    object that are two distinct plain objects, hands these very
    objects to the target's create, with no cell added to the store: by
    then the caller's values hold the foreign key entry and, under every
    other name of the relationship scope, the scope's entry in place of
    the caller's; the caller's [options.fields] array, when there is
    one, has the names of the scope and the foreign key name appended;
    every other cell is as it was. [get] hands a clone of its options to
    the engine, a new cell, and every cell of the store of the call is
    as it was when the query is made. *)
Theorem create_mutates_get_clones w :
  (∀ sourceInstance lv lo vps ops,
     is_record (w_heap w) sourceInstance →
     w_heap w !! lv = Some (CObj vps) →
     w_heap w !! lo = Some (CObj ops) →
     lv ≠ lo →
     fields_ok (w_heap w) ops →
     ∃ hc key vps',
       w_log (create sourceInstance (VRef lv) (VRef lo) w).2
       = w_log w ++ [{| ev_call := Create (VRef lv) (VRef lo); ev_heap := hc |}]
       ∧ length hc = length (w_heap w)
       ∧ instance_get false (w_heap w) sourceInstance (sourceKeyAttribute this)
         = inr key
       ∧ hc !! lv = Some (CObj vps')
       ∧ dict_get vps' (KStr (foreignKey this)) = Some key
       ∧ (∀ a, a ≠ foreignKey this →
               dict_get vps' (KStr a)
               = match scope this ≫= (λ sc, dict_get sc a) with
                 | Some v => Some v
                 | None => dict_get vps (KStr a)
                 end)
       ∧ (∀ lf fs, prop ops "fields" = VRef lf →
                   w_heap w !! lf = Some (CArr fs) →
                   hc !! lf
                   = Some (CArr (fs ++ (VStr <$> (scope_names
                                                  ++ [foreignKey this])))))
       ∧ (∀ l, l ≠ lv → prop ops "fields" ≠ VRef l → hc !! l = w_heap w !! l))
  ∧ (∀ instances options ps,
       options_given (w_heap w) options ps →
       is_record (w_heap w) instances
       ∨ (∃ vs, deref (w_heap w) instances = Some (CArr vs)
                ∧ Forall (is_record (w_heap w)) vs) →
       ∃ e T lo' ps1 wv,
         w_log (get instances options w).2 = w_log w ++ [e]
         ∧ (ev_call e = FindOne T (VRef lo') ∨ ev_call e = FindAll T (VRef lo'))
         ∧ length (w_heap w) < lo'
         ∧ (∀ l, l < length (w_heap w) → ev_heap e !! l = w_heap w !! l)
         ∧ ev_heap e !! lo' = Some (CObj (dict_set ps1 (KStr "where") wv))
         ∧ props_cloned ps ps1).
Proof.
  split; [|apply get_leaves_store].
  intros sourceInstance lv lo vps ops Hsrc Hlv Hlo Hne Hf.
  destruct (create_run w sourceInstance (VRef lv) (VRef lo) (w_heap w) lv lo vps ops
              eq_refl Hlv Hlo Hne Hf Hsrc) as (key & Hkey & Hrun).
  exists (create_heap (w_heap w) lv vps ops key), key,
    (dict_set (scoped_values vps) (KStr (foreignKey this)) key).
  split; [by rewrite Hrun, perform_run|].
  split; [apply create_heap_length|].
  split; [done|].
  split; [by apply create_heap_values|].
  split; [apply dict_get_set_eq|].
  split.
  { intros a Ha. rewrite dict_get_set_ne by congruence. apply scoped_values_get. }
  split; [intros lf fs; by apply create_heap_fields|].
  intros l; by apply create_heap_frame.
Qed.

(** *** Further runs of [get] *)

(** X5. For one source record [get] makes one call, the target's
    find-one, and its outcome is the outcome of that call: the record
    or null the engine answers, or its rejection. *)
Theorem get_one_outcome w instance options ps :
  options_given (w_heap w) options ps →
  is_record (w_heap w) instance →
  ∃ T o hq,
    get_query instance options w = (inr (T, o, false), with_heap w hq)
    ∧ get instance options w
      = ((engine (FindOne T o) hq (w_db w)).1.1,
         {| w_heap := (engine (FindOne T o) hq (w_db w)).1.2;
            w_db := (engine (FindOne T o) hq (w_db w)).2;
            w_log := w_log w ++ [{| ev_call := FindOne T o; ev_heap := hq |}] |}).
Proof.
  intros Ho Hi.
  destruct (get_query_one w instance options ps Ho Hi)
    as (h0 & ps1 & key & Hp & Hps & Hkey & Hq).
  eexists _, _, _. split; [exact Hq|].
  by rewrite (get_run_one _ _ _ _ _ _ Hq), perform_run.
Qed.

Lemma find_target_cloned ps ps1 :
  props_cloned ps ps1 →
  is_ref (prop ps "scope") = false →
  is_ref (prop ps "schema") = false →
  is_ref (prop ps "schemaDelimiter") = false →
  find_target ps1 = find_target ps.
Proof.
  intros Hc Hs Hsc Hd.
  assert (∀ k, is_ref (prop ps (KStr k)) = false →
               dict_get ps1 (KStr k) = dict_get ps (KStr k)) as Heq.
  { intros k Hk. specialize (Hc (KStr k)). unfold prop in Hk.
    destruct (dict_get ps (KStr k)) as [v|], (dict_get ps1 (KStr k)) as [v'|];
      try done.
    simpl in Hk. by rewrite (clone_of_scalar _ _ Hk Hc). }
  unfold find_target, prop.
  by rewrite (Heq "scope" Hs), (Heq "schema" Hsc), (Heq "schemaDelimiter" Hd).
Qed.

(** X6. The query of [get] goes to the model the caller's own options
    select: the target itself when the options have no [scope]
    property; the target without its default scope when they have one
    that is falsy, [undefined] included; the target under that scope
    when it is truthy; and, on top of that, under [options.schema]
    with [options.schemaDelimiter] when the options have a [schema]
    property. *)
Theorem get_target w instances options ps :
  options_given (w_heap w) options ps →
  is_record (w_heap w) instances
  ∨ (∃ vs, deref (w_heap w) instances = Some (CArr vs)
           ∧ Forall (is_record (w_heap w)) vs) →
  is_ref (prop ps "scope") = false →
  is_ref (prop ps "schema") = false →
  is_ref (prop ps "schemaDelimiter") = false →
  ∃ e T o,
    w_log (get instances options w).2 = w_log w ++ [e]
    ∧ (ev_call e = FindOne T o ∨ ev_call e = FindAll T o)
    ∧ T = (let base :=
             match dict_get ps (KStr "scope") with
             | Some s => if truthy s then Scoped Target s else Unscoped Target
             | None => Target
             end in
           match dict_get ps (KStr "schema") with
           | Some sc => Schema base sc (prop ps "schemaDelimiter")
           | None => base
           end).
Proof.
  intros Ho [Hi|(vs & Hi & Hvs)] Hs Hsc Hd.
  - destruct (get_query_one w instances options ps Ho Hi)
      as (h0 & ps1 & key & Hp & Hps & Hkey & Hq).
    rewrite (get_run_one _ _ _ _ _ _ Hq), perform_run. simpl.
    eexists _, _, _. split; [reflexivity|]. simpl. split; [by left|].
    by rewrite (find_target_cloned _ _ Hps Hs Hsc Hd).
  - destruct (get_query_many w instances options ps vs Ho Hi Hvs)
      as (h0 & ps1 & keys & Hp & Hps & Hkeys & Hq).
    rewrite (get_run_many _ _ _ _ _ _ Hq).
    eexists {| ev_call := _; ev_heap := _ |}, _, _. split.
    { unfold bind at 1. rewrite perform_run.
      destruct (engine _ _ _).1.1; [reflexivity|].
      rewrite index_results_log. reflexivity. }
    simpl. split; [by right|].
    by rewrite (find_target_cloned _ _ Hps Hs Hsc Hd).
Qed.

(** X7. An empty array of source records is no special case: [get]
    still makes its one find-all call, with an empty [Op.in] list for
    the foreign key, and when the engine answers with an empty array
    the mapping returned is the empty object. *)
Theorem get_empty_array w instances options ps :
  options_given (w_heap w) options ps →
  deref (w_heap w) instances = Some (CArr []) →
  ∃ T o hq i a,
    get_query instances options w = (inr (T, o, true), with_heap w hq)
    ∧ hq !! length (w_heap w) = Some (CObj (where_props (VRef i)))
    ∧ hq !! i = Some (CObj [(KSym OpIn, VRef a)])
    ∧ hq !! a = Some (CArr [])
    ∧ (∃ rest,
         w_log (get instances options w).2
         = w_log w ++ {| ev_call := FindAll T o; ev_heap := hq |} :: rest)
    ∧ ∀ results he d',
        engine (FindAll T o) hq (w_db w) = (inr results, he, d') →
        deref he results = Some (CArr []) →
        deref he instances = Some (CArr []) →
        get instances options w
        = (inr (VRef (length he)),
           {| w_heap := he ++ [CObj []]; w_db := d';
              w_log := w_log w ++ [{| ev_call := FindAll T o; ev_heap := hq |}] |}).
Proof.
  intros Ho Hi.
  destruct (get_query_many w instances options ps [] Ho Hi (Forall_nil_2 _))
    as (h0 & ps1 & keys & Hp & Hps & Hkeys & Hq).
  injection Hkeys as <-.
  destruct (query_heap_bounds _ _ ps1 Hp) as [Hno HlenH1].
  eexists _, _, _, (S (S (length h0))), (S (length h0)).
  split; [exact Hq|]. split; [by apply query_heap_where|].
  split.
  { rewrite query_heap_lookup; [|lia|lia|rewrite length_app; simpl; lia].
    rewrite lookup_app_r by lia. rewrite HlenH1.
    by replace (S (S (length h0)) - S (length h0)) with 1 by lia. }
  split.
  { rewrite query_heap_lookup; [|lia|lia|rewrite length_app; simpl; lia].
    rewrite lookup_app_r by lia. by rewrite HlenH1, Nat.sub_diag. }
  rewrite (get_run_many _ _ _ _ _ _ Hq). unfold bind. rewrite perform_run.
  unfold after_call. cbn [with_heap w_heap w_db w_log]. split.
  - destruct (engine _ _ _) as [[[e|r] he] d']; cbn [fst snd].
    + by exists [].
    + exists []. by rewrite index_results_log.
  - intros results he d' He Hr Hi'. rewrite He. cbn [fst snd].
    by rewrite (index_results_run _ _ _ [] []).
Qed.

(** X8. When several of the records the engine returns carry the same
    raw foreign-key value, the mapping holds the last of them: a
    returned record is the entry under its value unless a record later
    in the answer has that value too. *)
Theorem get_last_match_wins w instances options ps vs :
  options_given (w_heap w) options ps →
  deref (w_heap w) instances = Some (CArr vs) →
  Forall (is_record (w_heap w)) vs →
  ∃ T o hq,
    get_query instances options w = (inr (T, o, true), with_heap w hq)
    ∧ ∀ results he d' rs1 r rs2,
        engine (FindAll T o) hq (w_db w) = (inr results, he, d') →
        deref he results = Some (CArr (rs1 ++ r :: rs2)) →
        Forall (is_record he) (rs1 ++ r :: rs2) →
        deref he instances = Some (CArr vs) →
        Forall (is_record he) vs →
        (∀ r', r' ∈ rs2 →
               raw_key he (foreignKey this) r' ≠ raw_key he (foreignKey this) r) →
        ∃ res,
          get instances options w
          = (inr (VRef (length he)),
             {| w_heap := he ++ [CObj res]; w_db := d';
                w_log := w_log w ++ [{| ev_call := FindAll T o; ev_heap := hq |}] |})
          ∧ dict_get res (KStr (raw_key he (foreignKey this) r)) = Some r.
Proof.
  intros Ho Hi Hvs.
  destruct (get_query_many w instances options ps vs Ho Hi Hvs)
    as (h0 & ps1 & keys & Hp & Hps & Hkeys & Hq).
  eexists _, _, _. split; [exact Hq|].
  intros results he d' rs1 r rs2 He Hr Hrs Hi' Hvs' Hno.
  rewrite (get_run_many _ _ _ _ _ _ Hq). unfold bind. rewrite perform_run.
  unfold after_call. cbn [with_heap w_heap w_db w_log]. rewrite He. cbn [fst snd].
  rewrite (index_results_run _ _ _ (rs1 ++ r :: rs2) vs) by done.
  eexists. split; [reflexivity|]. by apply fill_targets_last.
Qed.

Lemma instance_get_no_record raw h h' v attr :
  h `prefix_of` h' → no_record h v → instance_get raw h' v attr = inl TypeError.
Proof.
  intros Hp [Hv|(c & Hc & Hno)]; unfold instance_get.
  - by rewrite deref_not_ref.
  - rewrite (deref_prefix _ _ _ _ Hp Hc). destruct c as [?|?|m dv]; try done.
    by destruct (Hno m dv).
Qed.

Lemma map_get_no_record raw h vs attr :
  Exists (λ v, instance_get raw h v attr = inl TypeError) vs →
  ∃ e, map_get raw h vs attr = inl e.
Proof.
  induction 1 as [v vs Hv|v vs _ [e IH]]; simpl.
  - rewrite Hv. by eexists.
  - destruct (instance_get raw h v attr); [by eexists|]. simpl.
    rewrite IH. by eexists.
Qed.

(** X9. When [get] is given neither a record nor an array of records
    - a primitive such as [undefined] or a key, or a plain object,
    alone or as an element of the array - it throws before any call
    is made to the engine. *)
Theorem get_throws_without_record w instances options ps :
  options_given (w_heap w) options ps →
  (no_record (w_heap w) instances
   ∧ ∀ vs, deref (w_heap w) instances ≠ Some (CArr vs))
  ∨ (∃ vs, deref (w_heap w) instances = Some (CArr vs)
           ∧ Exists (no_record (w_heap w)) vs) →
  ∃ e w', get instances options w = (inl e, w') ∧ w_log w' = w_log w.
Proof.
  intros Ho Hbad.
  assert (options_given (w_heap w ++ [CObj []]) options ps) as Ho'.
  { unfold options_given in *. destruct (truthy options); [|done].
    by apply deref_app_l. }
  destruct (cloneDeep_options_cloned _ _ _ Ho') as (h0 & ps1 & Hc & Hp & Hps).
  assert (w_heap w `prefix_of` (h0 ++ [CObj ps1])) as Hp'.
  { etrans; [apply prefix_app_r; reflexivity|].
    etrans; [exact Hp | by apply prefix_app_r]. }
  assert (∃ e w', get_query instances options w = (inl e, w') ∧ w_log w' = w_log w)
    as (e & w' & Hq & Hlog).
  { unfold get_query. step new_run. step the_heap_run. rewrite Hc.
    step put_heap_run. rewrite deref_new.
    destruct Hbad as [[Hno Harr]|(vs & Hi & Hex)].
    - assert (match deref (h0 ++ [CObj ps1]) instances with
              | Some (CArr vs) => Some vs
              | _ => None
              end = None) as ->.
      { destruct Hno as [Hv|(c & Hc' & Hno)]; [by rewrite deref_not_ref|].
        rewrite (deref_prefix _ _ _ _ Hp' Hc').
        destruct c as [?|vs|? ?]; try done. by destruct (Harr vs). }
      rewrite (instance_get_no_record false _ _ _ (sourceKey this) Hp' Hno).
      eexists _, _. unfold bind, lift. split; reflexivity.
    - rewrite (deref_prefix _ _ _ _ Hp' Hi).
      destruct (map_get_no_record false (h0 ++ [CObj ps1]) vs (sourceKey this))
        as [e He].
      { eapply Exists_impl; [exact Hex|]. intros v Hv.
        by apply (instance_get_no_record false (w_heap w)). }
      rewrite He. eexists _, _. unfold bind, lift. split; reflexivity. }
  exists e, w'. split; [|done]. unfold get, bind. by rewrite Hq.
Qed.

(** *** Further runs of [set] *)

Lemma assign_values_get dst src keys k :
  dict_get (assign_values dst src keys) k
  = if decide (k ∈ keys) then Some (default VUndef (dict_get src k))
    else dict_get dst k.
Proof.
  revert dst. induction keys as [|k0 keys IH]; intros dst; cbn [assign_values].
  - rewrite decide_False; [done | apply not_elem_of_nil].
  - rewrite IH. destruct (decide (k ∈ keys)) as [Hin|Hnin].
    + rewrite decide_True; [done | by apply list_elem_of_further].
    + rewrite dict_get_set. destruct (decide (k0 = k)) as [->|Hne].
      * rewrite decide_True; [done | apply list_elem_of_here].
      * rewrite decide_False; [done|]. rewrite elem_of_cons. intros [?|?]; congruence.
Qed.

Lemma assign_dict_get dst src k :
  dict_get (assign_dict dst src) k
  = match dict_get src k with
    | Some v => Some v
    | None => dict_get dst k
    end.
Proof.
  unfold assign_dict. rewrite assign_values_get.
  destruct (dict_get src k) as [v|] eqn:E.
  - rewrite decide_True; [done|]. apply dec_stable. intros Hn.
    apply dict_get_None in Hn. congruence.
  - rewrite decide_False; [done|]. by apply dict_get_None.
Qed.

(** Without a linked record, a candidate goes straight to [attach]. *)
Lemma relink_attach w sourceInstance associatedInstance options oldInstance :
  truthy oldInstance = false →
  truthy associatedInstance = true →
  relink customGetters db engine this sourceInstance associatedInstance options
    oldInstance w
  = attach customGetters db engine this sourceInstance associatedInstance options w.
Proof.
  intros Ho Ha. unfold relink. step the_heap_run.
  unfold already_associated. rewrite Ho. simpl. step lift_run.
  rewrite Ha. simpl. by step ret_run.
Qed.

(** The record [attach] saves, entry by entry: the values of the
    candidate, then the scope, then the foreign key. *)
Lemma attach_run_values w h sourceInstance associatedInstance options :
  is_record h sourceInstance →
  ∃ lc dv0 key,
    (attach_candidate h associatedInstance).2 = VRef lc
    ∧ (attach_candidate h associatedInstance).1 !! lc
      = Some (CInst (name (target this)) dv0)
    ∧ attach customGetters db engine this sourceInstance associatedInstance options
        (with_heap w h)
      = perform (Save (VRef lc) options)
          (with_heap w
             (<[lc := CInst (name (target this))
                        (dict_set (match scope this with
                                   | Some sc => assign_dict dv0 sc
                                   | None => dv0
                                   end) (foreignKey this) key)]>
                (attach_candidate h associatedInstance).1))
    ∧ (sourceInstance ≠ VRef lc →
       instance_get false h sourceInstance (sourceKeyAttribute this) = inr key).
Proof.
  intros Hsrc.
  destruct (attach_candidate_record h associatedInstance) as (lc & Hc & dvc & Hlc).
  pose proof (attach_candidate_prefix h associatedInstance) as Hpre.
  set (h2 := (attach_candidate h associatedInstance).1) in *.
  set (dvs := match scope this with
              | Some sc => assign_dict dvc sc
              | None => dvc
              end).
  set (h3 := <[lc := CInst (name (target this)) dvs]> h2).
  assert (is_record h3 sourceInstance) as Hsrc3.
  { eapply is_record_insert; [exact Hlc|]. by eapply is_record_prefix. }
  destruct (instance_get_record false h3 sourceInstance
              (sourceKeyAttribute this) Hsrc3) as [key Hkey].
  exists lc, dvc, key.
  assert (lc < length h2) as Hlt by by eapply lookup_lt_Some.
  split; [done|]. split; [done|]. split.
  - unfold attach. step the_heap_run.
    assert ((if negb (is_instance_of h associatedInstance (name (target this)))
             then
               let pk := default "undefined" (primaryKeyAttribute (target this)) in
               _ <- new (CObj [(KStr pk, associatedInstance)]) ;;
               build db this pk associatedInstance
             else ret associatedInstance) (with_heap w h)
            = (inr (VRef lc), with_heap w h2)) as Hb.
    { rewrite <-Hc. unfold h2, attach_candidate.
      destruct (is_instance_of h associatedInstance (name (target this))); simpl;
        [done|].
      unfold build. step new_run. rewrite new_run. simpl.
      rewrite length_app, <-(assoc_L (++)). simpl.
      by rewrite !Nat.add_1_r. }
    rewrite (bind_ok _ _ _ _ _ Hb). step the_heap_run.
    assert (instance_assign h2 (VRef lc) (scope this) = inr h3) as Ha.
    { unfold instance_assign, h3, dvs. destruct (scope this); [by rewrite Hlc|].
      by rewrite list_insert_id. }
    rewrite Ha. step lift_run. rewrite Hkey. step lift_run.
    unfold instance_set. unfold h3 at 1.
    rewrite list_lookup_insert_eq by done. step lift_run. step put_heap_run.
    unfold h3. by rewrite list_insert_insert_eq.
  - intros Hne.
    assert (instance_get false h2 sourceInstance (sourceKeyAttribute this)
            = inr key) as Hk2.
    { unfold instance_get in *. destruct sourceInstance as [| | | | |l]; try done.
      simpl in *. unfold h3 in Hkey.
      rewrite list_lookup_insert_ne in Hkey by congruence. done. }
    destruct Hsrc as (ms & dvs' & Hs). unfold instance_get in *.
    rewrite Hs. by rewrite (deref_prefix _ _ _ _ Hpre Hs) in Hk2.
Qed.

Lemma scoped_dict_get dv0 a :
  dict_get (match scope this with
            | Some sc => assign_dict dv0 sc
            | None => dv0
            end) a
  = match scope this ≫= (λ sc, dict_get sc a) with
    | Some v => Some v
    | None => dict_get dv0 a
    end.
Proof.
  destruct (scope this) as [sc|]; simpl; [apply assign_dict_get | done].
Qed.

(** X10. Passing no candidate removes the link: when the read finds a
    linked record and the candidate is null or absent, that record is
    saved with its foreign key set to null and nothing else is saved;
    [set] resolves to null once the save has resolved, and rejects as
    the save does. *)
Theorem set_removes_link w sourceInstance associatedInstance options given :
  own_string_props (w_heap w) options = inr given →
  is_record (w_heap w) sourceInstance →
  truthy associatedInstance = false →
  ∃ T o hq,
    get_query sourceInstance (VRef (length (w_heap w)))
      (with_heap w (w_heap w ++ [CObj (set_options given)]))
    = (inr (T, o, false), with_heap w hq)
    ∧ ∀ lo he d1 m dv given1,
        engine (FindOne T o) hq (w_db w) = (inr (VRef lo), he, d1) →
        he !! lo = Some (CInst m dv) →
        own_string_props he (VRef (length (w_heap w))) = inr given1 →
        let find := {| ev_call := FindOne T o; ev_heap := hq |} in
        let hs := detach_heap he lo m dv given1 in
        let so := S (S (length he)) in
        let detach := {| ev_call := Save (VRef lo) (VRef so); ev_heap := hs |} in
        instance_get true hs (VRef lo) (foreignKey this) = inr VNull
        ∧ set sourceInstance associatedInstance options w
          = (match (engine (ev_call detach) hs d1).1.1 with
             | inl e => inl e
             | inr _ => inr VNull
             end,
             {| w_heap := (engine (ev_call detach) hs d1).1.2;
                w_db := (engine (ev_call detach) hs d1).2;
                w_log := w_log w ++ [find; detach] |}).
Proof.
  intros Hg Hi Hc.
  destruct (set_run_find w sourceInstance associatedInstance options given Hg Hi)
    as (T & o & hq & Hq & _ & _ & _ & Hset).
  exists T, o, hq. split; [exact Hq|].
  intros lo he d1 m dv given1 He Hlo Hg1 find hs so detach. split.
  - unfold instance_get. simpl. unfold hs.
    rewrite (detach_heap_old _ _ _ _ _ Hlo). by rewrite dict_get_set_eq.
  - assert (already_associated he (VRef lo) associatedInstance = inr false) as Ha.
    { unfold already_associated. rewrite Hc. by rewrite andb_false_r. }
    rewrite Hset. unfold bind at 1.
    rewrite perform_run. unfold after_call. simpl. rewrite He. simpl.
    match goal with
    | |- context [relink _ _ _ _ _ _ _ _ ?w'] => rewrite (world_eta w')
    end. simpl.
    rewrite (relink_detach _ _ _ _ _ _ _ _ _ Hlo Hg1 Ha).
    unfold bind. rewrite perform_run. unfold after_call. simpl.
    fold hs so. rewrite Hc.
    destruct (engine (Save (VRef lo) (VRef so)) hs d1) as [[[e|r] h2] d2]; simpl;
      by rewrite <-(assoc_L (++)).
Qed.

(** X11. The first link: when the read finds no linked record and the
    candidate is a record of the target, that very record is saved,
    once, with the options of [set], and [set] ends as this save does.
    The record saved holds the source record's source-key value under
    the foreign key name, and under every other name the entry of the
    relationship scope when the scope has one and its own value
    otherwise. *)
Theorem set_first_link w sourceInstance lc options given :
  own_string_props (w_heap w) options = inr given →
  is_record (w_heap w) sourceInstance →
  sourceInstance ≠ VRef lc →
  ∃ T o hq,
    get_query sourceInstance (VRef (length (w_heap w)))
      (with_heap w (w_heap w ++ [CObj (set_options given)]))
    = (inr (T, o, false), with_heap w hq)
    ∧ ∀ oldInstance he d1 dv0,
        engine (FindOne T o) hq (w_db w) = (inr oldInstance, he, d1) →
        truthy oldInstance = false →
        is_record he sourceInstance →
        he !! lc = Some (CInst (name (target this)) dv0) →
        ∃ key dv',
          let find := {| ev_call := FindOne T o; ev_heap := hq |} in
          let ha := <[lc := CInst (name (target this)) dv']> he in
          let attach :=
            {| ev_call := Save (VRef lc) (VRef (length (w_heap w))); ev_heap := ha |} in
          instance_get false he sourceInstance (sourceKeyAttribute this) = inr key
          ∧ dict_get dv' (foreignKey this) = Some key
          ∧ (∀ a, a ≠ foreignKey this →
                  dict_get dv' a
                  = match scope this ≫= (λ sc, dict_get sc a) with
                    | Some v => Some v
                    | None => dict_get dv0 a
                    end)
          ∧ set sourceInstance (VRef lc) options w
            = ((engine (ev_call attach) ha d1).1.1,
               {| w_heap := (engine (ev_call attach) ha d1).1.2;
                  w_db := (engine (ev_call attach) ha d1).2;
                  w_log := w_log w ++ [find; attach] |}).
Proof.
  intros Hg Hi Hne.
  destruct (set_run_find w sourceInstance (VRef lc) options given Hg Hi)
    as (T & o & hq & Hq & _ & _ & _ & Hset).
  exists T, o, hq. split; [exact Hq|].
  intros old he d1 dv0 He Ho Hi2 Hlc.
  assert (attach_candidate he (VRef lc) = (he, VRef lc)) as Hcand.
  { unfold attach_candidate, is_instance_of. simpl. rewrite Hlc.
    by rewrite bool_decide_eq_true_2. }
  match goal with
  | _ : _ |- _ =>
      destruct (attach_run_values
                  {| w_heap := he; w_db := d1;
                     w_log := w_log w ++ [{| ev_call := FindOne T o; ev_heap := hq |}] |}
                  he sourceInstance (VRef lc) (VRef (length (w_heap w))) Hi2)
        as (lc' & dv0' & key & Hc & Hlc' & Hatt & Hkey)
  end.
  rewrite Hcand in Hc, Hlc', Hatt. simpl in Hc, Hlc', Hatt.
  injection Hc as <-. rewrite Hlc in Hlc'. injection Hlc' as <-.
  exists key, (dict_set (match scope this with
                         | Some sc => assign_dict dv0 sc
                         | None => dv0
                         end) (foreignKey this) key).
  cbn zeta.
  split; [by apply Hkey|].
  split; [apply dict_get_set_eq|].
  split.
  { intros a Ha. rewrite dict_get_set_ne by congruence. apply scoped_dict_get. }
  rewrite Hset. unfold bind at 1.
  rewrite perform_run. unfold after_call. simpl. rewrite He. simpl.
  rewrite relink_attach by done.
  unfold with_heap in Hatt. simpl in Hatt. rewrite Hatt.
  rewrite perform_run. unfold after_call. simpl.
  by rewrite <-!(assoc_L (++)).
Qed.

(** X12. A candidate that is no record of the target, such as a bare
    key, is wrapped: when the read finds no linked record, [set] saves
    a new record of the target that holds the candidate under the
    primary key attribute of the target, with the scope entries and
    the foreign key put in as for a record. *)
Theorem set_wraps_bare_key w sourceInstance associatedInstance options given :
  own_string_props (w_heap w) options = inr given →
  is_record (w_heap w) sourceInstance →
  truthy associatedInstance = true →
  ∃ T o hq,
    get_query sourceInstance (VRef (length (w_heap w)))
      (with_heap w (w_heap w ++ [CObj (set_options given)]))
    = (inr (T, o, false), with_heap w hq)
    ∧ ∀ oldInstance he d1,
        engine (FindOne T o) hq (w_db w) = (inr oldInstance, he, d1) →
        truthy oldInstance = false →
        is_record he sourceInstance →
        is_instance_of he associatedInstance (name (target this)) = false →
        ∃ key dv',
          let pk := default "undefined" (primaryKeyAttribute (target this)) in
          let find := {| ev_call := FindOne T o; ev_heap := hq |} in
          let ha := he ++ [CObj [(KStr pk, associatedInstance)];
                           CInst (name (target this)) dv'] in
          let attach :=
            {| ev_call := Save (VRef (S (length he))) (VRef (length (w_heap w)));
               ev_heap := ha |} in
          instance_get false he sourceInstance (sourceKeyAttribute this) = inr key
          ∧ dict_get dv' (foreignKey this) = Some key
          ∧ (∀ a, a ≠ foreignKey this →
                  dict_get dv' a
                  = match scope this ≫= (λ sc, dict_get sc a) with
                    | Some v => Some v
                    | None => if decide (pk = a) then Some associatedInstance else None
                    end)
          ∧ set sourceInstance associatedInstance options w
            = ((engine (ev_call attach) ha d1).1.1,
               {| w_heap := (engine (ev_call attach) ha d1).1.2;
                  w_db := (engine (ev_call attach) ha d1).2;
                  w_log := w_log w ++ [find; attach] |}).
Proof.
  intros Hg Hi Ht.
  destruct (set_run_find w sourceInstance associatedInstance options given Hg Hi)
    as (T & o & hq & Hq & _ & _ & _ & Hset).
  exists T, o, hq. split; [exact Hq|].
  intros old he d1 He Ho Hi2 Hinst.
  set (pk := default "undefined" (primaryKeyAttribute (target this))).
  assert (attach_candidate he associatedInstance
          = (he ++ [CObj [(KStr pk, associatedInstance)];
                    CInst (name (target this)) [(pk, associatedInstance)]],
             VRef (S (length he)))) as Hcand.
  { unfold attach_candidate. by rewrite Hinst. }
  destruct (attach_run_values
              {| w_heap := he; w_db := d1;
                 w_log := w_log w ++ [{| ev_call := FindOne T o; ev_heap := hq |}] |}
              he sourceInstance associatedInstance (VRef (length (w_heap w))) Hi2)
    as (lc' & dv0' & key & Hc & Hlc' & Hatt & Hkey).
  rewrite Hcand in Hc, Hlc', Hatt. simpl in Hc, Hlc', Hatt.
  injection Hc as <-.
  rewrite lookup_app_r in Hlc' by lia.
  replace (S (length he) - length he) with 1 in Hlc' by lia.
  injection Hlc' as <-.
  rewrite insert_app_r_alt in Hatt by lia.
  replace (S (length he) - length he) with 1 in Hatt by lia.
  cbn [insert list_insert] in Hatt.
  exists key, (dict_set (match scope this with
                         | Some sc => assign_dict [(pk, associatedInstance)] sc
                         | None => [(pk, associatedInstance)]
                         end) (foreignKey this) key).
  cbn zeta.
  split.
  { apply Hkey. destruct Hi2 as (ms & dvs & Hs).
    intros ->. simpl in Hs. apply lookup_lt_Some in Hs. lia. }
  split; [apply dict_get_set_eq|].
  split.
  { intros a Ha. rewrite dict_get_set_ne by congruence.
    rewrite scoped_dict_get. simpl. done. }
  rewrite Hset. unfold bind at 1.
  rewrite perform_run. unfold after_call. simpl. rewrite He. simpl.
  rewrite relink_attach by done.
  unfold with_heap in Hatt. simpl in Hatt. rewrite Hatt.
  rewrite perform_run. unfold after_call. simpl.
  by rewrite <-!(assoc_L (++)).
Qed.

Lemma every_key_equal h oldInstance associatedInstance attrs :
  (∀ a, a ∈ attrs →
        ∃ x, instance_get true h oldInstance a = inr x
             ∧ candidate_key h associatedInstance a = inr x) →
  every_key customGetters h oldInstance associatedInstance attrs = inr true.
Proof.
  induction attrs as [|a attrs IH]; intros H; [done|]. cbn [every_key].
  destruct (H a (list_elem_of_here _ _)) as (x & -> & ->). simpl.
  unfold strict_eq. rewrite bool_decide_eq_true_2 by done.
  apply IH. intros a' Ha'. by apply H, list_elem_of_further.
Qed.

(** X13. Setting the record that is linked already saves nothing: when
    the candidate is truthy and every primary key attribute of the
    target has, raw, the same value on the record the read finds and
    on the candidate - a bare key standing for that value under each
    of them - the read is the only call and [set] resolves to null. *)
Theorem set_equal_candidate_saves_nothing w sourceInstance associatedInstance
    options given :
  own_string_props (w_heap w) options = inr given →
  is_record (w_heap w) sourceInstance →
  truthy associatedInstance = true →
  ∃ T o hq,
    get_query sourceInstance (VRef (length (w_heap w)))
      (with_heap w (w_heap w ++ [CObj (set_options given)]))
    = (inr (T, o, false), with_heap w hq)
    ∧ ∀ lo he d1,
        engine (FindOne T o) hq (w_db w) = (inr (VRef lo), he, d1) →
        (∀ a, a ∈ primaryKeyAttributes (target this) →
              ∃ x, instance_get true he (VRef lo) a = inr x
                   ∧ candidate_key he associatedInstance a = inr x) →
        set sourceInstance associatedInstance options w
        = (inr VNull,
           {| w_heap := he; w_db := d1;
              w_log := w_log w ++ [{| ev_call := FindOne T o; ev_heap := hq |}] |}).
Proof.
  intros Hg Hi Ht.
  destruct (set_run_find w sourceInstance associatedInstance options given Hg Hi)
    as (T & o & hq & Hq & _ & _ & _ & Hset).
  exists T, o, hq. split; [exact Hq|].
  intros lo he d1 He Hk. rewrite Hset. unfold bind.
  rewrite perform_run. unfold after_call. simpl. rewrite He. simpl.
  rewrite relink_nothing; [done|]. left. simpl.
  unfold already_associated. rewrite Ht. simpl. by apply every_key_equal.
Qed.

(** X17. [set] works on a copy of the caller's options: when its read
    is made, every cell of the caller's store is as it was, and the
    options of [set] are a new object that holds the caller's own
    string-keyed properties, with [scope] set to [false]. *)
Theorem set_copies_options w sourceInstance associatedInstance options given :
  own_string_props (w_heap w) options = inr given →
  is_record (w_heap w) sourceInstance →
  ∃ T o hq ops',
    get_query sourceInstance (VRef (length (w_heap w)))
      (with_heap w (w_heap w ++ [CObj (set_options given)]))
    = (inr (T, o, false), with_heap w hq)
    ∧ (∃ rest,
         w_log (set sourceInstance associatedInstance options w).2
         = w_log w ++ {| ev_call := FindOne T o; ev_heap := hq |} :: rest)
    ∧ (∀ l, l < length (w_heap w) → hq !! l = w_heap w !! l)
    ∧ hq !! length (w_heap w) = Some (CObj ops')
    ∧ (∀ k, dict_get ops' (KStr k)
            = if decide (k = "scope") then Some (VBool false) else dict_get given k)
    ∧ (∀ s, dict_get ops' (KSym s) = None).
Proof.
  intros Hg Hi.
  destruct (set_run_find w sourceInstance associatedInstance options given Hg Hi)
    as (T & o & hq & Hq & _ & Hopt & Hframe & Hset).
  exists T, o, hq, (set_options given). split; [exact Hq|]. split.
  { rewrite Hset. unfold bind. rewrite perform_run. unfold after_call. simpl.
    destruct (engine (FindOne T o) hq (w_db w)) as [[[e|old] he] d1]; simpl.
    - by exists [].
    - match goal with
      | |- context [relink _ _ _ _ ?a ?b ?c ?d ?w'] =>
          destruct (extends_log_relink a b c d w') as [rest Hrest]
      end.
      exists rest. rewrite Hrest. simpl. by rewrite <-(assoc_L (++)). }
  split; [exact Hframe|]. split; [exact Hopt|]. split.
  - intros k. unfold set_options. rewrite !assign_props_get. simpl.
    destruct (decide ("scope" = k)) as [<-|Hne].
    + by rewrite decide_True.
    + rewrite decide_False by congruence. by destruct (dict_get given k).
  - intros s. unfold set_options, assign_props. by rewrite !assign_keys_get_sym.
Qed.

(** X18. When the read of [set] is rejected, [set] is rejected alike
    and nothing is saved. *)
Theorem set_rejects_with_read w sourceInstance associatedInstance options given :
  own_string_props (w_heap w) options = inr given →
  is_record (w_heap w) sourceInstance →
  ∃ T o hq,
    get_query sourceInstance (VRef (length (w_heap w)))
      (with_heap w (w_heap w ++ [CObj (set_options given)]))
    = (inr (T, o, false), with_heap w hq)
    ∧ ∀ e he d1,
        engine (FindOne T o) hq (w_db w) = (inl e, he, d1) →
        set sourceInstance associatedInstance options w
        = (inl e,
           {| w_heap := he; w_db := d1;
              w_log := w_log w ++ [{| ev_call := FindOne T o; ev_heap := hq |}] |}).
Proof.
  intros Hg Hi.
  destruct (set_run_find w sourceInstance associatedInstance options given Hg Hi)
    as (T & o & hq & Hq & _ & _ & _ & Hset).
  exists T, o, hq. split; [exact Hq|].
  intros e he d1 He. rewrite Hset. unfold bind.
  rewrite perform_run. unfold after_call. simpl. by rewrite He.
Qed.

(** *** Runs of [create] that throw *)

Lemma bind_fail {A B} (m : M db A) (k : A → M db B) w e w' :
  m w = (inl e, w') → bind m k w = (inl e, w').
Proof. unfold bind. by intros ->. Qed.

Lemma no_record_pushed h lv x ops names v :
  no_record h v →
  no_record (push (<[lv := CObj x]> h) ops names) v.
Proof.
  intros [Hv|(c & Hc & Hno)]; [by left|]. right.
  destruct v as [| | | | |l]; try done. simpl in *.
  assert (∃ c', <[lv := CObj x]> h !! l = Some c' ∧ ∀ m dv, c' ≠ CInst m dv)
    as (c' & Hc' & Hno').
  { destruct (decide (lv = l)) as [->|Hne].
    - exists (CObj x). split; [|done].
      apply list_lookup_insert_eq. by eapply lookup_lt_Some.
    - exists c. by rewrite list_lookup_insert_ne. }
  unfold push. destruct (prop ops "fields") as [| | | | |lf]; try by exists c'.
  destruct (<[lv := CObj x]> h !! lf) as [[?|fs|? ?]|] eqn:E; try by exists c'.
  destruct (decide (lf = l)) as [->|Hne].
  - exists (CArr (fs ++ (VStr <$> names))). split; [|done].
    apply list_lookup_insert_eq. by eapply lookup_lt_Some.
  - exists c'. by rewrite list_lookup_insert_ne.
Qed.

(** X14. When the source given to [create] is no record, [create]
    throws a TypeError at line 258 and the engine is not called; by
    then the caller's values hold the entries of the relationship
    scope and the caller's field list has their names appended. *)
Theorem create_throws_without_record w sourceInstance lv lo vps ops :
  w_heap w !! lv = Some (CObj vps) →
  w_heap w !! lo = Some (CObj ops) →
  lv ≠ lo →
  fields_ok (w_heap w) ops →
  no_record (w_heap w) sourceInstance →
  ∃ h',
    create sourceInstance (VRef lv) (VRef lo) w = (inl TypeError, with_heap w h')
    ∧ h' !! lv = Some (CObj (scoped_values vps))
    ∧ (∀ lf fs, prop ops "fields" = VRef lf →
                w_heap w !! lf = Some (CArr fs) →
                h' !! lf = Some (CArr (fs ++ (VStr <$> scope_names)))).
Proof.
  intros Hlv Hlo Hne Hf Hno.
  set (hA := push (<[lv := CObj (scoped_values vps)]> (w_heap w)) ops scope_names).
  assert (lv < length (w_heap w)) as Hlt by by eapply lookup_lt_Some.
  exists hA. split; [|split].
  - unfold create. cbn [truthy].
    assert ((ret (VRef lv) : M db value) w = (inr (VRef lv), with_heap w (w_heap w)))
      as Hv by by rewrite ret_run, <-world_eta.
    rewrite (bind_ok _ _ _ _ _ Hv). step ret_run.
    assert (match scope this with
            | Some sc => create_scope db sc sc.*1 (VRef lv) (VRef lo)
            | None => ret tt
            end (with_heap w (w_heap w)) = (inr tt, with_heap w hA)) as Hs.
    { unfold hA, scoped_values, scope_names.
      destruct (scope this) as [sc|].
      - by apply create_scope_run.
      - rewrite ret_run, push_nil. by rewrite list_insert_id. }
    rewrite (bind_ok _ _ _ _ _ Hs). step the_heap_run.
    rewrite (instance_get_no_record false hA hA) by (done || by apply no_record_pushed).
    by apply bind_fail.
  - unfold hA. rewrite (push_lookup _ _ _ _ (scoped_values vps)).
    + by apply list_lookup_insert_eq.
    + left. by apply list_lookup_insert_eq.
  - intros lf fs Hff Hlf. unfold hA, push. rewrite Hff.
    assert (lv ≠ lf) by congruence.
    rewrite list_lookup_insert_ne by done. rewrite Hlf.
    apply list_lookup_insert_eq. rewrite length_insert. by eapply lookup_lt_Some.
Qed.

Lemma push_field_fails w h lo ops x :
  h !! lo = Some (CObj ops) →
  truthy (prop ops "fields") = true →
  (∀ lf fs, prop ops "fields" = VRef lf → h !! lf ≠ Some (CArr fs)) →
  push_field db (VRef lo) x (with_heap w h) = (inl TypeError, with_heap w h).
Proof.
  intros Hlo Ht Hno. unfold push_field. step the_heap_run.
  unfold get_prop. simpl. rewrite Hlo. step lift_run. rewrite Ht.
  destruct (prop ops "fields") as [| | | | |lf] eqn:E; try done.
  destruct (h !! lf) as [[?|fs|? ?]|] eqn:El; try done. by destruct (Hno lf fs).
Qed.

Lemma instance_get_error raw h v attr e :
  instance_get raw h v attr = inl e → e = TypeError.
Proof.
  unfold instance_get. destruct (deref h v) as [[?|?|m dv]|]; try congruence.
  by destruct (if raw then None else customGetters m attr).
Qed.

(** X15. When [options.fields] is truthy and no array - a string, say
    - [create] throws a TypeError at its first [push] and the engine is
    not called. *)
Theorem create_throws_on_fields w sourceInstance lv lo vps ops :
  w_heap w !! lv = Some (CObj vps) →
  w_heap w !! lo = Some (CObj ops) →
  lv ≠ lo →
  truthy (prop ops "fields") = true →
  (∀ lf fs, prop ops "fields" = VRef lf → w_heap w !! lf ≠ Some (CArr fs)) →
  ∃ h',
    create sourceInstance (VRef lv) (VRef lo) w = (inl TypeError, with_heap w h').
Proof.
  intros Hlv Hlo Hne Ht Hno.
  assert (lv < length (w_heap w)) as Hlt by by eapply lookup_lt_Some.
  assert (∀ k x, push_field db (VRef lo) k
                   (with_heap w (<[lv := CObj x]> (w_heap w)))
                 = (inl TypeError, with_heap w (<[lv := CObj x]> (w_heap w))))
    as Hpush.
  { intros k x. apply (push_field_fails _ _ _ ops); [|done|].
    - by rewrite list_lookup_insert_ne.
    - intros lf fs Hff Hlf. destruct (decide (lv = lf)) as [<-|Hnf].
      + rewrite list_lookup_insert_eq in Hlf by done. discriminate Hlf.
      + rewrite list_lookup_insert_ne in Hlf by done. by apply (Hno lf fs). }
  assert (∃ h', (h <- the_heap ;;
                 key <- lift (instance_get false h sourceInstance
                                (sourceKeyAttribute this)) ;;
                 _ <- store_prop db (VRef lv) (foreignKey this) key ;;
                 _ <- push_field db (VRef lo) (foreignKey this) ;;
                 perform (Create (VRef lv) (VRef lo)))
                (with_heap w (w_heap w))
              = (inl TypeError, with_heap w h')) as [h' Htail].
  { step the_heap_run.
    destruct (instance_get false (w_heap w) sourceInstance (sourceKeyAttribute this))
      as [e|key] eqn:Ek.
    - apply instance_get_error in Ek as ->. exists (w_heap w). by apply bind_fail.
    - step lift_run. step store_prop_run.
      eexists. apply bind_fail, Hpush. }
  unfold create. cbn [truthy].
  assert ((ret (VRef lv) : M db value) w = (inr (VRef lv), with_heap w (w_heap w)))
    as Hv by by rewrite ret_run, <-world_eta.
  rewrite (bind_ok _ _ _ _ _ Hv). step ret_run.
  destruct (scope this) as [[|[k v] sc]|].
  - step ret_run. by exists h'.
  - eexists. apply bind_fail. cbn [fmap list_fmap create_scope fst].
    step store_prop_run. apply bind_fail, Hpush.
  - step ret_run. by exists h'.
Qed.

(** *** The calls a run can make *)

Local Abbreviation silent := (calls (λ l, l = [])).

Lemma calls_weaken {A} (L L' : list event → Prop) (m : M db A) :
  (∀ l, L l → L' l) → calls L m → calls L' m.
Proof. intros HL Hm w. destruct (Hm w) as (l & Hl & HLl). exists l. auto. Qed.

Lemma silent_ret {A} (a : A) : silent (ret a : M db A).
Proof. intros w. exists []. by rewrite app_nil_r. Qed.

Lemma silent_throw {A} e : silent (@throw db A e).
Proof. intros w. exists []. by rewrite app_nil_r. Qed.

Lemma silent_lift {A} (r : error + A) : silent (lift r : M db A).
Proof. intros w. exists []. by rewrite app_nil_r. Qed.

Lemma silent_the_heap : silent (@the_heap db).
Proof. intros w. exists []. by rewrite app_nil_r. Qed.

Lemma silent_put_heap h : silent (put_heap h : M db unit).
Proof. intros w. exists []. by rewrite app_nil_r. Qed.

Lemma silent_new c : silent (new c : M db value).
Proof. intros w. exists []. by rewrite app_nil_r. Qed.

Lemma calls_seq {A B} (L1 L2 : list event → Prop) (m : M db A) (k : A → M db B) :
  calls L1 m → L2 [] → (∀ a, calls L2 (k a)) →
  calls (λ l, ∃ l1 l2, l = l1 ++ l2 ∧ L1 l1 ∧ L2 l2) (bind m k).
Proof.
  intros Hm Hnil Hk w. unfold bind. destruct (Hm w) as (l1 & Hl1 & HL1).
  destruct (m w) as [[e|a] w1]; simpl in Hl1.
  - exists l1. split; [done|]. exists l1, []. by rewrite app_nil_r.
  - destruct (Hk a w1) as (l2 & Hl2 & HL2). exists (l1 ++ l2).
    rewrite Hl2, Hl1. split; [by rewrite (assoc_L (++))|]. by exists l1, l2.
Qed.

Lemma calls_after_silent {A B} (L : list event → Prop) (m : M db A) (k : A → M db B) :
  silent m → L [] → (∀ a, calls L (k a)) → calls L (bind m k).
Proof.
  intros Hm Hnil Hk. eapply calls_weaken; [|by apply (calls_seq _ L m k Hm)].
  by intros l (l1 & l2 & -> & -> & HL).
Qed.

Lemma silent_bind {A B} (m : M db A) (k : A → M db B) :
  silent m → (∀ a, silent (k a)) → silent (bind m k).
Proof. intros Hm Hk. by apply calls_after_silent. Qed.

Lemma calls_perform (P : event → bool) c :
  (∀ h, P {| ev_call := c; ev_heap := h |} = true) →
  calls (at_most 1 P) (perform c).
Proof.
  intros HP w. rewrite perform_run. eexists. split; [reflexivity|].
  split; [simpl; lia | by repeat constructor].
Qed.

Lemma at_most_nil n P : at_most n P [].
Proof. split; [simpl; lia | constructor]. Qed.

Ltac silence :=
  repeat first
    [ apply silent_ret | apply silent_throw | apply silent_lift
    | apply silent_the_heap | apply silent_put_heap | apply silent_new
    | apply silent_bind; [|intros ?]
    | progress cbv zeta
    | match goal with
      | |- calls _ (match ?x with _ => _ end) => destruct x
      end ].

Lemma silent_store_prop v k x : silent (store_prop db v k x).
Proof. unfold store_prop. silence. Qed.

Lemma silent_push_field options x : silent (push_field db options x).
Proof. unfold push_field. silence. Qed.

Lemma silent_create_scope sc keys values options :
  silent (create_scope db sc keys values options).
Proof.
  induction keys as [|k keys IH]; cbn [create_scope]; [apply silent_ret|].
  apply silent_bind; [apply silent_store_prop | intros _].
  apply silent_bind; [apply silent_push_field | intros _]. exact IH.
Qed.

Lemma silent_get_query instances options : silent (get_query instances options).
Proof.
  unfold get_query, assign_scope.
  silence; try apply silent_store_prop.
Qed.

Lemma silent_index_results instances results :
  silent (index_results customGetters db this instances results).
Proof. unfold index_results. silence. Qed.

Lemma calls_get instances options :
  calls (at_most 1 is_find) (get instances options).
Proof.
  unfold get.
  apply calls_after_silent;
    [apply silent_get_query | apply at_most_nil | intros [[T o] many]].
  destruct many; [|by apply calls_perform].
  eapply calls_weaken; [|apply (calls_seq (at_most 1 is_find) (λ l, l = []))].
  - intros l (l1 & l2 & -> & H & ->). by rewrite app_nil_r.
  - by apply calls_perform.
  - done.
  - intros results. apply silent_index_results.
Qed.

Lemma calls_detach oldInstance options :
  calls (at_most 1 is_save) (detach db engine this oldInstance options).
Proof.
  unfold detach.
  repeat (apply calls_after_silent;
            [by silence | apply at_most_nil | intros ?]).
  by apply calls_perform.
Qed.

Lemma calls_attach sourceInstance associatedInstance options :
  calls (at_most 1 is_save)
    (attach customGetters db engine this sourceInstance associatedInstance options).
Proof.
  unfold attach, build.
  repeat (apply calls_after_silent;
            [by silence | apply at_most_nil | intros ?]).
  by apply calls_perform.
Qed.

Lemma calls_relink sourceInstance associatedInstance options oldInstance :
  calls (at_most 2 is_save)
    (relink customGetters db engine this sourceInstance associatedInstance options
       oldInstance).
Proof.
  unfold relink.
  repeat (apply calls_after_silent;
            [by silence | apply at_most_nil | intros ?]).
  eapply calls_weaken;
    [|apply (calls_seq (at_most 1 is_save) (at_most 1 is_save))].
  - intros l (l1 & l2 & -> & [Hn1 Hf1] & [Hn2 Hf2]). split.
    + rewrite length_app. lia.
    + by apply Forall_app.
  - destruct (_ && _)%bool; [apply calls_detach|].
    eapply calls_weaken; [|apply silent_ret]. intros l ->. apply at_most_nil.
  - apply at_most_nil.
  - intros _. destruct (_ && _)%bool; [apply calls_attach|].
    eapply calls_weaken; [|apply silent_ret]. intros l ->. apply at_most_nil.
Qed.

(** X16. Whatever their arguments and however they end, [get] makes
    at most one call to the engine, a find; [create] at most one, the
    target's create; and [set] at most one find followed by at most
    two saves. *)
Theorem calls_bounded :
  (∀ instances options, calls (at_most 1 is_find) (get instances options))
  ∧ (∀ sourceInstance associatedInstance options,
       calls (λ l, ∃ finds saves,
                l = finds ++ saves
                ∧ at_most 1 is_find finds ∧ at_most 2 is_save saves)
         (set sourceInstance associatedInstance options))
  ∧ (∀ sourceInstance values options,
       calls (at_most 1 is_create) (create sourceInstance values options)).
Proof.
  split; [exact calls_get|]. split.
  - intros sourceInstance associatedInstance options. unfold set.
    repeat (apply calls_after_silent;
              [by silence
              | exists [], []; split; [done|]; split; apply at_most_nil
              | intros ?]).
    apply calls_seq; [apply calls_get | apply at_most_nil |].
    intros oldInstance. apply calls_relink.
  - intros sourceInstance values options. unfold create.
    apply calls_after_silent; [by silence | apply at_most_nil | intros values'].
    apply calls_after_silent; [by silence | apply at_most_nil | intros options'].
    apply calls_after_silent.
    { destruct (scope this); [apply silent_create_scope | apply silent_ret]. }
    { apply at_most_nil. }
    intros _.
    apply calls_after_silent; [by silence | apply at_most_nil | intros h].
    apply calls_after_silent; [by silence | apply at_most_nil | intros key].
    apply calls_after_silent;
      [apply silent_store_prop | apply at_most_nil | intros _].
    apply calls_after_silent;
      [apply silent_push_field | apply at_most_nil | intros _].
    by apply calls_perform.
Qed.

End RuntimeFacts.

(** ** The claims of the specification on concrete runs *)

Section MappingExamples.
Import Examples.

Local Abbreviation this := (hasOne Profile no_options).



End MappingExamples.

Section FilterExamples.
Import Examples.

(** [get(u, {where: {active: true}})] under the scope
    [{kind: "primary"}]: the filter ANDed to the object [where] is a
    new object [{active: true}]. And [get([u1, u2])]. *)
Lemma get_filter_witness :
  (∃ e W lc,
     w_log (get no_getters _ scripted (hasOne Profile primary) (VRef 0) (VRef 1)
              (start user_and_options [])).2 = [e]
     ∧ ev_heap e !! 3 = Some (CObj W)
     ∧ dict_get W (KStr "UserId") = Some (VNum 1)
     ∧ dict_get W (KStr "kind") = Some (VStr "primary")
     ∧ filter_sent (ev_heap e) (VRef 5) 3 (VRef lc)
     ∧ 3 < lc
     ∧ ev_heap e !! lc = Some (CObj [(KStr "active", VBool true)]))
  ∧ (∃ e W i a,
       w_log (get no_getters _ scripted (hasOne Profile no_options) (VRef 2) VUndef
                (start two_users [inr (VRef 3)])).2 = [e]
       ∧ ev_heap e !! 5 = Some (CObj W)
       ∧ dict_get W (KStr "UserId") = Some (VRef i)
       ∧ ev_heap e !! i = Some (CObj [(KSym OpIn, VRef a)])
       ∧ ev_heap e !! a = Some (CArr [VNum 1; VNum 2])).
Proof.
  split.
  - destruct (get_filter no_getters _ scripted (hasOne Profile primary)
                (start user_and_options []) (VRef 0) (VRef 1)
                [(KStr "where", VRef 2)] eq_refl) as [H _].
    destruct H as (e & T & o & W & cw & key & Hlog & Hc & Hk & HW & Hget & _ & Hs & Hcw).
    { eexists _, _. reflexivity. }
    vm_compute in Hk. injection Hk as <-.
    vm_compute in Hlog. injection Hlog as <-.
    injection Hc as <- <-.
    destruct Hcw as (_ & _ & Hcw).
    destruct (Hcw 2 [(KStr "active", VBool true)] eq_refl eq_refl)
      as (lc & -> & Hlt & Hlc).
    { by repeat constructor. }
    eexists _, W, lc.
    split; [vm_compute; reflexivity|]. split; [exact HW|].
    split; [by rewrite Hget|]. split; [by rewrite Hget|].
    split; [exact Hs|]. split; [exact Hlt | exact Hlc].
  - destruct (get_filter no_getters _ scripted (hasOne Profile no_options)
                (start two_users [inr (VRef 3)]) (VRef 2) VUndef [] eq_refl)
      as [_ H].
    destruct (H [VRef 0; VRef 1] eq_refl)
      as (e & T & o & W & cw & keys & i & a
          & Hlog & Hc & Hk & _ & HW & Hget & _ & Hi & Ha & _).
    { repeat constructor; eexists _, _; reflexivity. }
    vm_compute in Hk. injection Hk as <-.
    vm_compute in Hlog. injection Hlog as <-.
    eexists _, W, i, a.
    split; [vm_compute; reflexivity|]. split; [exact HW|].
    split; [by rewrite Hget|]. split; [exact Hi | exact Ha].
Defined.

(** C5 fails as stated: a scope entry under the name of the foreign key
    takes the place of the constraint on the source key. *)
Lemma get_filter_scope_on_foreignKey :
  ¬ filter_as_specified no_getters _ scripted (hasOne Profile fixed_user)
      (start user_and_options []) (VRef 0) VUndef.
Proof.
  intros H. destruct (H (VNum 1) eq_refl) as (e & T & o & W & Hlog & _ & HW & Hfk & _).
  vm_compute in Hlog. injection Hlog as <-.
  vm_compute in HW. injection HW as <-. discriminate Hfk.
Qed.

End FilterExamples.

(** ** [set] on concrete runs *)

Section SetExamples.
Import Examples.

Local Abbreviation this := (hasOne Profile no_options).

(** C6 fails on the code. The linked profile has the primary key 0 and
    the candidate is the bare key 0: the comparison of lines 202-204
    would find them equal, but line 202 takes the key 0 for no candidate
    and the linked profile is detached and saved. *)
Theorem set_key_zero_detaches :
  every_key no_getters linked_zero (VRef 1) (VNum 0) (primaryKeyAttributes Profile)
  = inr true
  ∧ ∃ find detach,
      w_log (set no_getters _ scripted this (VRef 0) (VNum 0) VUndef
               (start linked_zero [inr (VRef 1); inr (VRef 1)])).2
      = [find; detach]
      ∧ is_find find = true
      ∧ ev_call detach = Save (VRef 1) (VRef 7)
      ∧ instance_get no_getters true (ev_heap detach) (VRef 1) "UserId" = inr VNull.
Proof.
  split; [reflexivity|]. eexists _, _.
  split; [vm_compute; reflexivity|]. by repeat split.
Qed.

(** The same call for a linked profile with the key 7 and the candidate
    7 saves nothing. *)
Example set_key_seven_is_idempotent :
  ∃ find w',
    set no_getters _ scripted this (VRef 0) (VNum 7) VUndef
      (start [CInst "User" [("id", VNum 1)];
              CInst "Profile" [("id", VNum 7); ("UserId", VNum 1)]]
         [inr (VRef 1)])
    = (inr VNull, w')
    ∧ w_log w' = [find]
    ∧ is_find find = true.
Proof. eexists _, _. split; [vm_compute; reflexivity|]. by split. Qed.

(** [set(u, p8)] when [p7] is linked: the read, the save of [p7] without
    its foreign key, the save of [p8]; and, when the engine rejects the
    save of [p7], no save of [p8]. *)
Lemma set_detach_before_attach_witness :
  (∃ find detach attach,
     w_log (set no_getters _ scripted this (VRef 0) (VRef 2) VUndef
              (start linked_and_other [inr (VRef 1); inr (VRef 1); inr (VRef 2)])).2
     = [find; detach; attach]
     ∧ is_find find = true
     ∧ ev_call detach = Save (VRef 1) (VRef 8)
     ∧ instance_get no_getters true (ev_heap detach) (VRef 1) "UserId" = inr VNull
     ∧ ev_call attach = Save (VRef 2) (VRef 3)
     ∧ instance_get no_getters true (ev_heap attach) (VRef 2) "UserId"
       = inr (VNum 1))
  ∧ (∃ find detach w',
       set no_getters _ scripted this (VRef 0) (VRef 2) VUndef
         (start linked_and_other [inr (VRef 1); inl (Rejected (VStr "busy"))])
       = (inl (Rejected (VStr "busy")), w')
       ∧ w_log w' = [find; detach]
       ∧ ev_call detach = Save (VRef 1) (VRef 8)).
Proof.
  split.
  - destruct (set_detach_before_attach no_getters _ scripted this
                (start linked_and_other [inr (VRef 1); inr (VRef 1); inr (VRef 2)])
                (VRef 0) (VRef 2) VUndef [])
      as (T & o & hq & Hq & _ & _ & H).
    + reflexivity.
    + eexists _, _. reflexivity.
    + reflexivity.
    + vm_compute in Hq. injection Hq as <- <- <-.
      destruct (H 1 _ [inr (VRef 1); inr (VRef 2)] "Profile"
                  [("id", VNum 7); ("UserId", VNum 1)] [("scope", VBool false)]
                  eq_refl eq_refl eq_refl eq_refl)
        as (Hnull & _ & _ & Hok).
      destruct (Hok (VRef 1) _ [inr (VRef 2)] eq_refl)
        as (ha & key & mc & dvc & Hset & Hsaved & Hkey & Hsrc).
      { eexists _, _. reflexivity. }
      rewrite Hset. eexists _, _, _. split; [reflexivity|].
      split; [reflexivity|]. split; [reflexivity|]. split; [exact Hnull|].
      split; [reflexivity|].
      change (deref ha (VRef 2) = Some (CInst mc dvc)) in Hsaved.
      change (dict_get dvc "UserId" = Some key) in Hkey.
      unfold instance_get. cbn [ev_heap]. rewrite Hsaved, Hkey. simpl.
      match type of Hsrc with
      | ?P → _ =>
          assert P as Hne by (intros Heq; vm_compute in Heq; discriminate Heq)
      end.
      specialize (Hsrc Hne). vm_compute in Hsrc. by injection Hsrc as <-.
  - destruct (set_detach_before_attach no_getters _ scripted this
                (start linked_and_other [inr (VRef 1); inl (Rejected (VStr "busy"))])
                (VRef 0) (VRef 2) VUndef [])
      as (T & o & hq & Hq & _ & _ & H).
    + reflexivity.
    + eexists _, _. reflexivity.
    + reflexivity.
    + vm_compute in Hq. injection Hq as <- <- <-.
      destruct (H 1 _ [inl (Rejected (VStr "busy"))] "Profile"
                  [("id", VNum 7); ("UserId", VNum 1)] [("scope", VBool false)]
                  eq_refl eq_refl eq_refl eq_refl)
        as (_ & _ & Hrej & _).
      rewrite (Hrej (Rejected (VStr "busy")) _ [] eq_refl).
      eexists _, _, _. split; [reflexivity|]. by split.
Defined.

(** [set(u, null, {scope: 'admins'})] when nothing is linked: one read,
    on the target without scope, and the result null. *)
Lemma set_reads_unscoped_witness :
  ∃ o hq,
    set no_getters _ scripted this (VRef 0) VNull (VRef 1)
      (start user_and_scope [inr VNull])
    = (inr VNull,
       {| w_heap := hq; w_db := [];
          w_log := [{| ev_call := FindOne (Unscoped Target) o; ev_heap := hq |}] |}).
Proof.
  destruct (set_reads_unscoped no_getters _ scripted this
              (start user_and_scope [inr VNull]) (VRef 0) VNull (VRef 1)
              [("scope", VStr "admins")] eq_refl)
    as (T & o & hq & Hq & _ & _ & H).
  - eexists _, _. reflexivity.
  - vm_compute in Hq. injection Hq as <- <- <-.
    eexists _, _. by apply (H eq_refl VNull _ []).
Defined.

End SetExamples.

(** ** [create] and the caller's objects on concrete runs *)

Section CreateExamples.
Import Examples.

(** The scenario of the specification: the scope [{kind: "primary"}]
    and the values [{city: "X"}]. *)
Lemma create_values_witness :
  ∃ hc vps' w',
    create no_getters _ scripted (hasOne Profile primary) (VRef 0) (VRef 1) (VRef 2)
      (start user_and_values [inr (VRef 4)])
    = (inr (VRef 4), w')
    ∧ w_log w' = [{| ev_call := Create (VRef 1) (VRef 2); ev_heap := hc |}]
    ∧ hc !! 1 = Some (CObj vps')
    ∧ dict_get vps' (KStr "kind") = Some (VStr "primary")
    ∧ dict_get vps' (KStr "city") = Some (VStr "X")
    ∧ dict_get vps' (KStr "UserId") = Some (VNum 1)
    ∧ hc !! 3 = Some (CArr [VStr "city"; VStr "kind"; VStr "UserId"]).
Proof.
  destruct (create_values no_getters _ scripted (hasOne Profile primary)
              (start user_and_values [inr (VRef 4)]) (VRef 0) (VRef 1) (VRef 2)
              [(KStr "city", VStr "X")] [(KStr "fields", VRef 3)])
    as (lv & lo & hc & key & vps' & Hkey & Hrun & Hlv & Hfk & Hother & Hlo & Hfields).
  - eexists _, _. reflexivity.
  - reflexivity.
  - reflexivity.
  - discriminate.
  - right. eexists _, _. split; reflexivity.
  - vm_compute in Hkey. injection Hkey as <-.
    assert (lv = 1 ∧ lo = 2) as [-> ->].
    { apply (f_equal (λ r, w_log r.2)) in Hrun. vm_compute in Hrun.
      by injection Hrun as <- <-. }
    exists hc, vps'. eexists. split; [exact Hrun|].
    split; [reflexivity|]. split; [exact Hlv|].
    split; [by rewrite Hother|]. split; [by rewrite Hother|].
    split; [exact Hfk|]. by apply (Hfields 3 [VStr "city"]).
Defined.

(** C9 fails as stated: the foreign key is set after the scope, and an
    entry of the scope under its name does not reach the call. *)
Lemma create_scope_on_foreignKey :
  ¬ created_values_as_specified no_getters _ scripted (hasOne Profile fixed_user)
      (start user_and_values [inr (VRef 4)]) (VRef 0) (VRef 1) (VRef 2).
Proof.
  intros H.
  destruct (H (VNum 1) [("UserId", VNum 5)] [(KStr "city", VStr "X")]
              eq_refl eq_refl eq_refl)
    as (lv & lo & hc & vps' & Hlog & Hlv & Hsc & _).
  vm_compute in Hlog. injection Hlog as <- <- <-.
  vm_compute in Hlv. injection Hlv as <-.
  specialize (Hsc "UserId" (VNum 5) eq_refl). discriminate Hsc.
Qed.

(** [create] writes into the caller's values and field list; [get]
    leaves the caller's options as they are. *)
Lemma create_mutates_get_clones_witness :
  (∃ hc,
     w_log (create no_getters _ scripted (hasOne Profile primary)
              (VRef 0) (VRef 1) (VRef 2)
              (start user_and_values [inr (VRef 4)])).2
     = [{| ev_call := Create (VRef 1) (VRef 2); ev_heap := hc |}]
     ∧ length hc = 4
     ∧ hc !! 3 = Some (CArr [VStr "city"; VStr "kind"; VStr "UserId"]))
  ∧ (∃ e T lo',
       w_log (get no_getters _ scripted (hasOne Profile primary) (VRef 0) (VRef 1)
                (start user_and_options [])).2 = [e]
       ∧ ev_call e = FindOne T (VRef lo')
       ∧ 3 < lo'
       ∧ ev_heap e !! 1 = Some (CObj [(KStr "where", VRef 2)])).
Proof.
  split.
  - destruct (proj1 (create_mutates_get_clones no_getters _ scripted
                       (hasOne Profile primary)
                       (start user_and_values [inr (VRef 4)]))
                (VRef 0) 1 2 [(KStr "city", VStr "X")] [(KStr "fields", VRef 3)])
      as (hc & key & vps' & Hlog & Hlen & _ & _ & _ & _ & Hfields & _).
    + eexists _, _. reflexivity.
    + reflexivity.
    + reflexivity.
    + discriminate.
    + right. eexists _, _. split; reflexivity.
    + exists hc. split; [exact Hlog|]. split; [exact Hlen|].
      by apply (Hfields 3 [VStr "city"]).
  - destruct (proj2 (create_mutates_get_clones no_getters _ scripted
                       (hasOne Profile primary) (start user_and_options []))
                (VRef 0) (VRef 1) [(KStr "where", VRef 2)] eq_refl)
      as (e & T & lo' & ps1 & wv & Hlog & Hc & Hlt & Hframe & _).
    + left. eexists _, _. reflexivity.
    + pose proof Hlog as Hlog'. vm_compute in Hlog'. injection Hlog' as <-.
      destruct Hc as [Hc|Hc]; [|discriminate Hc].
      eexists _, T, lo'. split; [exact Hlog|]. split; [exact Hc|].
      split; [exact Hlt|]. rewrite Hframe; [reflexivity | simpl; lia].
Defined.

(** C10 fails as stated: the caller's values hold the source key, not
    the entry of the scope, under the name of the foreign key. *)
Lemma create_arguments_scope_on_foreignKey :
  ¬ arguments_as_specified no_getters _ scripted (hasOne Profile fixed_user)
      (start user_and_values [inr (VRef 4)]) (VRef 0) 1 2.
Proof.
  intros H.
  destruct (H (VNum 1) [("UserId", VNum 5)] eq_refl eq_refl)
    as (hc & vps' & Hlog & Hlv & _ & Hsc).
  vm_compute in Hlog. injection Hlog as <-.
  vm_compute in Hlv. injection Hlv as <-.
  specialize (Hsc "UserId" (VNum 5) eq_refl). discriminate Hsc.
Qed.

End CreateExamples.

(** ** Names, failures and further runs on concrete inputs *)

Section RunEdgeExamples.
Import Examples.

Local Abbreviation this := (hasOne Profile no_options).

(** [get(u, {where: {active: true}})] when the engine finds nothing. *)
Lemma get_one_outcome_witness :
  ∃ e w',
    get no_getters _ scripted this (VRef 0) (VRef 1)
      (start user_and_options [inr VNull])
    = (inr VNull, w')
    ∧ w_log w' = [e] ∧ is_find e = true.
Proof.
  destruct (get_one_outcome no_getters _ scripted this
              (start user_and_options [inr VNull]) (VRef 0) (VRef 1)
              [(KStr "where", VRef 2)] eq_refl)
    as (T & o & hq & Hq & Hget).
  - eexists _, _. reflexivity.
  - vm_compute in Hq. injection Hq as <- <- <-.
    rewrite Hget. eexists _, _. split; [reflexivity|]. by split.
Defined.

(** [get(u, {scope: 'admins'})] queries [Profile.scope('admins')]. *)
Lemma get_target_witness :
  ∃ e o,
    w_log (get no_getters _ scripted this (VRef 0) (VRef 1)
             (start user_and_scope [])).2 = [e]
    ∧ ev_call e = FindOne (Scoped Target (VStr "admins")) o.
Proof.
  destruct (get_target no_getters _ scripted this (start user_and_scope [])
              (VRef 0) (VRef 1) [(KStr "scope", VStr "admins")] eq_refl)
    as (e & T & o & Hlog & Hc & HT).
  - left. eexists _, _. reflexivity.
  - reflexivity.
  - reflexivity.
  - reflexivity.
  - simpl in HT. subst T. exists e, o. split; [exact Hlog|].
    destruct Hc as [Hc|Hc]; [exact Hc|].
    vm_compute in Hlog. injection Hlog as <-. discriminate Hc.
Defined.

(** [get([])] when the engine answers with an empty array. *)
Lemma get_empty_array_witness :
  ∃ l w',
    get no_getters _ scripted this (VRef 0) VUndef (start no_users [inr (VRef 1)])
    = (inr (VRef l), w')
    ∧ w_heap w' !! l = Some (CObj [])
    ∧ length (w_log w') = 1.
Proof.
  destruct (get_empty_array no_getters _ scripted this
              (start no_users [inr (VRef 1)]) (VRef 0) VUndef [] eq_refl eq_refl)
    as (T & o & hq & i & a & Hq & _ & _ & _ & _ & H).
  vm_compute in Hq. injection Hq as <- <- <-.
  rewrite (H (VRef 1) _ [] eq_refl eq_refl eq_refl).
  eexists _, _. split; [reflexivity|]. by split.
Defined.

(** Two profiles of the user 1 in the answer: the entry under 1 is the
    second. *)
Lemma get_last_match_wins_witness :
  ∃ l res w',
    get no_getters _ scripted this (VRef 1) VUndef
      (start one_user_two_profiles [inr (VRef 2)])
    = (inr (VRef l), w')
    ∧ w_heap w' !! l = Some (CObj res)
    ∧ dict_get res (KStr "1") = Some (VRef 4).
Proof.
  destruct (get_last_match_wins no_getters _ scripted this
              (start one_user_two_profiles [inr (VRef 2)]) (VRef 1) VUndef []
              [VRef 0] eq_refl eq_refl)
    as (T & o & hq & Hq & H).
  - repeat constructor; eexists _, _; reflexivity.
  - vm_compute in Hq. injection Hq as <- <- <-.
    destruct (H (VRef 2) _ [] [VRef 3] (VRef 4) [] eq_refl eq_refl)
      as (res & Hget & Hres).
    + repeat constructor; eexists _, _; reflexivity.
    + reflexivity.
    + repeat constructor; eexists _, _; reflexivity.
    + intros r' Hr'. by apply elem_of_nil in Hr'.
    + rewrite Hget. eexists _, res, _. split; [reflexivity|].
      split; [apply list_lookup_middle; reflexivity | exact Hres].
Defined.

(** [get(undefined)] throws, and no query is made. *)
Lemma get_throws_without_record_witness :
  ∃ e w',
    get no_getters _ scripted this VUndef VUndef (start [] []) = (inl e, w')
    ∧ w_log w' = [].
Proof.
  apply (get_throws_without_record no_getters _ scripted this (start [] [])
           VUndef VUndef [] eq_refl).
  left. split; [by left | by intros vs].
Defined.

(** [set(u, null)] when [p7] is linked: the read and the save of [p7]
    without its foreign key. *)
Lemma set_removes_link_witness :
  ∃ find detach w',
    set no_getters _ scripted this (VRef 0) VNull VUndef
      (start linked_and_other [inr (VRef 1); inr (VRef 1)])
    = (inr VNull, w')
    ∧ w_log w' = [find; detach]
    ∧ ev_call detach = Save (VRef 1) (VRef 8)
    ∧ instance_get no_getters true (ev_heap detach) (VRef 1) "UserId" = inr VNull.
Proof.
  destruct (set_removes_link no_getters _ scripted this
              (start linked_and_other [inr (VRef 1); inr (VRef 1)])
              (VRef 0) VNull VUndef [] eq_refl)
    as (T & o & hq & Hq & H).
  - eexists _, _. reflexivity.
  - reflexivity.
  - vm_compute in Hq. injection Hq as <- <- <-.
    destruct (H 1 _ [inr (VRef 1)] "Profile"
                [("id", VNum 7); ("UserId", VNum 1)] [("scope", VBool false)]
                eq_refl eq_refl eq_refl) as [Hnull Hset].
    rewrite Hset. eexists _, _, _. split; [reflexivity|].
    split; [reflexivity|]. split; [reflexivity | exact Hnull].
Defined.

(** [set(u, p8)] when nothing is linked: the read and the save of
    [p8], which holds the key of [u]. *)
Lemma set_first_link_witness :
  ∃ find attach dv' w',
    set no_getters _ scripted this (VRef 0) (VRef 2) VUndef
      (start linked_and_other [inr VNull; inr (VRef 2)])
    = (inr (VRef 2), w')
    ∧ w_log w' = [find; attach]
    ∧ ev_call attach = Save (VRef 2) (VRef 3)
    ∧ ev_heap attach !! 2 = Some (CInst "Profile" dv')
    ∧ dict_get dv' "UserId" = Some (VNum 1)
    ∧ dict_get dv' "id" = Some (VNum 8).
Proof.
  destruct (set_first_link no_getters _ scripted this
              (start linked_and_other [inr VNull; inr (VRef 2)])
              (VRef 0) 2 VUndef [] eq_refl)
    as (T & o & hq & Hq & H).
  - eexists _, _. reflexivity.
  - discriminate.
  - vm_compute in Hq. injection Hq as <- <- <-.
    destruct (H VNull _ [inr (VRef 2)] [("id", VNum 8); ("UserId", VNull)]
                eq_refl eq_refl)
      as (key & dv' & Hkey & Hfk & Hother & Hset).
    + eexists _, _. reflexivity.
    + reflexivity.
    + vm_compute in Hkey. injection Hkey as <-.
      rewrite Hset. eexists _, _, dv', _. split; [reflexivity|].
      split; [reflexivity|]. split; [reflexivity|].
      split; [reflexivity|]. split; [exact Hfk|].
      by rewrite Hother.
Defined.

(** [set(u, 8)] when nothing is linked: a record of [Profile] with the
    key 8 is built and saved, with the key of [u]. *)
Lemma set_wraps_bare_key_witness :
  ∃ find attach l dv' w',
    set no_getters _ scripted this (VRef 0) (VNum 8) VUndef
      (start [CInst "User" [("id", VNum 1)]] [inr VNull; inr VNull])
    = (inr VNull, w')
    ∧ w_log w' = [find; attach]
    ∧ ev_call attach = Save (VRef l) (VRef 1)
    ∧ ev_heap attach !! l = Some (CInst "Profile" dv')
    ∧ dict_get dv' "id" = Some (VNum 8)
    ∧ dict_get dv' "UserId" = Some (VNum 1).
Proof.
  destruct (set_wraps_bare_key no_getters _ scripted this
              (start [CInst "User" [("id", VNum 1)]] [inr VNull; inr VNull])
              (VRef 0) (VNum 8) VUndef [] eq_refl)
    as (T & o & hq & Hq & H).
  - eexists _, _. reflexivity.
  - reflexivity.
  - vm_compute in Hq. injection Hq as <- <- <-.
    destruct (H VNull _ [inr VNull] eq_refl eq_refl)
      as (key & dv' & Hkey & Hfk & Hother & Hset).
    + eexists _, _. reflexivity.
    + reflexivity.
    + vm_compute in Hkey. injection Hkey as <-.
      rewrite Hset. eexists _, _, _, dv', _. split; [reflexivity|].
      split; [reflexivity|]. split; [reflexivity|].
      split; [reflexivity|]. split; [by rewrite Hother | exact Hfk].
Defined.

(** [set(u, 7)] when the profile 7 is linked: the read alone. *)
Lemma set_equal_candidate_saves_nothing_witness :
  ∃ find w',
    set no_getters _ scripted this (VRef 0) (VNum 7) VUndef
      (start linked_and_other [inr (VRef 1)])
    = (inr VNull, w')
    ∧ w_log w' = [find].
Proof.
  destruct (set_equal_candidate_saves_nothing no_getters _ scripted this
              (start linked_and_other [inr (VRef 1)])
              (VRef 0) (VNum 7) VUndef [] eq_refl)
    as (T & o & hq & Hq & H).
  - eexists _, _. reflexivity.
  - reflexivity.
  - vm_compute in Hq. injection Hq as <- <- <-.
    rewrite (H 1 _ [] eq_refl).
    + eexists _, _. split; reflexivity.
    + intros a ->%list_elem_of_singleton. by exists (VNum 7).
Defined.

(** [set(u, null, {scope: 'admins'})]: the caller's options keep their
    scope, the options of [set] have [scope: false]. *)
Lemma set_copies_options_witness :
  ∃ e ops',
    w_log (set no_getters _ scripted this (VRef 0) VNull (VRef 1)
             (start user_and_scope [inr VNull])).2 = [e]
    ∧ ev_heap e !! 1 = Some (CObj [(KStr "scope", VStr "admins")])
    ∧ ev_heap e !! 2 = Some (CObj ops')
    ∧ dict_get ops' (KStr "scope") = Some (VBool false).
Proof.
  destruct (set_copies_options no_getters _ scripted this
              (start user_and_scope [inr VNull]) (VRef 0) VNull (VRef 1)
              [("scope", VStr "admins")] eq_refl)
    as (T & o & hq & ops' & Hq & _ & Hframe & Hopt & Hget & _).
  - eexists _, _. reflexivity.
  - vm_compute in Hq. injection Hq as <- <- <-.
    eexists _, ops'. split; [vm_compute; reflexivity|].
    split; [apply (Hframe 1); simpl; lia|].
    split; [exact Hopt | by rewrite Hget].
Defined.

(** [set(u, p8)] when the engine rejects the read. *)
Lemma set_rejects_with_read_witness :
  ∃ find w',
    set no_getters _ scripted this (VRef 0) (VRef 2) VUndef
      (start linked_and_other [inl (Rejected (VStr "down"))])
    = (inl (Rejected (VStr "down")), w')
    ∧ w_log w' = [find].
Proof.
  destruct (set_rejects_with_read no_getters _ scripted this
              (start linked_and_other [inl (Rejected (VStr "down"))])
              (VRef 0) (VRef 2) VUndef [] eq_refl)
    as (T & o & hq & Hq & H).
  - eexists _, _. reflexivity.
  - vm_compute in Hq. injection Hq as <- <- <-.
    rewrite (H (Rejected (VStr "down")) _ [] eq_refl).
    eexists _, _. split; reflexivity.
Defined.

(** [create(undefined, {city: 'X'}, {fields: ['city']})] under the
    scope [{kind: 'primary'}]: a TypeError, after the scope has been
    written. *)
Lemma create_throws_without_record_witness :
  ∃ h',
    create no_getters _ scripted (hasOne Profile primary) VUndef (VRef 1) (VRef 2)
      (start user_and_values [])
    = (inl TypeError, start h' [])
    ∧ h' !! 1 = Some (CObj [(KStr "city", VStr "X"); (KStr "kind", VStr "primary")])
    ∧ h' !! 3 = Some (CArr [VStr "city"; VStr "kind"]).
Proof.
  destruct (create_throws_without_record no_getters _ scripted
              (hasOne Profile primary) (start user_and_values [])
              VUndef 1 2 [(KStr "city", VStr "X")] [(KStr "fields", VRef 3)]
              eq_refl eq_refl)
    as (h' & Hrun & Hv & Hf).
  - discriminate.
  - right. eexists _, _. split; reflexivity.
  - by left.
  - exists h'. split; [exact Hrun|]. split; [exact Hv|].
    by apply (Hf 3 [VStr "city"]).
Defined.

(** [create(u, {}, {fields: 'city'})]: a TypeError, and no call. *)
Lemma create_throws_on_fields_witness :
  ∃ h',
    create no_getters _ scripted this (VRef 0) (VRef 1) (VRef 2)
      (start user_and_field_name [])
    = (inl TypeError, start h' []).
Proof.
  apply (create_throws_on_fields no_getters _ scripted this
           (start user_and_field_name []) (VRef 0) 1 2 []
           [(KStr "fields", VStr "city")] eq_refl eq_refl).
  - discriminate.
  - reflexivity.
  - intros lf fs Hf. discriminate Hf.
Defined.

End RunEdgeExamples.
